(** * cuid-c: a shallow embedding of [cuid.h] and the properties of its
    base-36 codec, multiply-with-carry generator and identifier assemblers.

    Conventions of the embedding.
    - [uint64_t], [uint32_t], [unsigned] and [unsigned long] values are
      integers in [Z]; every wrap-around of the C arithmetic is written out
      with [mod].
    - [size_t] indices and lengths, and the [uint8_t] pad length, are [nat].
    - A [char] array is a [list ascii]; a [char *] argument is the array it
      points into together with the index it points at, so [&result[7]] is
      the pair of [result] and [7].
    - A read or a write outside an array has no defined behaviour in C; the
      embedding stops with [OutOfBounds] there.  [perror] followed by
      [CUID_EXIT(EXIT_FAILURE)] stops with the fault naming the message.
    - [MWC_SYSTEM_RAND32], [CUID_GET_TIMESTAMP], [gethostname] and [getpid]
      are given by the values they return.  The one loop with no bound of its
      own, the rejection loop of [mwc_initial_c], takes [fuel]; [OutOfFuel]
      belongs to the embedding, not to the program. *)

From Stdlib Require Import ZArith Ascii String.
From stdpp Require Import base tactics numbers option list.

(** ** Outcomes of a C function *)

Inductive fault : Type :=
  | PadTooWide      (* cuid_base36_pad: perror + CUID_EXIT(EXIT_FAILURE) *)
  | HostnameError   (* cuid_get_fingerprint: perror + CUID_EXIT(EXIT_FAILURE) *)
  | OutOfBounds     (* an array index outside the array *)
  | OutOfFuel.      (* a loop of the embedding was cut before the C loop ends *)

Inductive outcome (A : Type) : Type :=
  | Done (a : A)
  | Stop (f : fault).
Arguments Done {A} a.
Arguments Stop {A} f.

#[global] Instance outcome_ret : MRet outcome := @Done.
#[global] Instance outcome_bind : MBind outcome :=
  λ A B f m, match m with Done a => f a | Stop e => Stop e end.

#[global] Instance fault_eq_dec : EqDecision fault.
Proof. solve_decision. Defined.

(** ** Arrays *)

Abbreviation buffer := (list ascii).

Definition NUL : ascii := "000"%char.

(** [a[i]] as an rvalue. *)
Definition load {A} (a : list A) (i : nat) : outcome A :=
  match a !! i with
  | Some x => Done x
  | None => Stop OutOfBounds
  end.

(** [a[i] = x]. *)
Definition store {A} (a : list A) (i : nat) (x : A) : outcome (list A) :=
  if decide (i < length a) then Done (<[i:=x]> a) else Stop OutOfBounds.

(** [for (size_t i = start; i < start + count; ++i) body]. *)
Fixpoint for_loop {St} (count start : nat)
    (body : nat → St → outcome St) (s : St) : outcome St :=
  match count with
  | 0 => Done s
  | S count => s ← body start s; for_loop count (S start) body s
  end.

(** The characters of a string literal, the [len] characters of an array
    from index [ofs] on, and a zero-initialised array. *)
Definition chars (s : string) : buffer := list_ascii_of_string s.
Definition text (len ofs : nat) (b : buffer) : buffer := take len (drop ofs b).
Definition fresh (n : nat) : buffer := replicate n NUL.

(** ** Base-36 codec *)

Definition CUID_SIZE : nat := 24.
Definition CUID_BASE36_RESULT_SIZE : nat := 16.

Definition cuid_radix36_table : buffer :=
  chars "0123456789abcdefghijklmnopqrstuvwxyz".

(** [sizeof cuid_radix36_table - 1] *)
Definition base : Z := Z.of_nat (length cuid_radix36_table).

(** The [do ... while] loop of [cuid_base36].  It runs at most
    [CUID_BASE36_RESULT_SIZE - 1] times because of its own length test, so
    that much [fuel] is never used up (see [base36_digits_run]). *)
Fixpoint base36_digits (fuel : nat) (cuid_number : Z)
    (cuid_inverted_result : buffer) (cuid_length : nat)
    : outcome (buffer * nat) :=
  match fuel with
  | 0 => Stop OutOfFuel
  | S fuel =>
      d ← load cuid_radix36_table (Z.to_nat (cuid_number `mod` base));
      cuid_inverted_result ← store cuid_inverted_result cuid_length d;
      let cuid_number := (cuid_number `div` base)%Z in
      let cuid_length := S cuid_length in
      if decide ((0 < cuid_number)%Z ∧
                 cuid_length < CUID_BASE36_RESULT_SIZE - 1)
      then base36_digits fuel cuid_number cuid_inverted_result cuid_length
      else Done (cuid_inverted_result, cuid_length)
  end.

(** [cuid_base36(cuid_number, &cuid_result[ofs])]: the length written and the
    array afterwards.  The inverting loop [for (i = 0; i <= cuid_length - 1;
    ++i)] runs [cuid_length] times, [cuid_length] being at least 1. *)
Definition cuid_base36 (cuid_number : Z) (cuid_result : buffer) (ofs : nat)
    : outcome (nat * buffer) :=
  '(cuid_inverted_result, cuid_length) ←
    base36_digits CUID_BASE36_RESULT_SIZE cuid_number
      (replicate CUID_BASE36_RESULT_SIZE NUL) 0;
  cuid_result ←
    for_loop cuid_length 0 (λ i res,
      c ← load cuid_inverted_result (cuid_length - 1 - i);
      store res (ofs + i) c) cuid_result;
  cuid_result ← store cuid_result (ofs + cuid_length) NUL;
  Done (cuid_length, cuid_result).

(** [cuid_base36_pad(cuid_number, &cuid_result[ofs], pad_length, pad_char)]. *)
Definition cuid_base36_pad (cuid_number : Z) (cuid_result : buffer)
    (ofs : nat) (pad_length : nat) (pad_char : ascii)
    : outcome (nat * buffer) :=
  if decide (CUID_BASE36_RESULT_SIZE ≤ pad_length) then Stop PadTooWide else
  '(base36_str_len, cuid_result) ← cuid_base36 cuid_number cuid_result ofs;
  if decide (base36_str_len < pad_length) then
    cuid_result ←
      for_loop (S pad_length) 0 (λ i res,
        c ← (if decide (base36_str_len < i) then Done pad_char
             else load res (ofs + (base36_str_len - i)));
        store res (ofs + (pad_length - i)) c) cuid_result;
    Done (pad_length, cuid_result)
  else if decide (pad_length < base36_str_len) then
    let diff := base36_str_len - pad_length in
    cuid_result ←
      for_loop (S pad_length) 0 (λ i res,
        c ← load res (ofs + (i + diff));
        store res (ofs + i) c) cuid_result;
    Done (pad_length, cuid_result)
  else Done (pad_length, cuid_result).

(** ** Counter (default [CUID_COUNTER_T]) *)

Record cuid_counter_t : Type := mk_counter { value : Z }.

Definition cuid_create_counter : cuid_counter_t := mk_counter 0%Z.
Definition cuid_init_counter (c : cuid_counter_t) : cuid_counter_t :=
  mk_counter 0%Z.
Definition cuid_read_counter (c : cuid_counter_t) : Z := value c.
(** [c.value++] on an [unsigned]. *)
Definition cuid_inc_counter (c : cuid_counter_t) : cuid_counter_t :=
  mk_counter ((value c + 1) `mod` 2 ^ 32)%Z.

(** ** Multiply-with-carry generator (default [CUID_RANDOM_T]) *)

Definition MWC_CYCLE : nat := Z.to_nat 4096.
Definition MWC_C_MAX : Z := 809430660.

Record mwc_random_t : Type := mk_mwc {
  mwc_q : list Z;
  mwc_carry : Z;
  mwc_current_cycle : Z;
  mwc_initial_carry : Z;
  mwc_initial_q : list Z
}.

Definition set_mwc_q (r : mwc_random_t) (q : list Z) : mwc_random_t :=
  mk_mwc q (mwc_carry r) (mwc_current_cycle r) (mwc_initial_carry r)
    (mwc_initial_q r).
Definition set_mwc_initial_q (r : mwc_random_t) (q : list Z) : mwc_random_t :=
  mk_mwc (mwc_q r) (mwc_carry r) (mwc_current_cycle r) (mwc_initial_carry r) q.

(** [mwc_read_random]. *)
Definition mwc_read_random (state : mwc_random_t) : outcome Z :=
  load (mwc_q state) (Z.to_nat (mwc_current_cycle state)).

(** [mwc_init]. *)
Definition mwc_init (r : mwc_random_t) : outcome mwc_random_t :=
  let r := mk_mwc (mwc_q r) (mwc_initial_carry r) (Z.of_nat MWC_CYCLE - 1)%Z
             (mwc_initial_carry r) (mwc_initial_q r) in
  for_loop MWC_CYCLE 0 (λ i r,
    x ← load (mwc_initial_q r) i;
    q ← store (mwc_q r) i x;
    Done (set_mwc_q r q)) r.

(** [mwc_next_random]: [t] is a [uint64_t], [x] and the carry are
    [uint32_t]. *)
Definition mwc_next_random (state : mwc_random_t) : outcome mwc_random_t :=
  let a : Z := 18782%Z in
  let m : Z := 0xfffffffe%Z in
  let cycle :=
    Z.land ((mwc_current_cycle state + 1) `mod` 2 ^ 32)%Z
           (Z.of_nat MWC_CYCLE - 1)%Z in
  qv ← load (mwc_q state) (Z.to_nat cycle);
  let t := (((a * qv) `mod` 2 ^ 64 + mwc_carry state) `mod` 2 ^ 64)%Z in
  let carry := (Z.shiftr t 32 `mod` 2 ^ 32)%Z in
  let x := ((t `mod` 2 ^ 32 + carry) `mod` 2 ^ 32)%Z in
  let '(x, carry) :=
    if decide (x < carry)%Z
    then (((x + 1) `mod` 2 ^ 32)%Z, ((carry + 1) `mod` 2 ^ 32)%Z)
    else (x, carry) in
  q ← store (mwc_q state) (Z.to_nat cycle) ((m - x) `mod` 2 ^ 32)%Z;
  Done (mk_mwc q carry cycle (mwc_initial_carry state) (mwc_initial_q state)).

Section SystemRandom.

(** [MWC_SYSTEM_RAND32]: the value its [k]-th call returns.  The functions
    that call it take the number of calls made so far and return the number
    of calls made after them. *)
Variable MWC_SYSTEM_RAND32 : nat → Z.

(** The [k]-th value the source returns, as a [uint32_t]. *)
Definition draw (k : nat) : Z := (MWC_SYSTEM_RAND32 k `mod` 2 ^ 32)%Z.

Definition rand32 (calls : nat) : Z * nat := (draw calls, S calls).

(** [mwc_initial_c]: the rejection loop has no bound in C; [fuel] bounds
    the number of draws. *)
Fixpoint mwc_initial_c (fuel calls : nat) : outcome (Z * nat) :=
  match fuel with
  | 0 => Stop OutOfFuel
  | S fuel =>
      let '(mwc_initial_carry, calls) := rand32 calls in
      if decide (MWC_C_MAX ≤ mwc_initial_carry)%Z
      then mwc_initial_c fuel calls
      else Done (mwc_initial_carry, calls)
  end.

(** [mwc_create]. *)
Definition mwc_create (fuel calls : nat) : outcome (mwc_random_t * nat) :=
  '(mwc_c, calls) ← mwc_initial_c fuel calls;
  let mwc_state :=
    mk_mwc (replicate MWC_CYCLE 0%Z) mwc_c (Z.of_nat MWC_CYCLE - 1)%Z mwc_c
      (replicate MWC_CYCLE 0%Z) in
  for_loop MWC_CYCLE 0 (λ i '(st, calls),
    let '(v, calls) := rand32 calls in
    q ← store (mwc_q st) i v;
    x ← load q i;
    iq ← store (mwc_initial_q st) i x;
    Done (set_mwc_initial_q (set_mwc_q st q) iq, calls)) (mwc_state, calls).

(** ** Default fingerprint *)

Definition CUID_FINGERPRINT_SIZE : nat := 5.
Definition CUID_HOSTNAME_LENGTH : nat := 256.

(** [cuid_get_fingerprint(&result[ofs])].  [gethostname] is given by the
    code it returns and by the [uint32_t] view [hostname.values] of the
    union it has filled; [getpid] by the identifier it returns, which the
    cast takes to a [uint64_t]. *)
Definition cuid_get_fingerprint (error_code : Z) (values : list Z)
    (pid : Z) (result : buffer) (ofs : nat) : outcome (nat * buffer) :=
  if decide (error_code ≠ 0%Z) then Stop HostnameError else
  hostname_number ←
    for_loop (CUID_HOSTNAME_LENGTH / 4) 0 (λ i hostname_number,
      v ← load values i;
      Done ((hostname_number + v) `mod` 2 ^ 64)%Z) 0%Z;
  '(length, result) ← cuid_base36_pad hostname_number result ofs 2 "0";
  let pid := (pid `mod` 2 ^ 64)%Z in
  '(n, result) ← cuid_base36_pad pid result (ofs + 2) 2 "0";
  Done (length + n, result).

(** ** Pure API *)

Definition CUID_TIMESTAMP_LENGTH : nat := 6.
Definition CUID_BLOCK_LENGTH : nat := 4.

Record cuid_t : Type := mk_cuid {
  cuid_fingerprint : buffer;
  cuid_counter : cuid_counter_t;
  cuid_counter_str : buffer;
  cuid_rnd1 : mwc_random_t;
  cuid_rnd2 : mwc_random_t;
  cuid_rnd1_str : buffer;
  cuid_rnd2_str : buffer;
  cuid_value : buffer;
  cuid_timestamp : buffer
}.

(** [cuid_create]: the members the initialiser does not name are zero.
    The two [CUID_CREATE_RANDOM()] calls are taken in the order they are
    written. *)
Definition cuid_create (fuel calls : nat) (fingerprint : buffer)
    : outcome (cuid_t * nat) :=
  '(rnd1, calls) ← mwc_create fuel calls;
  '(rnd2, calls) ← mwc_create fuel calls;
  fp ←
    for_loop CUID_FINGERPRINT_SIZE 0 (λ i fp,
      c ← load fingerprint i;
      store fp i c) (fresh CUID_BASE36_RESULT_SIZE);
  Done (mk_cuid fp cuid_create_counter (fresh CUID_BASE36_RESULT_SIZE)
          rnd1 rnd2 (fresh CUID_BASE36_RESULT_SIZE)
          (fresh CUID_BASE36_RESULT_SIZE) (fresh CUID_SIZE)
          (fresh CUID_BASE36_RESULT_SIZE), calls).

(** [cuid_gen_value_string]. *)
Definition cuid_gen_value_string (id : cuid_t) : outcome cuid_t :=
  v ← store (cuid_value id) 0 "c"%char;
  v ←
    for_loop CUID_TIMESTAMP_LENGTH 0 (λ i v,
      c ← load (cuid_timestamp id) i;
      store v (1 + i) c) v;
  '(_, counter_str) ←
    cuid_base36_pad (cuid_read_counter (cuid_counter id))
      (cuid_counter_str id) 0 CUID_BLOCK_LENGTH "0";
  v ←
    for_loop CUID_BLOCK_LENGTH 0 (λ i v,
      c ← load counter_str i;
      store v (i + CUID_TIMESTAMP_LENGTH + 1) c) v;
  v ←
    for_loop CUID_BLOCK_LENGTH 0 (λ i v,
      c ← load (cuid_fingerprint id) i;
      store v (i + CUID_BLOCK_LENGTH + CUID_TIMESTAMP_LENGTH + 1) c) v;
  r1 ← mwc_read_random (cuid_rnd1 id);
  '(_, rnd1_str) ←
    cuid_base36_pad r1 (cuid_rnd1_str id) 0 CUID_BLOCK_LENGTH "0";
  v ←
    for_loop CUID_BLOCK_LENGTH 0 (λ i v,
      c ← load rnd1_str i;
      store v (i + 2 * CUID_BLOCK_LENGTH + CUID_TIMESTAMP_LENGTH + 1) c) v;
  r2 ← mwc_read_random (cuid_rnd2 id);
  '(_, rnd2_str) ←
    cuid_base36_pad r2 (cuid_rnd2_str id) 0 CUID_BLOCK_LENGTH "0";
  v ←
    for_loop CUID_BLOCK_LENGTH 0 (λ i v,
      c ← load rnd2_str i;
      store v (i + 3 * CUID_BLOCK_LENGTH + CUID_TIMESTAMP_LENGTH + 1) c) v;
  Done (mk_cuid (cuid_fingerprint id) (cuid_counter id) counter_str
          (cuid_rnd1 id) (cuid_rnd2 id) rnd1_str rnd2_str v
          (cuid_timestamp id)).

(** [cuid_init]. *)
Definition cuid_init (id : cuid_t) (timestamp : Z) : outcome cuid_t :=
  let counter := cuid_init_counter (cuid_counter id) in
  rnd1 ← mwc_init (cuid_rnd1 id);
  rnd2 ← mwc_init (cuid_rnd2 id);
  '(_, ts) ←
    cuid_base36_pad timestamp (cuid_timestamp id) 0 CUID_TIMESTAMP_LENGTH "0";
  v ← for_loop CUID_SIZE 0 (λ i v, store v i NUL) (cuid_value id);
  cuid_gen_value_string
    (mk_cuid (cuid_fingerprint id) counter (cuid_counter_str id) rnd1 rnd2
       (cuid_rnd1_str id) (cuid_rnd2_str id) v ts).

(** [cuid_read]: the destination array afterwards. *)
Definition cuid_read (id : cuid_t) (destination : buffer) : outcome buffer :=
  for_loop CUID_SIZE 0 (λ i dst,
    c ← load (cuid_value id) i;
    store dst i c) destination.

(** [cuid_next]. *)
Definition cuid_next (id : cuid_t) (timestamp : Z) : outcome cuid_t :=
  let counter := cuid_inc_counter (cuid_counter id) in
  rnd1 ← mwc_next_random (cuid_rnd1 id);
  rnd2 ← mwc_next_random (cuid_rnd2 id);
  '(_, ts) ←
    cuid_base36_pad timestamp (cuid_timestamp id) 0 CUID_TIMESTAMP_LENGTH "0";
  cuid_gen_value_string
    (mk_cuid (cuid_fingerprint id) counter (cuid_counter_str id) rnd1 rnd2
       (cuid_rnd1_str id) (cuid_rnd2_str id) (cuid_value id) ts).

(** ** Quick mode *)

(** [cuid(result)]: [counter] is the function's [static uint32_t] before
    the call, [now] what [CUID_GET_TIMESTAMP()] returns; the result holds
    the returned length, the array, the counter and the number of
    [MWC_SYSTEM_RAND32] calls afterwards. *)
Definition cuid (counter now error_code : Z) (values : list Z) (pid : Z)
    (calls : nat) (result : buffer) : outcome (nat * buffer * Z * nat) :=
  let length := 1 in
  result ← store result 0 "c"%char;
  '(n, result) ← cuid_base36_pad now result 1 6 "0";
  let length := length + n in
  let counter := ((counter + 1) `mod` 2 ^ 32)%Z in
  '(n, result) ← cuid_base36_pad counter result length 4 "0";
  let length := length + n in
  '(n, result) ← cuid_get_fingerprint error_code values pid result length;
  let length := length + n in
  let '(r, calls) := rand32 calls in
  '(n, result) ← cuid_base36_pad r result length 4 "0";
  let length := length + n in
  let '(r, calls) := rand32 calls in
  '(n, result) ← cuid_base36_pad r result length 4 "0";
  let length := length + n in
  result ← store result (CUID_SIZE - 1) NUL;
  Done (length, result, counter, calls).

End SystemRandom.

(** * Definitions for the statements *)

(** The character of the digit [n mod 36]. *)
Definition radix36 (n : Z) : ascii :=
  default NUL (cuid_radix36_table !! Z.to_nat (n `mod` base)).

(** The digits the [do ... while] loop writes, least significant first, when
    it may still run [room] more times after the current one. *)
Fixpoint digits_lsd (room : nat) (n : Z) : buffer :=
  radix36 n ::
  match room with
  | 0 => []
  | S room =>
      if decide (0 < n `div` base)%Z then digits_lsd room (n `div` base)
      else []
  end.

(** The text [cuid_base36] writes, most significant digit first. *)
Definition digits36 (n : Z) : buffer :=
  reverse (digits_lsd (CUID_BASE36_RESULT_SIZE - 2) n).

(** The number a base-36 text denotes. *)
Fixpoint index_of (c : ascii) (l : buffer) : nat :=
  match l with
  | [] => 0
  | x :: l => if Ascii.eqb x c then 0 else S (index_of c l)
  end.

Definition digit_value (c : ascii) : Z :=
  Z.of_nat (index_of c cuid_radix36_table).

Definition base36_value (s : buffer) : Z :=
  fold_left (λ acc c, acc * 36 + digit_value c)%Z s 0%Z.

Fixpoint value_lsd (l : buffer) : Z :=
  match l with
  | [] => 0
  | c :: l => digit_value c + 36 * value_lsd l
  end%Z.

(** Left padding or right truncation of the plain encoding to [w]
    characters. *)
Definition padded (n : Z) (w : nat) (pad : ascii) : buffer :=
  let s := digits36 n in
  if decide (length s < w) then replicate (w - length s) pad ++ s
  else drop (length s - w) s.

(** What is left behind the terminator of the padded text: the digits the
    truncation has not overwritten. *)
Definition leftover (n : Z) (w : nat) : buffer :=
  drop (S w) (digits36 n ++ [NUL]).

(** A [uint32_t] value. *)
Definition u32 (x : Z) : Prop := (0 ≤ x < 2 ^ 32)%Z.

(** The typing of a generator state: two tables of [MWC_CYCLE] 32-bit words,
    32-bit carries and a cursor inside the table. *)
Record mwc_wf (r : mwc_random_t) : Prop := mk_mwc_wf {
  wf_q_length : length (mwc_q r) = MWC_CYCLE;
  wf_initial_q_length : length (mwc_initial_q r) = MWC_CYCLE;
  wf_q : Forall u32 (mwc_q r);
  wf_initial_q : Forall u32 (mwc_initial_q r);
  wf_carry : u32 (mwc_carry r);
  wf_initial_carry : u32 (mwc_initial_carry r);
  wf_cycle : (0 ≤ mwc_current_cycle r < Z.of_nat MWC_CYCLE)%Z
}.

(** One advance step in the words of the specification: the cursor moves by
    one modulo 4096, [t = 18782 * Q[cursor'] + carry], the new carry is
    [t >> 32], [x] is the 32-bit sum of [low32(t)] and the new carry, both are
    incremented when the sum is below the carry, and the 32-bit word
    [0xFFFFFFFE - x] is stored at the cursor. *)
Definition advance_spec (s : mwc_random_t) : mwc_random_t :=
  let cursor' := ((mwc_current_cycle s + 1) `mod` 4096)%Z in
  let Qc := default 0%Z (mwc_q s !! Z.to_nat cursor') in
  let t := (18782 * Qc + mwc_carry s)%Z in
  let carry' := Z.shiftr t 32 in
  let x := ((t `mod` 2 ^ 32 + carry') `mod` 2 ^ 32)%Z in
  let '(x, carry') :=
    if decide (x < carry')%Z then ((x + 1)%Z, (carry' + 1)%Z)
    else (x, carry') in
  mk_mwc (<[Z.to_nat cursor':=((0xFFFFFFFE - x) `mod` 2 ^ 32)%Z]> (mwc_q s))
    carry' cursor' (mwc_initial_carry s) (mwc_initial_q s).

(** The word the step stores. *)
Definition advance_word (s : mwc_random_t) : Z :=
  let cursor' := ((mwc_current_cycle s + 1) `mod` 4096)%Z in
  let Qc := default 0%Z (mwc_q s !! Z.to_nat cursor') in
  let t := (18782 * Qc + mwc_carry s)%Z in
  let carry' := Z.shiftr t 32 in
  let x := ((t `mod` 2 ^ 32 + carry') `mod` 2 ^ 32)%Z in
  let x := if decide (x < carry')%Z then (x + 1)%Z else x in
  ((0xFFFFFFFE - x) `mod` 2 ^ 32)%Z.

(** A table after the draws of [mwc_create] for the indices from [start]
    on. *)
Definition fill (src : nat → Z) (calls start count : nat) (l : list Z)
    : list Z :=
  take start l ++ (draw src <$> seq calls count) ++ drop (start + count) l.

Inductive mwc_reachable (s0 : mwc_random_t) : mwc_random_t → Prop :=
  | reach_created : mwc_reachable s0 s0
  | reach_next s s' :
      mwc_reachable s0 s → mwc_next_random s = Done s' → mwc_reachable s0 s'
  | reach_init s s' :
      mwc_reachable s0 s → mwc_init s = Done s' → mwc_reachable s0 s'.

(** [N] advance steps, and the value read after a reset followed by [N]
    advance steps. *)
Fixpoint advance (N : nat) (s : mwc_random_t) : outcome mwc_random_t :=
  match N with
  | 0 => Done s
  | S N => s ← mwc_next_random s; advance N s
  end.

Definition replay (N : nat) (s : mwc_random_t) : outcome Z :=
  s ← mwc_init s; s ← advance N s; mwc_read_random s.

(** A state of the right shape for the examples: every word is [q], the
    carry is [c] and the cursor is at the last index. *)
Definition flat_state (q c : Z) : mwc_random_t :=
  mk_mwc (replicate MWC_CYCLE q) c (Z.of_nat MWC_CYCLE - 1) c
    (replicate MWC_CYCLE q).

(** The text [cuid_base36_pad] produces, read off a run of it on a
    zero-initialised array of [CUID_BASE36_RESULT_SIZE] characters. *)
Definition pad_text (n : Z) (w : nat) (pad : ascii) : buffer :=
  match cuid_base36_pad n (fresh CUID_BASE36_RESULT_SIZE) 0 w pad with
  | Done (len, b) => take len b
  | Stop _ => []
  end.

(** The typing of a pure-mode context. *)
Record cuid_wf (id : cuid_t) : Prop := mk_cuid_wf {
  wf_fingerprint : length (cuid_fingerprint id) = CUID_BASE36_RESULT_SIZE;
  wf_counter_str : length (cuid_counter_str id) = CUID_BASE36_RESULT_SIZE;
  wf_rnd1 : mwc_wf (cuid_rnd1 id);
  wf_rnd2 : mwc_wf (cuid_rnd2 id);
  wf_rnd1_str : length (cuid_rnd1_str id) = CUID_BASE36_RESULT_SIZE;
  wf_rnd2_str : length (cuid_rnd2_str id) = CUID_BASE36_RESULT_SIZE;
  wf_value : length (cuid_value id) = CUID_SIZE;
  wf_timestamp : length (cuid_timestamp id) = CUID_BASE36_RESULT_SIZE
}.

(** The 23 characters of an identifier. *)
Definition rendering (timestamp_block : buffer) (counter : Z)
    (fingerprint : buffer) (rand1 rand2 : Z) : buffer :=
  "c"%char :: timestamp_block ++ pad_text counter 4 "0"
  ++ take 4 fingerprint ++ pad_text rand1 4 "0" ++ pad_text rand2 4 "0".

(** [cuid_next] once for each timestamp of a list, in order. *)
Fixpoint cuid_nexts (id : cuid_t) (timestamps : list Z) : outcome cuid_t :=
  match timestamps with
  | [] => Done id
  | t :: timestamps => id ← cuid_next id t; cuid_nexts id timestamps
  end.

(** A context whose value is the rendering of its own state and of the
    timestamp [timestamp], followed by the terminator. *)
Definition rendered (id : cuid_t) (timestamp : Z) : Prop :=
  ∃ r1 r2,
    mwc_read_random (cuid_rnd1 id) = Done r1
    ∧ mwc_read_random (cuid_rnd2 id) = Done r2
    ∧ cuid_value id
      = rendering (pad_text timestamp 6 "0")
          (cuid_read_counter (cuid_counter id)) (cuid_fingerprint id) r1 r2
        ++ [NUL].

(** A computation that does not end in the fatal branch of
    [cuid_base36_pad]. *)
Definition no_pad_fault {A} (o : outcome A) : Prop := o ≠ Stop PadTooWide.

(** The 64-bit sum of the first 64 words of the host name. *)
Definition hostname_sum (values : list Z) : Z :=
  fold_left (λ acc v, (acc + v) `mod` 2 ^ 64)%Z
    (take (CUID_HOSTNAME_LENGTH / 4) values) 0%Z.

(** The fingerprint text of the default provider. *)
Definition fingerprint_text (values : list Z) (pid : Z) : buffer :=
  pad_text (hostname_sum values) 2 "0" ++ pad_text (pid `mod` 2 ^ 64) 2 "0".

(** The part [cuid_init] and [cuid_next] share: the timestamp is stamped
    and the value is rendered. *)
Definition pure_rendering (id : cuid_t) (timestamp : Z) : outcome cuid_t :=
  '(_, ts) ←
    cuid_base36_pad timestamp (cuid_timestamp id) 0 CUID_TIMESTAMP_LENGTH "0";
  cuid_gen_value_string
    (mk_cuid (cuid_fingerprint id) (cuid_counter id) (cuid_counter_str id)
       (cuid_rnd1 id) (cuid_rnd2 id) (cuid_rnd1_str id) (cuid_rnd2_str id)
       (cuid_value id) ts).

(** The [uint32_t] view of the host name ["localhost"] on a little-endian
    machine: ["loca"], ["lhos"], ["t"] and zeros. *)
Definition localhost_values : list Z :=
  [0x61636f6c; 0x736f686c; 0x00000074]%Z ++ replicate 61 0%Z.

(** A source whose first value is 0 and whose later values are [36 ^ 4]. *)
Definition zero_then_10000 (k : nat) : Z :=
  match k with O => 0%Z | S _ => 1679616%Z end.

(** A pure-mode context with the counter, the fingerprint and the values to
    read that the quick-mode call below works with. *)
Definition pure_example : cuid_t :=
  mk_cuid (chars "4c9u" ++ fresh 12) (mk_counter 1)
    (fresh CUID_BASE36_RESULT_SIZE) (flat_state 0 0) (flat_state 1679616 0)
    (fresh CUID_BASE36_RESULT_SIZE) (fresh CUID_BASE36_RESULT_SIZE)
    (fresh CUID_SIZE) (fresh CUID_BASE36_RESULT_SIZE).

(** The [w] low-order base-36 digits of [n], least significant first. *)
Fixpoint low_digits (w : nat) (n : Z) : buffer :=
  match w with
  | 0 => []
  | S w => radix36 n :: low_digits w (n `div` 36)
  end.

(** [strcmp(a, b) < 0] for two texts of the same length: the order of the
    character codes at the first place where they differ. *)
Fixpoint lex_lt (a b : buffer) : Prop :=
  match a, b with
  | x :: a, y :: b => nat_of_ascii x < nat_of_ascii y ∨ (x = y ∧ lex_lt a b)
  | _, _ => False
  end.



(** * Properties *)

(** ** The unit tests of the repository, run on the embedding *)

(** [test_can_convert_to_base36]. *)
Example test_can_convert_to_base36 :
  cuid_base36 128 (fresh 16) 0 = Done (2, chars "3k" ++ fresh 14)
  ∧ cuid_base36 12345 (fresh 16) 0 = Done (3, chars "9ix" ++ fresh 13)
  ∧ cuid_base36 0 (fresh 16) 0 = Done (1, chars "0" ++ fresh 15).
Proof. repeat split; reflexivity. Qed.

(** [test_padded_base36]; the last call leaves the digit it has not
    overwritten behind the terminator. *)
Example test_padded_base36 :
  cuid_base36_pad 128 (fresh 16) 0 4 "z"
  = Done (4, chars "zz3k" ++ fresh 12)
  ∧ cuid_base36_pad 12345 (fresh 16) 0 6 "0"
    = Done (6, chars "0009ix" ++ fresh 10)
  ∧ cuid_base36_pad 0 (fresh 16) 0 4 "0"
    = Done (4, chars "0000" ++ fresh 12)
  ∧ cuid_base36_pad 1234567890 (fresh 16) 0 4 "0"
    = Done (4, chars "12oi" ++ [NUL] ++ chars "i" ++ fresh 10).
Proof. repeat split; reflexivity. Qed.

(** [test_has_counter]. *)
Example test_has_counter :
  let counter1 := cuid_init_counter cuid_create_counter in
  cuid_read_counter counter1 = 0%Z
  ∧ cuid_read_counter (cuid_inc_counter counter1) = 1%Z
  ∧ cuid_read_counter (cuid_init_counter (cuid_inc_counter counter1)) = 0%Z.
Proof. repeat split; reflexivity. Qed.

(** ** Outcomes, loads and stores *)

(** Runs the binds whose first computation has returned. *)
Ltac run := cbn [mbind outcome_bind mret outcome_ret].

Lemma load_Some {A} (a : list A) i x : a !! i = Some x → load a i = Done x.
Proof. unfold load. by intros ->. Qed.

Lemma load_None {A} (a : list A) i : length a ≤ i → load a i = Stop OutOfBounds.
Proof. unfold load. intros H. by rewrite (lookup_ge_None_2 a i H). Qed.

Lemma store_lt {A} (a : list A) i x :
  i < length a → store a i x = Done (<[i:=x]> a).
Proof. unfold store. intros H. by rewrite decide_True. Qed.

Lemma store_ge {A} (a : list A) i x :
  length a ≤ i → store a i x = Stop OutOfBounds.
Proof. unfold store. intros H. rewrite decide_False; [done | lia]. Qed.

Lemma store_Done {A} (a a' : list A) i x :
  store a i x = Done a' → i < length a ∧ a' = <[i:=x]> a.
Proof. unfold store. case_decide; [|done]. intros [= <-]. done. Qed.

Lemma bind_Done {A B} (m : outcome A) (f : A → outcome B) b :
  m ≫= f = Done b → ∃ a, m = Done a ∧ f a = Done b.
Proof. destruct m as [a|e]; [|done]. intros H. by exists a. Qed.

(** [x] written at index [n] of an array that is at least that long. *)
Lemma take_S_insert {A} (a : list A) n x :
  n < length a → take (S n) (<[n:=x]> a) = take n a ++ [x].
Proof.
  intros H. rewrite (take_S_r _ _ x).
  - by rewrite take_insert_ge.
  - by apply list_lookup_insert_eq.
Qed.

(** A loop that writes [v i] at [ofs + i], whatever it reads from the part of
    the array not yet written. *)
Lemma for_loop_ascending {A} (ofs : nat) (v : nat → A) body count start
    (d : list A) :
  (∀ i d', start ≤ i < start + count → length d' = length d →
     drop (ofs + i) d' = drop (ofs + i) d →
     body i d' = store d' (ofs + i) (v i)) →
  ofs + start + count ≤ length d →
  for_loop count start body d
  = Done (take (ofs + start) d ++ (v <$> seq start count)
          ++ drop (ofs + start + count) d).
Proof.
  revert start d. induction count as [|count IH]; intros start d Hbody Hlen.
  - simpl. rewrite Nat.add_0_r. by rewrite take_drop.
  - simpl. rewrite Hbody; [|lia|done|done]. rewrite store_lt; [|lia]. simpl.
    rewrite IH.
    + f_equal. replace (ofs + S start) with (S (ofs + start)) by lia.
      rewrite take_S_insert; [|lia]. rewrite <-app_assoc. simpl.
      rewrite drop_insert_lt by lia.
      by replace (ofs + start + S count) with (S (ofs + start + count)) by lia.
    + intros i d' Hi Hl Hd. rewrite length_insert in Hl.
      apply Hbody; [lia|done|]. rewrite Hd. apply drop_insert_lt. lia.
    + rewrite length_insert. lia.
Qed.

(** The same loop on an array too short for its last write. *)
Lemma for_loop_ascending_short {A} (ofs : nat) (v : nat → A) body count start
    (d : list A) :
  (∀ i d', start ≤ i < start + count → length d' = length d →
     drop (ofs + i) d' = drop (ofs + i) d →
     body i d' = store d' (ofs + i) (v i)) →
  0 < count → length d < ofs + start + count →
  for_loop count start body d = Stop OutOfBounds.
Proof.
  revert start d. induction count as [|count IH]; intros start d Hbody Hc Hlen.
  - lia.
  - simpl. rewrite Hbody; [|lia|done|done].
    destruct (decide (ofs + start < length d)) as [Hin|Hout].
    + rewrite store_lt; [|done]. simpl. apply IH.
      * intros i d' Hi Hl Hd. rewrite length_insert in Hl.
        apply Hbody; [lia|done|]. rewrite Hd. apply drop_insert_lt. lia.
      * lia.
      * rewrite length_insert. lia.
    + rewrite store_ge; [done|lia].
Qed.

Lemma drop_insert_here {A} (a : list A) n x :
  n < length a → drop n (<[n:=x]> a) = x :: drop (S n) a.
Proof.
  intros H. rewrite insert_take_drop by done.
  rewrite drop_app_length'; [done|]. rewrite length_take. lia.
Qed.

(** A loop that writes [v i] at [ofs + (w - i)], whatever it reads from the
    part of the array below its write. *)
Lemma for_loop_descending {A} (ofs w : nat) (v : nat → A) body count start
    (d : list A) :
  (∀ i d', start ≤ i < start + count → length d' = length d →
     take (ofs + (w - i)) d' = take (ofs + (w - i)) d →
     body i d' = store d' (ofs + (w - i)) (v i)) →
  start + count ≤ S w → ofs + w < length d →
  for_loop count start body d
  = Done (take (ofs + (S w - start - count)) d
          ++ (v <$> reverse (seq start count))
          ++ drop (ofs + (S w - start)) d).
Proof.
  revert start d. induction count as [|count IH]; intros start d Hbody Hr Hlen.
  - simpl. replace (S w - start - 0) with (S w - start) by lia.
    by rewrite take_drop.
  - simpl. rewrite Hbody; [|lia|done|done]. rewrite store_lt; [|lia]. simpl.
    rewrite IH.
    + f_equal. rewrite take_insert_ge by lia.
      replace (S w - S start - count) with (S w - start - S count) by lia.
      f_equal. rewrite reverse_cons, fmap_app, <-app_assoc. f_equal. simpl.
      replace (ofs + (S w - S start)) with (ofs + (w - start)) by lia.
      rewrite drop_insert_here by lia. do 2 f_equal. lia.
    + intros i d' Hi Hl Hd. rewrite length_insert in Hl.
      apply Hbody; [lia|done|]. rewrite Hd. apply take_insert_ge. lia.
    + lia.
    + rewrite length_insert. lia.
Qed.

(** ** The digits of [cuid_base36] *)

Lemma base_36 : base = 36%Z.
Proof. reflexivity. Qed.

Lemma load_radix36 n :
  load cuid_radix36_table (Z.to_nat (n `mod` base)) = Done (radix36 n).
Proof.
  unfold radix36, load.
  destruct (cuid_radix36_table !! Z.to_nat (n `mod` base)) eqn:E; [done|].
  apply lookup_ge_None in E. rewrite base_36 in E.
  pose proof (Z.mod_pos_bound n 36 eq_refl) as Hm.
  change (length cuid_radix36_table) with 36 in E. lia.
Qed.

Lemma digits_lsd_length room n : 1 ≤ length (digits_lsd room n) ≤ S room.
Proof.
  revert n. induction room as [|room IH]; intros n; simpl; [lia|].
  case_decide; simpl; [|lia]. specialize (IH (n `div` base)%Z). lia.
Qed.

Lemma digits36_length n : 1 ≤ length (digits36 n) ≤ 15.
Proof.
  unfold digits36. rewrite length_reverse.
  pose proof (digits_lsd_length (CUID_BASE36_RESULT_SIZE - 2) n) as H.
  change (CUID_BASE36_RESULT_SIZE - 2) with 14 in *. lia.
Qed.

Lemma insert_app_head {A} (pre : list A) y t x :
  <[length pre:=x]> (pre ++ y :: t) = pre ++ x :: t.
Proof. rewrite <-(Nat.add_0_r (length pre)) at 1. by rewrite insert_app_r. Qed.

Lemma base36_digits_spec fuel room n (pre : buffer) :
  length pre + room = 14 → room < fuel →
  base36_digits fuel n (pre ++ fresh (S (S room))) (length pre)
  = Done (pre ++ digits_lsd room n
              ++ fresh (S (S room) - length (digits_lsd room n)),
          length pre + length (digits_lsd room n)).
Proof.
  revert room n pre. induction fuel as [|fuel IH]; intros room n pre Hp Hf.
  - lia.
  - simpl. rewrite load_radix36. simpl.
    rewrite store_lt by (rewrite length_app; simpl; lia). simpl.
    change (fresh (S (S room))) with (NUL :: fresh (S room)).
    rewrite insert_app_head.
    destruct room as [|room]; simpl.
    + rewrite decide_False by (unfold CUID_BASE36_RESULT_SIZE; lia).
      do 2 f_equal. lia.
    + destruct (decide (0 < n `div` base)%Z) as [Hn|Hn].
      * rewrite decide_True by (unfold CUID_BASE36_RESULT_SIZE; lia).
        specialize (IH room (n `div` base)%Z (pre ++ [radix36 n])).
        rewrite length_app in IH. simpl in IH.
        replace (S (length pre)) with (length pre + 1) by lia.
        rewrite <-!(assoc_L (++)) in IH. simpl in IH. rewrite IH by lia.
        do 2 f_equal. lia.
      * rewrite decide_False by tauto. simpl. do 2 f_equal. lia.
Qed.

(** Every character written is one of the 36 digits. *)
Lemma radix36_digit n : radix36 n ∈ cuid_radix36_table.
Proof.
  pose proof (load_radix36 n) as H. unfold load in H.
  destruct (cuid_radix36_table !! Z.to_nat (n `mod` base)) as [c|] eqn:E;
    [|done].
  injection H as <-. by eapply list_elem_of_lookup_2.
Qed.

Lemma digits_lsd_digits room n :
  Forall (λ c, c ∈ cuid_radix36_table) (digits_lsd room n).
Proof.
  revert n. induction room as [|room IH]; intros n; simpl.
  - constructor; [apply radix36_digit|constructor].
  - constructor; [apply radix36_digit|]. case_decide; [apply IH|constructor].
Qed.

(** A number below [36 ^ (k + 1)] has at most [k + 1] digits. *)
Lemma digits_lsd_length_le room n k :
  (0 ≤ n < 36 ^ Z.of_nat (S k))%Z → length (digits_lsd room n) ≤ S k.
Proof.
  revert n k. induction room as [|room IH]; intros n k Hn; simpl; [lia|].
  case_decide as Hd; simpl; [|lia]. rewrite base_36 in *.
  destruct k as [|k].
  - change (36 ^ Z.of_nat 1)%Z with 36%Z in Hn.
    rewrite Z.div_small in Hd by lia. lia.
  - apply le_n_S, IH. split; [lia|].
    apply Z.div_lt_upper_bound; [lia|].
    rewrite (Nat2Z.inj_succ (S k)), Z.pow_succ_r in Hn by lia. lia.
Qed.

(** A number of at least [36 ^ k] has more than [k] digits, as long as the
    loop may run that long. *)
Lemma digits_lsd_length_gt room n k :
  k ≤ room → (36 ^ Z.of_nat k ≤ n)%Z → k < length (digits_lsd room n).
Proof.
  revert n k. induction room as [|room IH]; intros n k Hk Hn; simpl; [lia|].
  destruct k as [|k]; [lia|]. rewrite base_36.
  rewrite Nat2Z.inj_succ, Z.pow_succ_r in Hn by lia.
  assert (36 ^ Z.of_nat k ≤ n `div` 36)%Z as Hq
    by (apply Z.div_le_lower_bound; lia).
  rewrite decide_True by (pose proof (Z.pow_pos_nonneg 36 (Z.of_nat k)); lia).
  simpl. apply ->Nat.succ_lt_mono. apply IH; [lia|done].
Qed.

Lemma digit_value_radix36 n : digit_value (radix36 n) = (n `mod` 36)%Z.
Proof.
  unfold radix36. rewrite base_36.
  pose proof (Z.mod_pos_bound n 36 eq_refl) as Hm.
  rewrite <-(Z2Nat.id (n `mod` 36)) at 2 by lia.
  assert (Z.to_nat (n `mod` 36) < 36) as Hk by lia.
  revert Hk. generalize (Z.to_nat (n `mod` 36)). intros k Hk.
  do 36 (destruct k as [|k]; [reflexivity|]). lia.
Qed.

Lemma base36_value_reverse l : base36_value (reverse l) = value_lsd l.
Proof.
  induction l as [|c l IH]; [done|].
  rewrite reverse_cons. unfold base36_value in *.
  rewrite fold_left_app, IH. simpl. lia.
Qed.

Lemma digits_lsd_value room n :
  (0 ≤ n < 36 ^ Z.of_nat (S room))%Z → value_lsd (digits_lsd room n) = n.
Proof.
  revert n. induction room as [|room IH]; intros n Hn.
  - simpl. rewrite digit_value_radix36. change (36 ^ Z.of_nat 1)%Z with 36%Z in Hn.
    rewrite Z.mod_small by lia. lia.
  - cbn [digits_lsd value_lsd]. rewrite digit_value_radix36, base_36.
    pose proof (Z.div_mod n 36) as Hdm.
    rewrite (Nat2Z.inj_succ (S room)), Z.pow_succ_r in Hn by lia.
    case_decide as Hd.
    + rewrite IH; [lia|]. split; [lia|]. apply Z.div_lt_upper_bound; lia.
    + assert (0 ≤ n `div` 36)%Z by (apply Z.div_pos; lia).
      simpl. lia.
Qed.

Lemma digits_lsd_0 n : digits_lsd 0 n = [radix36 n].
Proof. reflexivity. Qed.

Lemma digits_lsd_S room n :
  digits_lsd (S room) n
  = radix36 n ::
    (if decide (0 < n `div` base)%Z then digits_lsd room (n `div` base)
     else []).
Proof. reflexivity. Qed.

#[global] Opaque digits_lsd.

Lemma fmap_reverse_index {A} (x : A) (ds t : list A) :
  (λ i, default x ((ds ++ t) !! (length ds - 1 - i))) <$> seq 0 (length ds)
  = reverse ds.
Proof.
  apply list_eq. intros j. rewrite list_lookup_fmap.
  destruct (decide (j < length ds)) as [Hj|Hj].
  - rewrite lookup_seq_lt by done. simpl.
    rewrite lookup_app_l by lia. rewrite reverse_lookup by done.
    replace (length ds - S j) with (length ds - 1 - j) by lia.
    destruct (lookup_lt_is_Some_2 ds (length ds - 1 - j)) as [y ->]; [lia|done].
  - rewrite lookup_seq_ge by lia. simpl. symmetry.
    apply lookup_ge_None_2. rewrite length_reverse. lia.
Qed.

Lemma base36_digits_run n :
  base36_digits CUID_BASE36_RESULT_SIZE n
    (replicate CUID_BASE36_RESULT_SIZE NUL) 0
  = Done (digits_lsd 14 n ++ fresh (16 - length (digits_lsd 14 n)),
          length (digits_lsd 14 n)).
Proof. apply (base36_digits_spec 16 14 n []); simpl; lia. Qed.

Lemma insert_app_drop {A} (l b : list A) k x :
  length l = k → k < length b →
  <[k:=x]> (l ++ drop k b) = l ++ x :: drop (S k) b.
Proof.
  intros Hl Hk. destruct (drop k b) as [|c t] eqn:E.
  - apply drop_nil_inv in E. lia.
  - rewrite <-Hl, insert_app_head. do 2 f_equal.
    rewrite <-(Nat.add_1_r (length l)), <-(drop_drop b 1 (length l)), Hl, E.
    done.
Qed.

Section Base36.
Variable n : Z.

Let ds : buffer := digits_lsd 14 n.
Let inverted : buffer := ds ++ fresh (16 - length ds).
Let v (i : nat) : ascii := default NUL (inverted !! (length ds - 1 - i)).

Lemma invert_body (d' : buffer) ofs i :
  i < length ds →
  (c ← load inverted (length ds - 1 - i); store d' (ofs + i) c)
  = store d' (ofs + i) (v i).
Proof.
  intros Hi. unfold v.
  destruct (lookup_lt_is_Some_2 inverted (length ds - 1 - i)) as [y Hy].
  { unfold inverted. rewrite length_app. lia. }
  rewrite (load_Some _ _ _ Hy). simpl. by rewrite Hy.
Qed.

Lemma cuid_base36_lsd (b : buffer) ofs :
  ofs + length ds < length b →
  cuid_base36 n b ofs
  = Done (length ds,
          take ofs b ++ reverse ds ++ NUL :: drop (ofs + length ds + 1) b).
Proof.
  intros Hlen. unfold cuid_base36. rewrite base36_digits_run.
  fold ds inverted. simpl.
  rewrite (for_loop_ascending ofs v); [|by intros; apply invert_body; lia|lia].
  simpl. unfold v, inverted. rewrite fmap_reverse_index.
  rewrite !Nat.add_0_r, (assoc_L (++)).
  rewrite store_lt.
  2:{ rewrite !length_app, length_take, length_reverse, length_drop. lia. }
  simpl. rewrite insert_app_drop; [|by rewrite length_app, length_take,
    length_reverse; lia|lia].
  rewrite <-(assoc_L (++)). by rewrite Nat.add_1_r.
Qed.

Lemma cuid_base36_lsd_short (b : buffer) ofs :
  length b ≤ ofs + length ds → cuid_base36 n b ofs = Stop OutOfBounds.
Proof.
  intros Hlen. unfold cuid_base36. rewrite base36_digits_run.
  fold ds inverted. simpl.
  pose proof (digits_lsd_length 14 n) as Hd. fold ds in Hd.
  destruct (decide (length b < ofs + length ds)) as [Hlt|Hge].
  - rewrite (for_loop_ascending_short ofs v);
      [done|by intros; apply invert_body; lia|lia|lia].
  - rewrite (for_loop_ascending ofs v);
      [|by intros; apply invert_body; lia|lia].
    simpl. rewrite store_ge; [done|].
    rewrite !length_app, length_take, length_fmap, length_seq, length_drop.
    lia.
Qed.

End Base36.

Lemma digits36_lsd_length n : length (digits_lsd 14 n) = length (digits36 n).
Proof. unfold digits36. by rewrite length_reverse. Qed.

(** [cuid_base36] writes the digits and the terminator from [ofs] on and
    touches nothing else. *)
Lemma cuid_base36_eq n (b : buffer) ofs :
  ofs + length (digits36 n) < length b →
  cuid_base36 n b ofs
  = Done (length (digits36 n),
          take ofs b ++ digits36 n
          ++ NUL :: drop (ofs + length (digits36 n) + 1) b).
Proof.
  rewrite <-digits36_lsd_length. apply cuid_base36_lsd.
Qed.

(** On an array that ends before the terminator's place, [cuid_base36]
    writes outside it. *)
Lemma cuid_base36_short n (b : buffer) ofs :
  length b ≤ ofs + length (digits36 n) →
  cuid_base36 n b ofs = Stop OutOfBounds.
Proof.
  rewrite <-digits36_lsd_length. apply cuid_base36_lsd_short.
Qed.

(** ** The two shifting loops of [cuid_base36_pad] *)

Section PadLoops.
Variables (pre ds post : buffer) (pad : ascii) (w : nat).

Let ofs : nat := length pre.
Let len : nat := length ds.
(** The array [cuid_base36] leaves: the digits and their terminator at
    [ofs]. *)
Let b1 : buffer := pre ++ ds ++ NUL :: post.

Let pad_body (i : nat) (res : buffer) : outcome buffer :=
  c ← (if decide (len < i) then Done pad else load res (ofs + (len - i)));
  store res (ofs + (w - i)) c.

Let clip_body (i : nat) (res : buffer) : outcome buffer :=
  c ← load res (ofs + (i + (len - w)));
  store res (ofs + i) c.

Let pad_value (i : nat) : ascii :=
  if decide (len < i) then pad else default NUL (b1 !! (ofs + (len - i))).

Let clip_value (i : nat) : ascii := default NUL (b1 !! (ofs + (i + (len - w)))).

Lemma b1_length : length b1 = ofs + len + 1 + length post.
Proof. unfold b1, ofs, len. rewrite !length_app. simpl. lia. Qed.

Lemma b1_lookup k : b1 !! (ofs + k) = (ds ++ NUL :: post) !! k.
Proof. unfold b1, ofs. rewrite lookup_app_r by lia. f_equal. lia. Qed.

Lemma b1_drop k : drop (ofs + k) b1 = drop k (ds ++ NUL :: post).
Proof. unfold b1, ofs. apply drop_app_add. Qed.

Lemma pad_body_store i (d' : buffer) :
  len < w → i < S w → length d' = length b1 →
  take (ofs + (w - i)) d' = take (ofs + (w - i)) b1 →
  pad_body i d' = store d' (ofs + (w - i)) (pad_value i).
Proof.
  intros Hw Hi Hl Ht. unfold pad_body, pad_value.
  case_decide; [done|].
  assert (d' !! (ofs + (len - i)) = b1 !! (ofs + (len - i))) as Hd.
  { rewrite <-(lookup_take_lt d' (ofs + (w - i))) by lia.
    rewrite Ht. apply lookup_take_lt. lia. }
  destruct (lookup_lt_is_Some_2 b1 (ofs + (len - i))) as [y Hy].
  { rewrite b1_length. lia. }
  rewrite (load_Some d' _ y) by congruence. simpl. by rewrite Hy.
Qed.

Lemma pad_values :
  len < w →
  pad_value <$> reverse (seq 0 (S w)) = replicate (w - len) pad ++ ds ++ [NUL].
Proof.
  intros Hw. apply list_eq. intros j. rewrite list_lookup_fmap.
  destruct (decide (j < S w)) as [Hj|Hj].
  - rewrite reverse_lookup by (rewrite length_seq; lia).
    rewrite length_seq, lookup_seq_lt by lia. simpl. unfold pad_value.
    case_decide as Hc.
    + rewrite lookup_app_l by (rewrite length_replicate; lia).
      by rewrite lookup_replicate_2 by lia.
    + rewrite lookup_app_r by (rewrite length_replicate; lia).
      rewrite length_replicate, b1_lookup.
      replace (len - (w - j)) with (j - (w - len)) by lia.
      destruct (decide (j - (w - len) < len)) as [Hd|Hd].
      * rewrite !lookup_app_l by (fold len; lia).
        destruct (lookup_lt_is_Some_2 ds (j - (w - len))) as [y ->]; done.
      * rewrite !lookup_app_r by (fold len; lia). fold len.
        replace (j - (w - len) - len) with 0 by lia. done.
  - rewrite (lookup_ge_None_2 (reverse _)) by (rewrite length_reverse, length_seq; lia).
    simpl. symmetry. apply lookup_ge_None_2.
    rewrite !length_app, length_replicate. fold len. simpl. lia.
Qed.

Lemma pad_left_loop :
  len < w → w - len ≤ length post →
  for_loop (S w) 0 pad_body b1
  = Done (pre ++ (replicate (w - len) pad ++ ds) ++ NUL :: drop (w - len) post).
Proof.
  intros Hw Hp.
  rewrite (for_loop_descending ofs w pad_value);
    [|by intros; apply pad_body_store; [lia|lia|done|done]|lia
     |rewrite b1_length; lia].
  rewrite pad_values by done. f_equal.
  replace (ofs + (S w - 0 - S w)) with (length pre) by (unfold ofs; lia).
  unfold b1 at 1. rewrite take_app_length. f_equal.
  rewrite <-!(assoc_L (++)). do 2 f_equal. simpl. f_equal.
  rewrite b1_drop.
  replace (S w) with (length ds + S (w - len)) by (unfold len; lia).
  by rewrite drop_app_add.
Qed.

Lemma pad_left_loop_short :
  len < w → length post < w - len →
  for_loop (S w) 0 pad_body b1 = Stop OutOfBounds.
Proof.
  intros Hw Hp. simpl. unfold pad_body.
  destruct (decide (len < 0)) as [|_]; [lia|].
  destruct (lookup_lt_is_Some_2 b1 (ofs + (len - 0))) as [y Hy].
  { rewrite b1_length. lia. }
  rewrite (load_Some _ _ _ Hy). simpl.
  rewrite store_ge; [done|]. rewrite b1_length. lia.
Qed.

Lemma clip_body_store i (d' : buffer) :
  w < len → i < S w → length d' = length b1 →
  drop (ofs + i) d' = drop (ofs + i) b1 →
  clip_body i d' = store d' (ofs + i) (clip_value i).
Proof.
  intros Hw Hi Hl Ht. unfold clip_body, clip_value.
  assert (d' !! (ofs + (i + (len - w))) = b1 !! (ofs + (i + (len - w)))) as Hd.
  { replace (ofs + (i + (len - w))) with (ofs + i + (len - w)) by lia.
    by rewrite <-!lookup_drop, Ht. }
  destruct (lookup_lt_is_Some_2 b1 (ofs + (i + (len - w)))) as [y Hy].
  { rewrite b1_length. lia. }
  rewrite (load_Some d' _ y) by congruence. simpl. by rewrite Hy.
Qed.

Lemma clip_values :
  w < len → clip_value <$> seq 0 (S w) = drop (len - w) ds ++ [NUL].
Proof.
  intros Hw. apply list_eq. intros j. rewrite list_lookup_fmap.
  destruct (decide (j < S w)) as [Hj|Hj].
  - rewrite lookup_seq_lt by lia. simpl. unfold clip_value.
    rewrite b1_lookup.
    destruct (decide (j < w)) as [Hd|Hd].
    + rewrite !lookup_app_l by (rewrite ?length_drop; fold len; lia).
      rewrite lookup_drop.
      replace (len - w + j) with (j + (len - w)) by lia.
      destruct (lookup_lt_is_Some_2 ds (j + (len - w))) as [y ->]; [|done].
      fold len. lia.
    + rewrite !lookup_app_r by (rewrite ?length_drop; fold len; lia).
      rewrite length_drop. fold len.
      replace (j + (len - w) - len) with 0 by lia.
      replace (j - (len - (len - w))) with 0 by lia. done.
  - rewrite lookup_seq_ge by lia. simpl. symmetry. apply lookup_ge_None_2.
    rewrite length_app, length_drop. fold len. simpl. lia.
Qed.

Lemma clip_loop :
  w < len →
  for_loop (S w) 0 clip_body b1
  = Done (pre ++ drop (len - w) ds
              ++ NUL :: drop (S w) (ds ++ [NUL]) ++ post).
Proof.
  intros Hw.
  rewrite (for_loop_ascending ofs clip_value);
    [|by intros; apply clip_body_store; [lia|lia|done|done]
     |rewrite b1_length; lia].
  rewrite clip_values by done. f_equal.
  rewrite Nat.add_0_r. unfold b1 at 1, ofs. rewrite take_app_length. f_equal.
  rewrite <-(assoc_L (++)). f_equal. simpl. f_equal.
  fold ofs. rewrite b1_drop.
  rewrite (drop_app_le ds [NUL]) by (fold len; lia).
  change (ds ++ NUL :: post) with (ds ++ [NUL] ++ post).
  rewrite drop_app_le by (fold len; lia). by rewrite <-(assoc_L (++)).
Qed.

End PadLoops.

(** ** [cuid_base36_pad] *)

Lemma padded_length n w pad : length (padded n w pad) = w.
Proof.
  unfold padded. simpl. pose proof (digits36_length n).
  case_decide; rewrite ?length_app, ?length_replicate, ?length_drop; lia.
Qed.

Lemma cuid_base36_pad_eq n (b : buffer) ofs w pad :
  w < CUID_BASE36_RESULT_SIZE →
  ofs + w `max` length (digits36 n) < length b →
  cuid_base36_pad n b ofs w pad
  = Done (w, take ofs b ++ padded n w pad
             ++ NUL :: leftover n w
             ++ drop (ofs + S (w `max` length (digits36 n))) b).
Proof.
  intros Hw Hlen. unfold cuid_base36_pad, padded, leftover.
  rewrite decide_False by lia. rewrite cuid_base36_eq by lia. run.
  set (ds := digits36 n) in *.
  assert (Hpre : length (take ofs b) = ofs) by (rewrite length_take; lia).
  assert (Hpost : length (drop (ofs + length ds + 1) b)
                  = length b - (ofs + length ds + 1)) by apply length_drop.
  assert (Hdrop : drop (ofs + S (w `max` length ds)) b
                  = drop (w `max` length ds - length ds)
                      (drop (ofs + length ds + 1) b)).
  { rewrite drop_drop. f_equal. lia. }
  rewrite Hdrop. clear Hdrop.
  generalize dependent (take ofs b). intros pre Hpre.
  generalize dependent (drop (ofs + length ds + 1) b). intros post Hpost.
  subst ofs.
  destruct (decide (length ds < w)) as [Hlt|Hge].
  - rewrite pad_left_loop by lia. run.
    rewrite (drop_ge (ds ++ [NUL])) by (rewrite length_app; simpl; lia). simpl.
    replace (w `max` length ds - length ds) with (w - length ds) by lia. done.
  - destruct (decide (w < length ds)) as [Hgt|Heq].
    + rewrite clip_loop by lia. run.
      replace (w `max` length ds - length ds) with 0 by lia. done.
    + rewrite (drop_ge (ds ++ [NUL])) by (rewrite length_app; simpl; lia). simpl.
      replace (length ds - w) with 0 by lia.
      replace (w `max` length ds - length ds) with 0 by lia. done.
Qed.

Lemma cuid_base36_pad_short n (b : buffer) ofs w pad :
  w < CUID_BASE36_RESULT_SIZE →
  length b ≤ ofs + w `max` length (digits36 n) →
  cuid_base36_pad n b ofs w pad = Stop OutOfBounds.
Proof.
  intros Hw Hlen. unfold cuid_base36_pad.
  rewrite decide_False by lia.
  destruct (decide (length b ≤ ofs + length (digits36 n))) as [Hs|Hs].
  { by rewrite cuid_base36_short. }
  rewrite cuid_base36_eq by lia. run.
  set (ds := digits36 n) in *.
  assert (Hpre : length (take ofs b) = ofs) by (rewrite length_take; lia).
  assert (Hpost : length (drop (ofs + length ds + 1) b)
                  = length b - (ofs + length ds + 1)) by apply length_drop.
  generalize dependent (take ofs b). intros pre Hpre.
  generalize dependent (drop (ofs + length ds + 1) b). intros post Hpost.
  subst ofs.
  rewrite decide_True by lia. by rewrite pad_left_loop_short by lia.
Qed.

(** The fatal branch is taken exactly for a width above 15. *)
Lemma cuid_base36_pad_fatal n (b : buffer) ofs w pad :
  cuid_base36_pad n b ofs w pad = Stop PadTooWide
  ↔ CUID_BASE36_RESULT_SIZE ≤ w.
Proof.
  split.
  - intros H. destruct (decide (CUID_BASE36_RESULT_SIZE ≤ w)) as [|Hw]; [done|].
    destruct (decide (ofs + w `max` length (digits36 n) < length b)).
    + rewrite cuid_base36_pad_eq in H by lia. done.
    + rewrite cuid_base36_pad_short in H by lia. done.
  - intros H. unfold cuid_base36_pad. by rewrite decide_True.
Qed.

(** The padded text in place: what precedes [ofs] is kept, the [w]
    characters follow, then the terminator. *)
Lemma cuid_base36_pad_take n (b : buffer) ofs w pad :
  w < CUID_BASE36_RESULT_SIZE →
  ofs + w `max` length (digits36 n) < length b →
  ∃ b', cuid_base36_pad n b ofs w pad = Done (w, b')
        ∧ length b' = length b
        ∧ take (ofs + w) b' = take ofs b ++ padded n w pad
        ∧ b' !! (ofs + w) = Some NUL.
Proof.
  intros Hw Hlen. rewrite cuid_base36_pad_eq by done.
  eexists. split; [done|].
  pose proof (digits36_length n) as Hd.
  assert (length (take ofs b) = ofs) as Hpre by (rewrite length_take; lia).
  assert (length (leftover n w) = w `max` length (digits36 n) - w) as Hleft.
  { unfold leftover. rewrite length_drop, length_app. simpl. lia. }
  repeat split.
  - rewrite !length_app. simpl.
    rewrite length_app, Hpre, padded_length, Hleft, length_drop. lia.
  - rewrite (assoc_L (++)). apply take_app_length'.
    rewrite length_app, Hpre, padded_length. done.
  - rewrite (assoc_L (++)), lookup_app_r
      by (rewrite length_app, Hpre, padded_length; lia).
    rewrite length_app, Hpre, padded_length.
    by replace (ofs + w - (ofs + w)) with 0 by lia.
Qed.

(** ** Multiply-with-carry generator *)

Lemma MWC_CYCLE_eq : Z.of_nat MWC_CYCLE = 4096%Z.
Proof. reflexivity. Qed.

#[global] Opaque MWC_CYCLE.

Lemma copy_table_loop (r : mwc_random_t) count start :
  start + count ≤ length (mwc_q r) →
  start + count ≤ length (mwc_initial_q r) →
  for_loop count start (λ i r,
    x ← load (mwc_initial_q r) i;
    q ← store (mwc_q r) i x;
    Done (set_mwc_q r q)) r
  = Done (set_mwc_q r (take start (mwc_q r)
                       ++ take count (drop start (mwc_initial_q r))
                       ++ drop (start + count) (mwc_q r))).
Proof.
  revert start r. induction count as [|count IH]; intros start r Hq Hi.
  - simpl. rewrite Nat.add_0_r, take_drop. by destruct r.
  - simpl.
    destruct (lookup_lt_is_Some_2 (mwc_initial_q r) start) as [x Hx]; [lia|].
    rewrite (load_Some _ _ _ Hx). run. rewrite store_lt by lia. run.
    rewrite IH; simpl; rewrite ?length_insert; try lia.
    f_equal. unfold set_mwc_q. simpl. f_equal.
    rewrite take_S_insert by lia. rewrite <-(assoc_L (++)). f_equal.
    rewrite (drop_S _ _ _ Hx). simpl. f_equal. f_equal.
    rewrite drop_insert_lt by lia. f_equal. lia.
Qed.

(** [mwc_init] puts the recorded table, carry and cursor back. *)
Lemma mwc_init_eq (r : mwc_random_t) :
  length (mwc_q r) = MWC_CYCLE → length (mwc_initial_q r) = MWC_CYCLE →
  mwc_init r
  = Done (mk_mwc (mwc_initial_q r) (mwc_initial_carry r)
            (Z.of_nat MWC_CYCLE - 1) (mwc_initial_carry r) (mwc_initial_q r)).
Proof.
  intros Hq Hi. unfold mwc_init. rewrite copy_table_loop; simpl; try lia.
  f_equal. unfold set_mwc_q. simpl. f_equal.
  rewrite drop_0, take_ge by lia. rewrite drop_ge by lia. apply app_nil_r.
Qed.

Lemma land_cycle (c : Z) :
  (0 ≤ c < 4096)%Z →
  Z.land ((c + 1) `mod` 2 ^ 32) (Z.of_nat MWC_CYCLE - 1) = ((c + 1) `mod` 4096)%Z.
Proof.
  intros Hc. rewrite MWC_CYCLE_eq.
  change (4096 - 1)%Z with (Z.ones 12). rewrite Z.land_ones by lia.
  rewrite (Z.mod_small (c + 1) (2 ^ 32)) by lia. done.
Qed.

Lemma lookup_u32 (q : list Z) i :
  Forall u32 q → i < length q → ∃ x, q !! i = Some x ∧ u32 x.
Proof.
  intros Hq Hi. destruct (lookup_lt_is_Some_2 q i Hi) as [x Hx].
  exists x. split; [done|]. by eapply Forall_lookup_1.
Qed.

(** The intermediate [t] of a step needs no wrap-around, and the carry it
    leaves is at most 18783. *)
Lemma step_bounds (qv c : Z) :
  u32 qv → u32 c →
  let t := (18782 * qv + c)%Z in
  let carry' := Z.shiftr t 32 in
  let x := ((t `mod` 2 ^ 32 + carry') `mod` 2 ^ 32)%Z in
  (0 ≤ 18782 * qv < 2 ^ 64)%Z ∧ (0 ≤ t < 2 ^ 64)%Z
  ∧ (0 ≤ carry' ≤ 18782)%Z ∧ (0 ≤ x < 2 ^ 32)%Z.
Proof.
  unfold u32. intros Hq Hc. cbv zeta.
  rewrite Z.shiftr_div_pow2 by lia.
  assert (0 ≤ 18782 * qv + c < 18783 * 2 ^ 32)%Z as Ht by lia.
  split; [lia|]. split; [lia|]. split.
  - split; [apply Z.div_pos; lia|].
    assert ((18782 * qv + c) `div` 2 ^ 32 < 18783)%Z; [|lia].
    apply Z.div_lt_upper_bound; lia.
  - apply Z.mod_pos_bound. lia.
Qed.

(** [mwc_next_random] is the step of the specification. *)
Lemma mwc_next_random_eq (s : mwc_random_t) :
  mwc_wf s → mwc_next_random s = Done (advance_spec s).
Proof.
  intros [Hql _ Hq _ Hc _ Hcy]. rewrite MWC_CYCLE_eq in Hcy.
  unfold mwc_next_random, advance_spec. rewrite land_cycle by done.
  set (cursor' := ((mwc_current_cycle s + 1) `mod` 4096)%Z).
  assert (0 ≤ cursor' < 4096)%Z as Hcur by (apply Z.mod_pos_bound; lia).
  assert (Z.to_nat cursor' < length (mwc_q s)) as Hin.
  { rewrite Hql. pose proof MWC_CYCLE_eq. lia. }
  destruct (lookup_u32 _ _ Hq Hin) as (qv & Hqv & Hu).
  rewrite (load_Some _ _ _ Hqv), Hqv. run. simpl default.
  destruct (step_bounds qv (mwc_carry s) Hu Hc) as (Ha & Ht & Hcar & Hx).
  rewrite (Z.mod_small (18782 * qv)) by lia.
  rewrite (Z.mod_small (18782 * qv + mwc_carry s)) by lia.
  rewrite (Z.mod_small (Z.shiftr _ 32)) by lia.
  set (t := (18782 * qv + mwc_carry s)%Z) in *.
  set (carry' := Z.shiftr t 32) in *.
  set (x := ((t `mod` 2 ^ 32 + carry') `mod` 2 ^ 32)%Z) in *.
  destruct (decide (x < carry')%Z) as [Hlt|Hge].
  - rewrite (Z.mod_small (x + 1)), (Z.mod_small (carry' + 1)) by lia.
    by rewrite store_lt by done.
  - by rewrite store_lt by done.
Qed.

Lemma advance_spec_read (s : mwc_random_t) :
  mwc_wf s → mwc_read_random (advance_spec s) = Done (advance_word s).
Proof.
  intros [Hql _ Hq _ Hc _ Hcy]. rewrite MWC_CYCLE_eq in Hcy.
  unfold mwc_read_random, advance_spec, advance_word.
  set (cursor' := ((mwc_current_cycle s + 1) `mod` 4096)%Z).
  assert (0 ≤ cursor' < 4096)%Z as Hcur by (apply Z.mod_pos_bound; lia).
  assert (Z.to_nat cursor' < length (mwc_q s)) as Hin.
  { rewrite Hql. pose proof MWC_CYCLE_eq. lia. }
  case_decide; simpl; apply load_Some, list_lookup_insert_eq; done.
Qed.

Lemma advance_spec_wf (s : mwc_random_t) : mwc_wf s → mwc_wf (advance_spec s).
Proof.
  intros [Hql Hil Hq Hi Hc Hic Hcy]. rewrite MWC_CYCLE_eq in Hcy.
  unfold advance_spec.
  set (cursor' := ((mwc_current_cycle s + 1) `mod` 4096)%Z).
  assert (0 ≤ cursor' < 4096)%Z as Hcur by (apply Z.mod_pos_bound; lia).
  assert (Z.to_nat cursor' < length (mwc_q s)) as Hin.
  { rewrite Hql. pose proof MWC_CYCLE_eq. lia. }
  destruct (lookup_u32 _ _ Hq Hin) as (qv & Hqv & Hu). rewrite Hqv.
  simpl default.
  destruct (step_bounds qv (mwc_carry s) Hu Hc) as (Ha & Ht & Hcar & Hx).
  case_decide; split; simpl; rewrite ?length_insert, ?MWC_CYCLE_eq;
    try done; try (unfold u32; lia);
    apply Forall_insert; try done; apply Z.mod_pos_bound; lia.
Qed.

(** After a step the carry is at most 18783. *)
Lemma advance_spec_carry (s : mwc_random_t) :
  mwc_wf s → (0 ≤ mwc_carry (advance_spec s) ≤ 18783)%Z.
Proof.
  intros [Hql Hil Hq Hi Hc Hic Hcy]. rewrite MWC_CYCLE_eq in Hcy.
  unfold advance_spec.
  set (cursor' := ((mwc_current_cycle s + 1) `mod` 4096)%Z).
  assert (0 ≤ cursor' < 4096)%Z as Hcur by (apply Z.mod_pos_bound; lia).
  assert (Z.to_nat cursor' < length (mwc_q s)) as Hin.
  { rewrite Hql. pose proof MWC_CYCLE_eq. lia. }
  destruct (lookup_u32 _ _ Hq Hin) as (qv & Hqv & Hu). rewrite Hqv.
  simpl default.
  destruct (step_bounds qv (mwc_carry s) Hu Hc) as (Ha & Ht & Hcar & Hx).
  case_decide; simpl; lia.
Qed.

(** ** Creation of a generator *)

Section Creation.
Variable MWC_SYSTEM_RAND32 : nat → Z.

Lemma draw_u32 k : u32 (draw MWC_SYSTEM_RAND32 k).
Proof. apply Z.mod_pos_bound. lia. Qed.

Lemma mwc_initial_c_bound fuel calls c calls' :
  mwc_initial_c MWC_SYSTEM_RAND32 fuel calls = Done (c, calls') →
  (0 ≤ c < MWC_C_MAX)%Z.
Proof.
  revert calls. induction fuel as [|fuel IH]; intros calls; simpl; [done|].
  case_decide as Hc; [apply IH|]. intros [= <- <-].
  pose proof (draw_u32 calls) as Hd. unfold draw, u32 in *. lia.
Qed.

(** The rejection loop ends as soon as the source yields a value below
    [MWC_C_MAX]. *)
Lemma mwc_initial_c_done fuel calls k :
  k < fuel → (draw MWC_SYSTEM_RAND32 (calls + k) < MWC_C_MAX)%Z →
  ∃ c calls', mwc_initial_c MWC_SYSTEM_RAND32 fuel calls = Done (c, calls').
Proof.
  revert calls k. induction fuel as [|fuel IH]; intros calls k Hk Hd; [lia|].
  simpl. case_decide as Hc; [|by eauto].
  destruct k as [|k].
  - rewrite Nat.add_0_r in Hd. unfold draw in *. lia.
  - apply (IH (S calls) k); [lia|].
    by replace (S calls + k) with (calls + S k) by lia.
Qed.

Lemma fill_table_loop (st : mwc_random_t) calls count start :
  start + count ≤ length (mwc_q st) →
  start + count ≤ length (mwc_initial_q st) →
  for_loop count start (λ i '(st, calls),
    let '(v, calls) := rand32 MWC_SYSTEM_RAND32 calls in
    q ← store (mwc_q st) i v;
    x ← load q i;
    iq ← store (mwc_initial_q st) i x;
    Done (set_mwc_initial_q (set_mwc_q st q) iq, calls)) (st, calls)
  = Done (mk_mwc (fill MWC_SYSTEM_RAND32 calls start count (mwc_q st)) (mwc_carry st)
            (mwc_current_cycle st) (mwc_initial_carry st)
            (fill MWC_SYSTEM_RAND32 calls start count (mwc_initial_q st)), calls + count).
Proof.
  revert start st calls.
  induction count as [|count IH]; intros start st calls Hq Hi.
  - simpl. unfold fill. simpl. rewrite !Nat.add_0_r, !take_drop.
    by destruct st.
  - simpl. rewrite store_lt by lia. run.
    rewrite (load_Some _ _ (draw MWC_SYSTEM_RAND32 calls))
      by (apply list_lookup_insert_eq; lia).
    run. rewrite store_lt by lia. run.
    rewrite IH; simpl; rewrite ?length_insert; try lia.
    f_equal. f_equal; [|lia]. unfold fill. simpl.
    rewrite !take_S_insert by lia. rewrite <-!(assoc_L (++)). simpl.
    rewrite !drop_insert_lt by lia.
    by replace (start + S count) with (S (start + count)) by lia.
Qed.

(** A created generator: both tables hold the words drawn, the carry is the
    accepted draw and the cursor is at the last index. *)
Lemma mwc_create_eq fuel calls s calls' :
  mwc_create MWC_SYSTEM_RAND32 fuel calls = Done (s, calls') →
  ∃ c k, (0 ≤ c < MWC_C_MAX)%Z
    ∧ s = mk_mwc (draw MWC_SYSTEM_RAND32 <$> seq k MWC_CYCLE) c
            (Z.of_nat MWC_CYCLE - 1) c
            (draw MWC_SYSTEM_RAND32 <$> seq k MWC_CYCLE)
    ∧ calls' = k + MWC_CYCLE.
Proof.
  unfold mwc_create. intros H.
  apply bind_Done in H as ([c k] & Hc & H).
  apply mwc_initial_c_bound in Hc.
  rewrite fill_table_loop in H
    by (cbn [mwc_q mwc_initial_q]; rewrite length_replicate; lia).
  cbn [mwc_q mwc_initial_q mwc_carry mwc_current_cycle mwc_initial_carry] in H.
  injection H as <- <-. exists c, k. split; [done|].
  split; [|done]. unfold fill. rewrite take_0.
  rewrite drop_ge by (rewrite length_replicate; lia).
  by rewrite app_nil_r.
Qed.

Lemma mwc_create_done fuel calls k :
  k < fuel → (draw MWC_SYSTEM_RAND32 (calls + k) < MWC_C_MAX)%Z →
  ∃ s calls', mwc_create MWC_SYSTEM_RAND32 fuel calls = Done (s, calls').
Proof.
  intros Hk Hd. unfold mwc_create.
  destruct (mwc_initial_c_done fuel calls k Hk Hd) as (c & calls' & ->).
  run. rewrite fill_table_loop
    by (cbn [mwc_q mwc_initial_q]; rewrite length_replicate; lia).
  eauto.
Qed.

Lemma mwc_create_wf fuel calls s calls' :
  mwc_create MWC_SYSTEM_RAND32 fuel calls = Done (s, calls') →
  mwc_wf s ∧ mwc_q s = mwc_initial_q s ∧ mwc_carry s = mwc_initial_carry s
  ∧ (mwc_initial_carry s < MWC_C_MAX)%Z.
Proof.
  intros H. apply mwc_create_eq in H as (c & k & Hc & -> & _). simpl.
  assert (Forall u32 (draw MWC_SYSTEM_RAND32 <$> seq k MWC_CYCLE)) as Hd.
  { apply Forall_fmap, Forall_forall. intros i _. apply draw_u32. }
  unfold MWC_C_MAX in Hc.
  repeat split; simpl; rewrite ?length_fmap, ?length_seq, ?MWC_CYCLE_eq;
    try done; try (unfold u32, MWC_C_MAX; lia).
Qed.

End Creation.

(** ** States reachable from a created generator *)

(** What every reachable state keeps: its typing, the recorded snapshot and
    a carry below [MWC_C_MAX]. *)
Lemma mwc_reachable_inv (s0 s : mwc_random_t) :
  mwc_wf s0 → (mwc_carry s0 < MWC_C_MAX)%Z →
  (mwc_initial_carry s0 < MWC_C_MAX)%Z →
  mwc_reachable s0 s →
  mwc_wf s ∧ mwc_initial_q s = mwc_initial_q s0
  ∧ mwc_initial_carry s = mwc_initial_carry s0
  ∧ (mwc_carry s < MWC_C_MAX)%Z.
Proof.
  intros Hwf Hc Hic Hr. induction Hr as [|s s' Hr IH Hn|s s' Hr IH Hi].
  - done.
  - destruct IH as (Hs & Hq & Hcar & Hlt).
    rewrite mwc_next_random_eq in Hn by done. injection Hn as <-.
    split; [by apply advance_spec_wf|].
    pose proof (advance_spec_carry s Hs) as Hb.
    unfold advance_spec in *. case_decide; simpl in *;
      (split; [done|]; split; [done|]; unfold MWC_C_MAX; lia).
  - destruct IH as (Hs & Hq & Hcar & Hlt).
    rewrite mwc_init_eq in Hi by apply Hs. injection Hi as <-.
    destruct Hs. split; [split; simpl; try done; rewrite MWC_CYCLE_eq; lia|].
    simpl. rewrite Hcar. done.
Qed.

Lemma mwc_read_random_wf (s : mwc_random_t) :
  mwc_wf s → ∃ v, mwc_read_random s = Done v ∧ u32 v.
Proof.
  intros [Hql _ Hq _ _ _ Hcy]. unfold mwc_read_random.
  destruct (lookup_u32 (mwc_q s) (Z.to_nat (mwc_current_cycle s)) Hq)
    as (v & Hv & Hu); [lia|].
  exists v. by rewrite (load_Some _ _ _ Hv).
Qed.

Lemma advance_wf N (s : mwc_random_t) :
  mwc_wf s → ∃ s', advance N s = Done s' ∧ mwc_wf s'.
Proof.
  revert s. induction N as [|N IH]; intros s Hs; simpl; [by eauto|].
  rewrite mwc_next_random_eq by done. run.
  by apply IH, advance_spec_wf.
Qed.

Lemma mwc_init_wf (s : mwc_random_t) :
  mwc_wf s →
  mwc_wf (mk_mwc (mwc_initial_q s) (mwc_initial_carry s)
            (Z.of_nat MWC_CYCLE - 1) (mwc_initial_carry s) (mwc_initial_q s)).
Proof.
  intros []. split; simpl; try done; pose proof MWC_CYCLE_eq; lia.
Qed.

(** C4: one advance step of the generator is the step the specification
    describes: the cursor moves by one modulo 4096, [t = 18782 * Q[cursor'] +
    carry] fits 64 bits, the carry becomes [t >> 32], [x] is the 32-bit sum of
    the low half of [t] and that carry, both incremented when the sum is below
    the carry, the 32-bit word [0xFFFFFFFE - x] is stored at the cursor, and
    it is the value read afterwards. *)
Theorem mwc_next_random_step (s : mwc_random_t) :
  mwc_wf s →
  mwc_next_random s = Done (advance_spec s)
  ∧ mwc_read_random (advance_spec s) = Done (advance_word s)
  ∧ mwc_q (advance_spec s) !! Z.to_nat (mwc_current_cycle (advance_spec s))
    = Some (advance_word s)
  ∧ mwc_current_cycle (advance_spec s)
    = ((mwc_current_cycle s + 1) `mod` 4096)%Z
  ∧ (∀ qv, mwc_q s !! Z.to_nat (mwc_current_cycle (advance_spec s)) = Some qv
       → (0 ≤ 18782 * qv + mwc_carry s < 2 ^ 64)%Z).
Proof.
  intros Hs. split; [by apply mwc_next_random_eq|].
  pose proof (advance_spec_read s Hs) as Hr. split; [done|].
  split.
  { unfold mwc_read_random, load in Hr.
    destruct (mwc_q (advance_spec s) !! _); by inversion Hr. }
  split.
  { unfold advance_spec. by case_decide. }
  intros qv Hqv. destruct Hs as [_ _ Hq _ Hc _ _].
  apply (Forall_lookup_1 _ _ _ _ Hq) in Hqv.
  by destruct (step_bounds qv (mwc_carry s) Hqv Hc) as (_ & Ht & _).
Qed.

Lemma flat_state_wf q c : u32 q → u32 c → mwc_wf (flat_state q c).
Proof.
  intros Hq Hc. pose proof MWC_CYCLE_eq.
  split; simpl; rewrite ?length_replicate; try done; try lia;
    by apply Forall_replicate.
Qed.

(** The subtraction of the step is the 32-bit one: from a word of
    [0xFFFFFFFF] and a carry of 0, [x] is [0xFFFFFFFF] and the word stored is
    [0xFFFFFFFF]. *)
Example advance_word_wraps :
  advance_word (flat_state 0xFFFFFFFF 0) = 0xFFFFFFFF%Z
  ∧ mwc_carry (advance_spec (flat_state 0xFFFFFFFF 0)) = 18781%Z.
Proof. split; vm_compute; reflexivity. Qed.

Lemma mwc_next_random_step_witness :
  mwc_wf (flat_state 0xFFFFFFFF 0)
  ∧ mwc_next_random (flat_state 0xFFFFFFFF 0)
    = Done (advance_spec (flat_state 0xFFFFFFFF 0)).
Proof.
  assert (mwc_wf (flat_state 0xFFFFFFFF 0)) as H
    by (apply flat_state_wf; unfold u32; lia).
  split; [exact H|]. exact (proj1 (mwc_next_random_step _ H)).
Defined.

(** C9: the carry of every state reachable from a created generator is below
    [MWC_C_MAX]; a step leaves a carry of at most 18783, and every reachable
    state can be advanced and reset. *)
Theorem mwc_carry_below_c_max (MWC_SYSTEM_RAND32 : nat → Z) fuel calls
    (s0 s : mwc_random_t) calls' :
  mwc_create MWC_SYSTEM_RAND32 fuel calls = Done (s0, calls') →
  mwc_reachable s0 s →
  (0 ≤ mwc_carry s < MWC_C_MAX)%Z
  ∧ (∃ s', mwc_next_random s = Done s' ∧ (0 ≤ mwc_carry s' ≤ 18783)%Z)
  ∧ (∃ s', mwc_init s = Done s' ∧ mwc_carry s' = mwc_carry s0)
  ∧ (mwc_carry s0 < MWC_C_MAX)%Z.
Proof.
  intros Hc Hr. apply mwc_create_wf in Hc as (Hwf & Hq & Hcar & Hlt).
  destruct (mwc_reachable_inv s0 s) as (Hs & Hiq & Hic & Hb);
    [done|by rewrite Hcar|done|done|].
  split; [pose proof (wf_carry s Hs) as Hu; unfold u32 in Hu; lia|].
  split.
  { exists (advance_spec s). split; [by apply mwc_next_random_eq|].
    by apply advance_spec_carry. }
  split; [|by rewrite Hcar].
  eexists. split; [apply mwc_init_eq; apply Hs|]. simpl. congruence.
Qed.

Lemma mwc_carry_below_c_max_witness :
  ∃ s0 calls', mwc_create (λ _, 5%Z) 1 0 = Done (s0, calls')
    ∧ (0 ≤ mwc_carry s0 < MWC_C_MAX)%Z.
Proof.
  destruct (mwc_create_done (λ _, 5%Z) 1 0 0) as (s0 & calls' & H);
    [lia|done|].
  exists s0, calls'. split; [exact H|].
  exact (proj1 (mwc_carry_below_c_max _ _ _ _ _ _ H (reach_created s0))).
Defined.

(** C5: after any sequence of advance and reset operations on a created
    generator, a reset followed by [N] advance steps reads the value that the
    created generator's own reset followed by [N] advance steps reads; the
    reset puts back the recorded table, carry and cursor, which no operation
    has altered. *)
Theorem mwc_deterministic_replay (MWC_SYSTEM_RAND32 : nat → Z) fuel calls
    (s0 s : mwc_random_t) calls' N :
  mwc_create MWC_SYSTEM_RAND32 fuel calls = Done (s0, calls') →
  mwc_reachable s0 s →
  (∃ v, replay N s0 = Done v ∧ replay N s = Done v)
  ∧ mwc_init s
    = Done (mk_mwc (mwc_initial_q s0) (mwc_initial_carry s0)
              (Z.of_nat MWC_CYCLE - 1) (mwc_initial_carry s0)
              (mwc_initial_q s0))
  ∧ mwc_initial_q s = mwc_initial_q s0
  ∧ mwc_initial_carry s = mwc_initial_carry s0
  ∧ mwc_initial_q s0 = mwc_q s0 ∧ mwc_initial_carry s0 = mwc_carry s0.
Proof.
  intros Hc Hr. apply mwc_create_wf in Hc as (Hwf & Hq & Hcar & Hlt).
  destruct (mwc_reachable_inv s0 s) as (Hs & Hiq & Hic & Hb);
    [done|by rewrite Hcar|done|done|].
  assert (mwc_init s = mwc_init s0) as Hinit.
  { rewrite !mwc_init_eq by (apply Hs || apply Hwf). by rewrite Hiq, Hic. }
  split.
  { unfold replay. rewrite Hinit, mwc_init_eq by apply Hwf. run.
    destruct (advance_wf N _ (mwc_init_wf s0 Hwf)) as (s' & -> & Hs'). run.
    destruct (mwc_read_random_wf s' Hs') as (v & Hv & _). eauto. }
  split; [rewrite Hinit; apply mwc_init_eq; apply Hwf|]. done.
Qed.

Lemma mwc_deterministic_replay_witness :
  ∃ s0 calls' s1, mwc_create (λ _, 5%Z) 1 0 = Done (s0, calls')
    ∧ mwc_reachable s0 s1
    ∧ ∃ v, replay 3 s0 = Done v ∧ replay 3 s1 = Done v.
Proof.
  destruct (mwc_create_done (λ _, 5%Z) 1 0 0) as (s0 & calls' & H);
    [lia|done|].
  assert (mwc_reachable s0 (advance_spec s0)) as Hr.
  { apply (reach_next s0 s0); [apply reach_created|].
    apply mwc_next_random_eq. by apply mwc_create_wf in H as [? _]. }
  exists s0, calls', (advance_spec s0). split; [exact H|]. split; [exact Hr|].
  exact (proj1 (mwc_deterministic_replay _ _ _ _ _ _ 3 H Hr)).
Defined.

(** ** Pure API: the rendering *)

Lemma fmap_lookup_take {A} (x : A) (src : list A) count :
  count ≤ length src →
  (λ i, default x (src !! i)) <$> seq 0 count = take count src.
Proof.
  intros Hc. apply list_eq. intros j. rewrite list_lookup_fmap.
  destruct (decide (j < count)) as [Hj|Hj].
  - rewrite lookup_seq_lt, lookup_take_lt by done. simpl.
    destruct (lookup_lt_is_Some_2 src j) as [y ->]; [lia|done].
  - by rewrite lookup_seq_ge, lookup_take_ge by lia.
Qed.

(** A loop that copies [src[0 .. count)] to [dst[ofs .. ofs + count)]. *)
Lemma for_loop_copy {A} (x : A) (src : list A) (g : nat → nat) ofs count
    (d : list A) :
  (∀ i, i < count → g i = ofs + i) →
  count ≤ length src → ofs + count ≤ length d →
  for_loop count 0 (λ i dst, c ← load src i; store dst (g i) c) d
  = Done (take ofs d ++ take count src ++ drop (ofs + count) d).
Proof.
  intros Hg Hs Hd.
  rewrite (for_loop_ascending ofs (λ i, default x (src !! i))).
  - by rewrite fmap_lookup_take, !Nat.add_0_r.
  - intros i d' Hi _ _.
    destruct (lookup_lt_is_Some_2 src i) as [y Hy]; [lia|].
    rewrite (load_Some _ _ _ Hy), Hy. run. rewrite Hg by lia. done.
  - lia.
Qed.

(** Turns a list whose length is a numeral into its elements. *)
Ltac explode l :=
  match goal with
  | H : length l = _ |- _ =>
      repeat (let c := fresh "c" in
              destruct l as [|c l]; simpl in H;
              [try discriminate H
              |try discriminate H; apply Nat.succ_inj in H])
  end.

Lemma pad_block n (b : buffer) w pad :
  w < CUID_BASE36_RESULT_SIZE → length b = CUID_BASE36_RESULT_SIZE →
  ∃ b', cuid_base36_pad n b 0 w pad = Done (w, b')
        ∧ length b' = CUID_BASE36_RESULT_SIZE ∧ take w b' = padded n w pad.
Proof.
  intros Hw Hb. pose proof (digits36_length n) as Hd.
  destruct (cuid_base36_pad_take n b 0 w pad) as (b' & H & Hl & Ht & _);
    [done|unfold CUID_BASE36_RESULT_SIZE in *; lia|].
  exists b'. rewrite Hl. by rewrite take_0 in Ht.
Qed.

Lemma pad_text_eq n w pad :
  w < CUID_BASE36_RESULT_SIZE → pad_text n w pad = padded n w pad.
Proof.
  intros Hw. unfold pad_text.
  destruct (pad_block n (fresh CUID_BASE36_RESULT_SIZE) w pad)
    as (b' & -> & _ & Ht); [done|apply length_replicate|done].
Qed.

Lemma pad_text_length n w pad :
  w < CUID_BASE36_RESULT_SIZE → length (pad_text n w pad) = w.
Proof. intros Hw. rewrite pad_text_eq by done. apply padded_length. Qed.

Lemma rendering_length tsb counter (fp : buffer) r1 r2 :
  length tsb = 6 → 4 ≤ length fp →
  length (rendering tsb counter fp r1 r2) = 23.
Proof.
  intros Ht Hf. unfold rendering. cbn [length].
  rewrite !length_app, !pad_text_length, length_take
    by (unfold CUID_BASE36_RESULT_SIZE; lia).
  lia.
Qed.

(** Reads the members of a context written out. *)
Ltac members :=
  cbn [cuid_fingerprint cuid_counter cuid_counter_str cuid_rnd1 cuid_rnd2
       cuid_rnd1_str cuid_rnd2_str cuid_value cuid_timestamp
       cuid_read_counter] in *.

Lemma cuid_gen_value_string_eq (id : cuid_t) r1 r2 :
  cuid_wf id →
  mwc_read_random (cuid_rnd1 id) = Done r1 →
  mwc_read_random (cuid_rnd2 id) = Done r2 →
  ∃ cs r1s r2s,
    cuid_gen_value_string id
    = Done (mk_cuid (cuid_fingerprint id) (cuid_counter id) cs (cuid_rnd1 id)
              (cuid_rnd2 id) r1s r2s
              (rendering (take 6 (cuid_timestamp id))
                 (cuid_read_counter (cuid_counter id)) (cuid_fingerprint id)
                 r1 r2 ++ drop 23 (cuid_value id))
              (cuid_timestamp id))
    ∧ length cs = CUID_BASE36_RESULT_SIZE
    ∧ length r1s = CUID_BASE36_RESULT_SIZE
    ∧ length r2s = CUID_BASE36_RESULT_SIZE.
Proof.
  intros [Hfp Hcs _ _ Hr1s Hr2s Hv Hts] Hr1 Hr2.
  destruct id as [fp ctr cs rnd1 rnd2 r1s r2s v ts]. members.
  unfold cuid_gen_value_string, rendering, cuid_read_counter. members.
  unfold CUID_BLOCK_LENGTH, CUID_TIMESTAMP_LENGTH.
  rewrite !pad_text_eq by (unfold CUID_BASE36_RESULT_SIZE; lia).
  destruct (pad_block (value ctr) cs 4 "0") as (cs' & Ecs & Hcs' & Hc);
    [unfold CUID_BASE36_RESULT_SIZE; lia|done|].
  destruct (pad_block r1 r1s 4 "0") as (r1s' & Er1 & Hr1s' & H1);
    [unfold CUID_BASE36_RESULT_SIZE; lia|done|].
  destruct (pad_block r2 r2s 4 "0") as (r2s' & Er2 & Hr2s' & H2);
    [unfold CUID_BASE36_RESULT_SIZE; lia|done|].
  exists cs', r1s', r2s'. split; [|done].
  unfold CUID_BASE36_RESULT_SIZE, CUID_SIZE in *.
  rewrite store_lt by lia. run.
  rewrite (for_loop_copy NUL ts _ 1) by (rewrite ?length_insert; lia). run.
  assert (length (take 1 (<[0:="c"%char]> v) ++ take 6 ts
                  ++ drop (1 + 6) (<[0:="c"%char]> v)) = 24) as Hv1.
  { rewrite !length_app, !length_take, length_drop, length_insert. lia. }
  set (v1 := take 1 (<[0:="c"%char]> v) ++ _) in *.
  rewrite Ecs. run.
  rewrite (for_loop_copy NUL cs' _ 7) by lia. run. rewrite Hc.
  assert (length (take 7 v1 ++ padded (value ctr) 4 "0" ++ drop (7 + 4) v1)
          = 24) as Hv2.
  { rewrite !length_app, !length_take, length_drop, padded_length. lia. }
  set (v2 := take 7 v1 ++ _) in *.
  rewrite (for_loop_copy NUL fp _ 11) by lia. run.
  assert (length (take 11 v2 ++ take 4 fp ++ drop (11 + 4) v2) = 24) as Hv3.
  { rewrite !length_app, !length_take, length_drop. lia. }
  set (v3 := take 11 v2 ++ _) in *.
  rewrite Hr1. run. rewrite Er1. run.
  rewrite (for_loop_copy NUL r1s' _ 15) by lia. run. rewrite H1.
  assert (length (take 15 v3 ++ padded r1 4 "0" ++ drop (15 + 4) v3) = 24)
    as Hv4.
  { rewrite !length_app, !length_take, length_drop, padded_length. lia. }
  set (v4 := take 15 v3 ++ _) in *.
  rewrite Hr2. run. rewrite Er2. run.
  rewrite (for_loop_copy NUL r2s' _ 19) by lia. run. rewrite H2.
  do 2 f_equal.
  pose proof (padded_length (value ctr) 4 "0") as HP1.
  pose proof (padded_length r1 4 "0") as HP2.
  pose proof (padded_length r2 4 "0") as HP3.
  subst v4 v3 v2 v1.
  set (P1 := padded (value ctr) 4 "0") in *.
  set (P2 := padded r1 4 "0") in *.
  set (P3 := padded r2 4 "0") in *.
  clearbody P1 P2 P3. clear -Hv Hts Hfp HP1 HP2 HP3.
  explode P1. explode P2. explode P3. explode v. explode ts. explode fp.
  reflexivity.
Qed.

Lemma clear_loop (v : buffer) :
  length v = CUID_SIZE →
  for_loop CUID_SIZE 0 (λ i v, store v i NUL) v = Done (fresh CUID_SIZE).
Proof.
  intros Hv. unfold CUID_SIZE in *. explode v. reflexivity.
Qed.

(** [cuid_read] copies the value out. *)
Lemma cuid_read_eq (id : cuid_t) (destination : buffer) :
  length (cuid_value id) = CUID_SIZE → CUID_SIZE ≤ length destination →
  cuid_read id destination
  = Done (cuid_value id ++ drop CUID_SIZE destination).
Proof.
  intros Hv Hd. unfold cuid_read.
  rewrite (for_loop_copy NUL (cuid_value id) _ 0) by (intros; lia).
  by rewrite take_0, (take_ge (cuid_value id)) by lia.
Qed.

(** The context [cuid_init] returns. *)
Lemma cuid_init_eq (id : cuid_t) timestamp :
  cuid_wf id →
  ∃ id' r1 r2,
    cuid_init id timestamp = Done id'
    ∧ cuid_wf id'
    ∧ mwc_init (cuid_rnd1 id) = Done (cuid_rnd1 id')
    ∧ mwc_init (cuid_rnd2 id) = Done (cuid_rnd2 id')
    ∧ mwc_read_random (cuid_rnd1 id') = Done r1
    ∧ mwc_read_random (cuid_rnd2 id') = Done r2
    ∧ cuid_counter id' = cuid_init_counter (cuid_counter id)
    ∧ cuid_fingerprint id' = cuid_fingerprint id
    ∧ cuid_value id'
      = rendering (pad_text timestamp 6 "0") 0 (cuid_fingerprint id) r1 r2
        ++ [NUL].
Proof.
  intros Hwf. pose proof Hwf as [Hfp Hcs Hw1 Hw2 Hr1s Hr2s Hv Hts].
  unfold cuid_init.
  rewrite !mwc_init_eq by (apply Hw1 || apply Hw2). run.
  destruct (pad_block timestamp (cuid_timestamp id) CUID_TIMESTAMP_LENGTH "0")
    as (ts' & -> & Hts' & Ht);
    [unfold CUID_BASE36_RESULT_SIZE, CUID_TIMESTAMP_LENGTH; lia|done|].
  run. rewrite clear_loop by done. run.
  pose proof (mwc_init_wf _ Hw1) as Hi1. pose proof (mwc_init_wf _ Hw2) as Hi2.
  destruct (mwc_read_random_wf _ Hi1) as (r1 & Hr1 & _).
  destruct (mwc_read_random_wf _ Hi2) as (r2 & Hr2 & _).
  match goal with |- ∃ _ _ _, cuid_gen_value_string ?x = _ ∧ _ =>
    set (id1 := x) end.
  assert (cuid_wf id1) as Hwf1.
  { split; unfold id1; members; done. }
  destruct (cuid_gen_value_string_eq id1 r1 r2 Hwf1 Hr1 Hr2)
    as (cs & r1s & r2s & -> & Hl1 & Hl2 & Hl3).
  unfold id1. members. eexists _, r1, r2. split; [done|]. members.
  split.
  { split; members; try done.
    rewrite length_app, rendering_length; [done| |rewrite Hfp; cbv; lia].
    unfold CUID_TIMESTAMP_LENGTH in Ht. by rewrite Ht, padded_length. }
  repeat (split; [done|]).
  unfold fresh, CUID_SIZE, CUID_TIMESTAMP_LENGTH in *. rewrite Ht.
  by rewrite pad_text_eq by (unfold CUID_BASE36_RESULT_SIZE; lia).
Qed.

(** The context [cuid_next] returns. *)
Lemma cuid_next_eq (id : cuid_t) timestamp :
  cuid_wf id → drop 23 (cuid_value id) = [NUL] →
  ∃ id' r1 r2,
    cuid_next id timestamp = Done id'
    ∧ cuid_wf id'
    ∧ mwc_next_random (cuid_rnd1 id) = Done (cuid_rnd1 id')
    ∧ mwc_next_random (cuid_rnd2 id) = Done (cuid_rnd2 id')
    ∧ mwc_read_random (cuid_rnd1 id') = Done r1
    ∧ mwc_read_random (cuid_rnd2 id') = Done r2
    ∧ cuid_counter id' = cuid_inc_counter (cuid_counter id)
    ∧ cuid_fingerprint id' = cuid_fingerprint id
    ∧ cuid_value id'
      = rendering (pad_text timestamp 6 "0")
          (cuid_read_counter (cuid_inc_counter (cuid_counter id)))
          (cuid_fingerprint id) r1 r2
        ++ [NUL].
Proof.
  intros Hwf Hnul. pose proof Hwf as [Hfp Hcs Hw1 Hw2 Hr1s Hr2s Hv Hts].
  unfold cuid_next.
  rewrite !mwc_next_random_eq by done. run.
  destruct (pad_block timestamp (cuid_timestamp id) CUID_TIMESTAMP_LENGTH "0")
    as (ts' & -> & Hts' & Ht);
    [unfold CUID_BASE36_RESULT_SIZE, CUID_TIMESTAMP_LENGTH; lia|done|].
  run.
  pose proof (advance_spec_wf _ Hw1) as Hi1.
  pose proof (advance_spec_wf _ Hw2) as Hi2.
  destruct (mwc_read_random_wf _ Hi1) as (r1 & Hr1 & _).
  destruct (mwc_read_random_wf _ Hi2) as (r2 & Hr2 & _).
  match goal with |- ∃ _ _ _, cuid_gen_value_string ?x = _ ∧ _ =>
    set (id1 := x) end.
  assert (cuid_wf id1) as Hwf1.
  { split; unfold id1; members; done. }
  destruct (cuid_gen_value_string_eq id1 r1 r2 Hwf1 Hr1 Hr2)
    as (cs & r1s & r2s & -> & Hl1 & Hl2 & Hl3).
  unfold id1. members. eexists _, r1, r2. split; [done|]. members.
  split.
  { split; members; try done.
    rewrite length_app, rendering_length, Hnul; [done| |rewrite Hfp; cbv; lia].
    unfold CUID_TIMESTAMP_LENGTH in Ht. by rewrite Ht, padded_length. }
  repeat (split; [done|]).
  unfold CUID_TIMESTAMP_LENGTH in *. rewrite Ht, Hnul.
  by rewrite pad_text_eq by (unfold CUID_BASE36_RESULT_SIZE; lia).
Qed.

(** ** Pure API: creation *)

Lemma fingerprint_copy_loop (fingerprint fp : buffer) :
  for_loop CUID_FINGERPRINT_SIZE 0 (λ i fp,
    c ← load fingerprint i;
    store fp i c) (fresh CUID_BASE36_RESULT_SIZE) = Done fp →
  CUID_FINGERPRINT_SIZE ≤ length fingerprint
  ∧ fp = take CUID_FINGERPRINT_SIZE fingerprint ++ fresh 11.
Proof.
  unfold CUID_FINGERPRINT_SIZE.
  destruct fingerprint as [|c0 [|c1 [|c2 [|c3 [|c4 rest]]]]];
    try (intros [=]; fail).
  intros [= <-]. simpl. split; [lia|done].
Qed.

Lemma fingerprint_copy_done (fingerprint : buffer) :
  CUID_FINGERPRINT_SIZE ≤ length fingerprint →
  for_loop CUID_FINGERPRINT_SIZE 0 (λ i fp,
    c ← load fingerprint i;
    store fp i c) (fresh CUID_BASE36_RESULT_SIZE)
  = Done (take CUID_FINGERPRINT_SIZE fingerprint ++ fresh 11).
Proof.
  unfold CUID_FINGERPRINT_SIZE.
  destruct fingerprint as [|c0 [|c1 [|c2 [|c3 [|c4 rest]]]]]; simpl; try lia.
  done.
Qed.

Section PureCreation.
Variable MWC_SYSTEM_RAND32 : nat → Z.

(** A created context: its typing, the fingerprint it binds, its zero
    counter and value, and the two created generators. *)
Lemma cuid_create_eq fuel calls (fingerprint : buffer) id calls' :
  cuid_create MWC_SYSTEM_RAND32 fuel calls fingerprint = Done (id, calls') →
  cuid_wf id
  ∧ CUID_FINGERPRINT_SIZE ≤ length fingerprint
  ∧ cuid_fingerprint id = take CUID_FINGERPRINT_SIZE fingerprint ++ fresh 11
  ∧ cuid_counter id = cuid_create_counter
  ∧ cuid_value id = fresh CUID_SIZE
  ∧ ∃ calls1,
      mwc_create MWC_SYSTEM_RAND32 fuel calls = Done (cuid_rnd1 id, calls1)
      ∧ mwc_create MWC_SYSTEM_RAND32 fuel calls1 = Done (cuid_rnd2 id, calls').
Proof.
  unfold cuid_create. intros H.
  apply bind_Done in H as ([rnd1 calls1] & H1 & H).
  apply bind_Done in H as ([rnd2 calls2] & H2 & H).
  apply bind_Done in H as (fp & Hfp & H). injection H as <- <-.
  apply fingerprint_copy_loop in Hfp as [Hlen ->]. members.
  pose proof (mwc_create_wf _ _ _ _ _ H1) as [Hw1 _].
  pose proof (mwc_create_wf _ _ _ _ _ H2) as [Hw2 _].
  split.
  { split; members; try done; try apply length_replicate.
    unfold fresh. rewrite length_app, length_take, length_replicate.
    unfold CUID_FINGERPRINT_SIZE, CUID_BASE36_RESULT_SIZE in *. lia. }
  repeat (split; [done|]). by exists calls1.
Qed.

(** Creation returns when the source keeps yielding, within [fuel] draws, a
    value the rejection loop accepts. *)
Lemma cuid_create_done fuel calls (fingerprint : buffer) :
  (∀ c, ∃ k, k < fuel ∧ (draw MWC_SYSTEM_RAND32 (c + k) < MWC_C_MAX)%Z) →
  CUID_FINGERPRINT_SIZE ≤ length fingerprint →
  ∃ id calls',
    cuid_create MWC_SYSTEM_RAND32 fuel calls fingerprint = Done (id, calls').
Proof.
  intros Hsrc Hfp. unfold cuid_create.
  destruct (Hsrc calls) as (k1 & Hk1 & Hd1).
  destruct (mwc_create_done _ fuel calls k1 Hk1 Hd1) as (s1 & c1 & ->). run.
  destruct (Hsrc c1) as (k2 & Hk2 & Hd2).
  destruct (mwc_create_done _ fuel c1 k2 Hk2 Hd2) as (s2 & c2 & ->). run.
  rewrite fingerprint_copy_done by done. run. eauto.
Qed.

End PureCreation.

Lemma rendered_terminated (id : cuid_t) timestamp :
  cuid_wf id → rendered id timestamp → drop 23 (cuid_value id) = [NUL].
Proof.
  intros Hwf (r1 & r2 & _ & _ & ->). apply drop_app_length'.
  rewrite rendering_length; [done| |rewrite (wf_fingerprint id Hwf); cbv; lia].
  apply pad_text_length. cbv. lia.
Qed.

Lemma cuid_init_rendered (id : cuid_t) timestamp :
  cuid_wf id →
  ∃ id', cuid_init id timestamp = Done id' ∧ cuid_wf id'
    ∧ rendered id' timestamp
    ∧ cuid_fingerprint id' = cuid_fingerprint id
    ∧ cuid_read_counter (cuid_counter id') = 0%Z.
Proof.
  intros Hwf.
  destruct (cuid_init_eq id timestamp Hwf)
    as (id' & r1 & r2 & E & Hwf' & _ & _ & Hr1 & Hr2 & Hc & Hfp & Hv).
  exists id'. repeat (split; [done|]). split; [|by rewrite Hc].
  exists r1, r2. repeat (split; [done|]). by rewrite Hc, Hfp.
Qed.

Lemma cuid_next_rendered (id : cuid_t) previous timestamp :
  cuid_wf id → rendered id previous →
  ∃ id', cuid_next id timestamp = Done id' ∧ cuid_wf id'
    ∧ rendered id' timestamp
    ∧ cuid_fingerprint id' = cuid_fingerprint id
    ∧ cuid_read_counter (cuid_counter id')
      = ((cuid_read_counter (cuid_counter id) + 1) `mod` 2 ^ 32)%Z.
Proof.
  intros Hwf Hr.
  destruct (cuid_next_eq id timestamp Hwf (rendered_terminated _ _ Hwf Hr))
    as (id' & r1 & r2 & E & Hwf' & _ & _ & Hr1 & Hr2 & Hc & Hfp & Hv).
  exists id'. repeat (split; [done|]). split; [|by rewrite Hc].
  exists r1, r2. repeat (split; [done|]). by rewrite Hc, Hfp.
Qed.

Lemma last_cons_default {A} (t d : A) l : List.last (t :: l) d = List.last l t.
Proof.
  revert t d. induction l as [|a l IH]; intros t d; [done|].
  change (List.last (t :: a :: l) d) with (List.last (a :: l) d).
  by rewrite !IH.
Qed.

Lemma cuid_nexts_rendered timestamps (id : cuid_t) previous :
  cuid_wf id → rendered id previous →
  u32 (cuid_read_counter (cuid_counter id)) →
  ∃ id', cuid_nexts id timestamps = Done id' ∧ cuid_wf id'
    ∧ rendered id' (List.last timestamps previous)
    ∧ cuid_fingerprint id' = cuid_fingerprint id
    ∧ cuid_read_counter (cuid_counter id')
      = ((cuid_read_counter (cuid_counter id)
          + Z.of_nat (length timestamps)) `mod` 2 ^ 32)%Z.
Proof.
  revert id previous.
  induction timestamps as [|t timestamps IH]; intros id previous Hwf Hr Hc.
  - exists id. simpl. repeat (split; [done|]).
    rewrite Z.add_0_r, Z.mod_small; done.
  - destruct (cuid_next_rendered id previous t Hwf Hr)
      as (id1 & E & Hwf1 & Hr1 & Hfp1 & Hc1).
    destruct (IH id1 t Hwf1 Hr1) as (id' & E' & Hwf' & Hr' & Hfp' & Hc').
    { rewrite Hc1. apply Z.mod_pos_bound. lia. }
    exists id'. cbn [cuid_nexts]. rewrite E. run.
    split; [done|]. split; [done|]. split.
    { by rewrite last_cons_default. }
    split; [congruence|]. rewrite Hc', Hc1.
    rewrite Zplus_mod_idemp_l. f_equal. simpl length. lia.
Qed.

(** The identifier read out after [cuid_create], [cuid_init] and any number
    of [cuid_next] calls. *)
Lemma cuid_pure_read (MWC_SYSTEM_RAND32 : nat → Z) fuel calls
    (fingerprint : buffer) id calls' t0 timestamps (destination : buffer) :
  cuid_create MWC_SYSTEM_RAND32 fuel calls fingerprint = Done (id, calls') →
  CUID_SIZE ≤ length destination →
  ∃ id1 id' r1 r2,
    cuid_init id t0 = Done id1
    ∧ cuid_nexts id1 timestamps = Done id'
    ∧ mwc_read_random (cuid_rnd1 id') = Done r1
    ∧ mwc_read_random (cuid_rnd2 id') = Done r2
    ∧ cuid_read_counter (cuid_counter id')
      = (Z.of_nat (length timestamps) `mod` 2 ^ 32)%Z
    ∧ cuid_read id' destination
      = Done (rendering (pad_text (List.last timestamps t0) 6 "0")
                (cuid_read_counter (cuid_counter id')) fingerprint r1 r2
              ++ [NUL] ++ drop CUID_SIZE destination).
Proof.
  intros Hc Hd.
  apply cuid_create_eq in Hc as (Hwf & Hlen & Hfp & _).
  destruct (cuid_init_rendered id t0 Hwf) as (id1 & E1 & Hwf1 & Hr1 & Hfp1 & Hc1).
  destruct (cuid_nexts_rendered timestamps id1 t0 Hwf1 Hr1)
    as (id' & E' & Hwf' & (r1 & r2 & R1 & R2 & Hv) & Hfp' & Hc').
  { rewrite Hc1. unfold u32. lia. }
  exists id1, id', r1, r2. repeat (split; [done|]).
  split; [by rewrite Hc', Hc1|].
  rewrite cuid_read_eq by (done || apply Hwf').
  rewrite Hv, <-(assoc_L (++)). do 2 f_equal.
  unfold rendering. do 4 f_equal.
  rewrite Hfp', Hfp1, Hfp. unfold CUID_FINGERPRINT_SIZE in *.
  rewrite take_app_le by (rewrite length_take; lia).
  rewrite take_take. f_equal.
Qed.

Lemma padded_digits n w :
  Forall (λ c, c ∈ cuid_radix36_table) (padded n w "0").
Proof.
  assert (Forall (λ c, c ∈ cuid_radix36_table) (digits36 n)) as Hd.
  { unfold digits36. apply Forall_reverse, digits_lsd_digits. }
  unfold padded. simpl. case_decide.
  - apply Forall_app. split; [|done]. apply Forall_replicate.
    unfold cuid_radix36_table. simpl. constructor.
  - by apply Forall_drop.
Qed.

Lemma pad_text_digits n w :
  w < CUID_BASE36_RESULT_SIZE →
  Forall (λ c, c ∈ cuid_radix36_table) (pad_text n w "0").
Proof. intros Hw. rewrite pad_text_eq by done. apply padded_digits. Qed.

Lemma radix36_table_visible c : c ∈ cuid_radix36_table → c ≠ NUL.
Proof.
  intros Hc ->. unfold cuid_radix36_table in Hc. simpl in Hc.
  repeat (apply elem_of_cons in Hc as [Hc|Hc]; [discriminate Hc|]).
  by apply elem_of_nil in Hc.
Qed.

Lemma rendering_app tsb counter (fp : buffer) r1 r2 (rest : buffer) :
  rendering tsb counter fp r1 r2 ++ [NUL] ++ rest
  = "c"%char :: tsb ++ pad_text counter 4 "0" ++ take 4 fp
    ++ pad_text r1 4 "0" ++ pad_text r2 4 "0" ++ [NUL] ++ rest.
Proof. unfold rendering. cbn [app]. by rewrite <-!(assoc_L (++)). Qed.

(** The fixed offsets of an identifier assembled from its five blocks. *)
Lemma blocks_layout (P0 P1 F P2 P3 rest : buffer) :
  length P0 = 6 → length P1 = 4 → length F = 4 → length P2 = 4 →
  length P3 = 4 →
  let out := "c"%char :: P0 ++ P1 ++ F ++ P2 ++ P3 ++ [NUL] ++ rest in
  out !! 0 = Some "c"%char
  ∧ text 6 1 out = P0 ∧ text 4 7 out = P1 ∧ text 4 11 out = F
  ∧ text 4 15 out = P2 ∧ text 4 19 out = P3
  ∧ out !! 23 = Some NUL
  ∧ take 23 out = "c"%char :: P0 ++ P1 ++ F ++ P2 ++ P3.
Proof.
  intros H0 H1 HF H2 H3.
  explode P0. explode P1. explode F. explode P2. explode P3. done.
Qed.

(** C2: after [cuid_create], one [cuid_init] and any number of [cuid_next]
    calls, whatever the timestamps, the identifier read out is 23 characters
    at fixed offsets: ['c'] at 0, the 6-character padded timestamp (of the
    last call) at 1..6, the 4-character padded counter at 7..10, the
    fingerprint bytes verbatim at 11..14, the two 4-character padded random
    values at 15..18 and 19..22, and the terminator at 23.  The characters
    outside the fingerprint are ['c'] and base-36 digits, so that no
    terminator precedes index 23 unless the fingerprint holds one. *)
Theorem cuid_value_layout (MWC_SYSTEM_RAND32 : nat → Z) fuel calls
    (fingerprint : buffer) id calls' t0 timestamps (destination : buffer) :
  cuid_create MWC_SYSTEM_RAND32 fuel calls fingerprint = Done (id, calls') →
  CUID_SIZE ≤ length destination →
  ∃ id1 id' r1 r2 out,
    cuid_init id t0 = Done id1
    ∧ cuid_nexts id1 timestamps = Done id'
    ∧ mwc_read_random (cuid_rnd1 id') = Done r1
    ∧ mwc_read_random (cuid_rnd2 id') = Done r2
    ∧ cuid_read id' destination = Done out
    ∧ out !! 0 = Some "c"%char
    ∧ text 6 1 out = pad_text (List.last timestamps t0) 6 "0"
    ∧ text 4 7 out = pad_text (cuid_read_counter (cuid_counter id')) 4 "0"
    ∧ text 4 11 out = take 4 fingerprint
    ∧ text 4 15 out = pad_text r1 4 "0"
    ∧ text 4 19 out = pad_text r2 4 "0"
    ∧ out !! 23 = Some NUL
    ∧ length (take 23 out) = 23
    ∧ Forall (λ c, c ∈ cuid_radix36_table)
        (text 6 1 out ++ text 4 7 out ++ text 4 15 out ++ text 4 19 out)
    ∧ (Forall (λ c, c ≠ NUL) (take 4 fingerprint) →
       Forall (λ c, c ≠ NUL) (take 23 out)).
Proof.
  intros Hc Hd.
  destruct (cuid_pure_read _ _ _ _ _ _ t0 timestamps destination Hc Hd)
    as (id1 & id' & r1 & r2 & E1 & E' & R1 & R2 & _ & Hread).
  apply cuid_create_eq in Hc as (_ & Hlen & _).
  rewrite rendering_app in Hread.
  exists id1, id', r1, r2. eexists. do 5 (split; [done|]).
  assert (6 < CUID_BASE36_RESULT_SIZE ∧ 4 < CUID_BASE36_RESULT_SIZE)
    as [H6 H4] by (cbv; lia).
  destruct (blocks_layout (pad_text (List.last timestamps t0) 6 "0")
    (pad_text (cuid_read_counter (cuid_counter id')) 4 "0")
    (take 4 fingerprint) (pad_text r1 4 "0") (pad_text r2 4 "0")
    (drop CUID_SIZE destination))
    as (L0 & L1 & L2 & L3 & L4 & L5 & L6 & L7);
    rewrite ?pad_text_length by done; try done.
  { rewrite length_take. unfold CUID_FINGERPRINT_SIZE in Hlen. lia. }
  cbn [app] in *. rewrite L1, L2, L3, L4, L5, L7.
  do 7 (split; [done|]).
  assert (length (take 4 fingerprint) = 4) as HF.
  { rewrite length_take. unfold CUID_FINGERPRINT_SIZE in Hlen. lia. }
  split.
  { cbn [length]. rewrite !length_app, !pad_text_length, HF by done. done. }
  split.
  { rewrite !Forall_app. by repeat split; apply pad_text_digits. }
  intros Hfp. constructor; [done|].
  rewrite !Forall_app.
  repeat split; try done;
    (eapply Forall_impl; [by apply pad_text_digits|]);
    apply radix36_table_visible.
Qed.

Lemma cuid_value_layout_witness :
  ∃ id calls',
    cuid_create (λ _, 5%Z) 1 0 (chars "fing" ++ [NUL]) = Done (id, calls')
    ∧ ∃ id1 id',
        cuid_init id 123456789 = Done id1
        ∧ cuid_nexts id1 [223456789%Z; 7%Z] = Done id'.
Proof.
  destruct (cuid_create_done (λ _, 5%Z) 1 0 (chars "fing" ++ [NUL]))
    as (id & calls' & H).
  { intros c. exists 0. split; [lia|done]. }
  { simpl. unfold CUID_FINGERPRINT_SIZE. lia. }
  exists id, calls'. split; [exact H|].
  destruct (cuid_value_layout _ _ _ _ _ _ 123456789 [223456789%Z; 7%Z]
              (fresh CUID_SIZE) H)
    as (id1 & id' & _ & _ & _ & E1 & E' & _).
  { unfold fresh. rewrite length_replicate. lia. }
  exists id1, id'. split; [exact E1|exact E'].
Defined.

(** C1: with the fingerprint bytes ["fing"], the identifier read after
    [cuid_init(id, 123456789)] starts with ["c21i3v90000fing"], and the one
    read after a following [cuid_next(id, 223456789)] starts with
    ["c3p1gd10001fing"]. *)
Theorem cuid_read_fing (MWC_SYSTEM_RAND32 : nat → Z) fuel calls id calls' :
  cuid_create MWC_SYSTEM_RAND32 fuel calls (chars "fing" ++ [NUL])
  = Done (id, calls') →
  ∃ id1 id2 cuid1 cuid2,
    cuid_init id 123456789 = Done id1
    ∧ cuid_read id1 (fresh CUID_SIZE) = Done cuid1
    ∧ take 15 cuid1 = chars "c21i3v90000fing"
    ∧ cuid_next id1 223456789 = Done id2
    ∧ cuid_read id2 (fresh CUID_SIZE) = Done cuid2
    ∧ take 15 cuid2 = chars "c3p1gd10001fing".
Proof.
  intros Hc.
  assert (CUID_SIZE ≤ length (fresh CUID_SIZE)) as Hd
    by (unfold fresh; rewrite length_replicate; lia).
  destruct (cuid_pure_read _ _ _ _ _ _ 123456789 [] (fresh CUID_SIZE) Hc Hd)
    as (id1 & ? & r1 & r2 & E1 & [= <-] & _ & _ & C1 & Hread1).
  destruct (cuid_pure_read _ _ _ _ _ _ 123456789 [223456789%Z] (fresh CUID_SIZE)
              Hc Hd)
    as (id1' & id2 & r1' & r2' & E1' & E2 & _ & _ & C2 & Hread2).
  rewrite E1 in E1'. injection E1' as <-.
  cbn [cuid_nexts] in E2. apply bind_Done in E2 as (id2' & E2 & [= ->]).
  exists id1, id2. eexists _, _.
  split; [done|]. split; [exact Hread1|]. split.
  { rewrite C1. reflexivity. }
  split; [done|]. split; [exact Hread2|].
  rewrite C2. reflexivity.
Qed.

Lemma cuid_read_fing_witness :
  ∃ id calls',
    cuid_create (λ _, 5%Z) 1 0 (chars "fing" ++ [NUL]) = Done (id, calls')
    ∧ ∃ id1 cuid1,
        cuid_init id 123456789 = Done id1
        ∧ cuid_read id1 (fresh CUID_SIZE) = Done cuid1
        ∧ take 15 cuid1 = chars "c21i3v90000fing".
Proof.
  destruct (cuid_create_done (λ _, 5%Z) 1 0 (chars "fing" ++ [NUL]))
    as (id & calls' & H).
  { intros c. exists 0. split; [lia|done]. }
  { simpl. unfold CUID_FINGERPRINT_SIZE. lia. }
  exists id, calls'. split; [exact H|].
  destruct (cuid_read_fing _ _ _ _ _ H)
    as (id1 & _ & cuid1 & _ & E1 & R1 & T1 & _).
  exists id1, cuid1. split; [exact E1|]. split; [exact R1|exact T1].
Defined.

Lemma digits36_length_le n k :
  (0 ≤ n < 36 ^ Z.of_nat (S k))%Z → length (digits36 n) ≤ S k.
Proof.
  intros Hn. rewrite <-digits36_lsd_length. by apply digits_lsd_length_le.
Qed.

Lemma digits36_length_gt n k :
  k ≤ 14 → (36 ^ Z.of_nat k ≤ n)%Z → k < length (digits36 n).
Proof.
  intros Hk Hn. rewrite <-digits36_lsd_length. by apply digits_lsd_length_gt.
Qed.

Lemma digits36_u32 n : u32 n → length (digits36 n) ≤ 7.
Proof. unfold u32. intros Hn. apply digits36_length_le. simpl. lia. Qed.

Lemma digits36_u64 n : (0 ≤ n < 2 ^ 64)%Z → length (digits36 n) ≤ 13.
Proof. intros Hn. apply digits36_length_le. simpl. lia. Qed.

(** The text [cuid_base36] writes denotes the number it is given. *)
Lemma digits36_value n : (0 ≤ n < 2 ^ 64)%Z → base36_value (digits36 n) = n.
Proof.
  intros Hn. unfold digits36. rewrite base36_value_reverse.
  apply digits_lsd_value. simpl. lia.
Qed.

(** ** The text of [cuid_base36_pad] against the plain encoding *)

Lemma text_app_here (pre s rest : buffer) :
  text (length s) (length pre) (pre ++ s ++ rest) = s.
Proof. unfold text. by rewrite drop_app_length, take_app_length. Qed.

Lemma cuid_base36_text n (b : buffer) ofs :
  ofs + length (digits36 n) < length b →
  ∃ b1, cuid_base36 n b ofs = Done (length (digits36 n), b1)
        ∧ text (length (digits36 n)) ofs b1 = digits36 n.
Proof.
  intros Hlen. rewrite cuid_base36_eq by done. eexists. split; [done|].
  rewrite <-(length_take_le b ofs) at 1 by lia. apply text_app_here.
Qed.

Lemma cuid_base36_pad_text n (b : buffer) ofs w pad :
  w < CUID_BASE36_RESULT_SIZE →
  ofs + w `max` length (digits36 n) < length b →
  ∃ b2, cuid_base36_pad n b ofs w pad = Done (w, b2)
        ∧ length b2 = length b
        ∧ take ofs b2 = take ofs b
        ∧ text w ofs b2 = padded n w pad
        ∧ b2 !! (ofs + w) = Some NUL.
Proof.
  intros Hw Hlen.
  destruct (cuid_base36_pad_take n b ofs w pad Hw Hlen)
    as (b2 & E & Hl & Ht & Hn).
  exists b2. repeat (split; [done|]).
  assert (length (take ofs b) = ofs) as Hpre by (rewrite length_take; lia).
  split; [|split; [|done]].
  - rewrite <-(take_take_drop b2 ofs w) in Ht.
    apply app_inj_1 in Ht as [Ht _]; [done|].
    rewrite !length_take. lia.
  - unfold text. rewrite take_drop_commute, Ht.
    by rewrite drop_app_length'.
Qed.

Lemma padded_visible n w pad :
  pad ≠ NUL → Forall (λ c, c ≠ NUL) (padded n w pad).
Proof.
  intros Hp.
  assert (Forall (λ c, c ≠ NUL) (digits36 n)) as Hd.
  { unfold digits36. apply Forall_reverse.
    eapply Forall_impl; [apply digits_lsd_digits|].
    apply radix36_table_visible. }
  unfold padded. simpl. case_decide.
  - apply Forall_app. split; [by apply Forall_replicate|done].
  - by apply Forall_drop.
Qed.

(** C3, as the code has it: for every 64-bit [n], every width up to 15 and
    every pad character, [cuid_base36_pad] returns the width and leaves that
    many characters and the terminator after them (none of them a terminator
    unless the pad character is one): the plain encoding of [n] (the text of
    [cuid_base36], which denotes [n]) left-padded when it is shorter,
    unchanged when it is as long, and cut down to its last [w] characters
    when it is longer; 1234567890 at width 4 gives ["12oi"]. *)
Theorem cuid_base36_pad_width n (b : buffer) ofs w pad :
  (0 ≤ n < 2 ^ 64)%Z →
  w < CUID_BASE36_RESULT_SIZE →
  ofs + CUID_BASE36_RESULT_SIZE ≤ length b →
  ∃ len b1 b2,
    cuid_base36 n b ofs = Done (len, b1)
    ∧ base36_value (text len ofs b1) = n
    ∧ cuid_base36_pad n b ofs w pad = Done (w, b2)
    ∧ length (text w ofs b2) = w
    ∧ b2 !! (ofs + w) = Some NUL
    ∧ (pad ≠ NUL → Forall (λ c, c ≠ NUL) (text w ofs b2))
    ∧ (len < w → text w ofs b2 = replicate (w - len) pad ++ text len ofs b1)
    ∧ (len = w → text w ofs b2 = text len ofs b1)
    ∧ (w < len → text w ofs b2 = drop (len - w) (text len ofs b1))
    ∧ pad_text 1234567890 4 "0" = chars "12oi".
Proof.
  intros Hn Hw Hb. pose proof (digits36_length n) as Hd.
  unfold CUID_BASE36_RESULT_SIZE in *.
  destruct (cuid_base36_text n b ofs) as (b1 & E1 & T1); [lia|].
  destruct (cuid_base36_pad_text n b ofs w pad) as (b2 & E2 & _ & _ & T2 & N2);
    [done|lia|].
  exists (length (digits36 n)), b1, b2.
  rewrite T1, T2. split; [done|]. split; [by apply digits36_value|].
  split; [done|]. split; [apply padded_length|]. split; [done|].
  split; [apply padded_visible|].
  unfold padded. simpl.
  split; [|split; [|split]].
  - intros H. by rewrite decide_True.
  - intros H. rewrite decide_False by lia.
    by replace (length (digits36 n) - w) with 0 by lia.
  - intros H. by rewrite decide_False by lia.
  - reflexivity.
Qed.

Lemma cuid_base36_pad_width_witness :
  ∃ b2, cuid_base36_pad 1234567890 (fresh 16) 0 4 "0" = Done (4, b2)
        ∧ text 4 0 b2 = chars "12oi" ∧ b2 !! 4 = Some NUL.
Proof.
  destruct (cuid_base36_pad_width 1234567890 (fresh 16) 0 4 "0")
    as (len & b1 & b2 & _ & _ & E2 & _ & N2 & _); [lia|cbv; lia|cbv; lia|].
  exists b2. split; [exact E2|].
  assert (Done (4, b2) = cuid_base36_pad 1234567890 (fresh 16) 0 4 "0") as H
    by (symmetry; exact E2).
  vm_compute in H. injection H as ->. split; reflexivity.
Defined.

(** C3 as stated fails for a width above 15: the call stops in the fatal
    branch and produces no text. *)
Lemma cuid_base36_pad_width_16 :
  cuid_base36_pad 0 (fresh CUID_BASE36_RESULT_SIZE) 0 16 "0" = Stop PadTooWide
  ∧ ¬ ∃ len b2,
        cuid_base36_pad 0 (fresh CUID_BASE36_RESULT_SIZE) 0 16 "0"
        = Done (len, b2).
Proof. split; [reflexivity|]. intros (len & b2 & H). discriminate H. Qed.

(** ** The fatal branch of [cuid_base36_pad] in the assemblers *)

Lemma no_pad_fault_Done {A} (a : A) : no_pad_fault (Done a).
Proof. done. Qed.

Lemma no_pad_fault_bind {A B} (m : outcome A) (f : A → outcome B) :
  no_pad_fault m → (∀ a, no_pad_fault (f a)) → no_pad_fault (m ≫= f).
Proof.
  destruct m as [a|e]; intros Hm Hf; [apply Hf|].
  unfold no_pad_fault in *. intros H. apply Hm.
  by injection H as ->.
Qed.

Lemma no_pad_fault_load {A} (a : list A) i : no_pad_fault (load a i).
Proof. unfold load. by destruct (a !! i). Qed.

Lemma no_pad_fault_store {A} (a : list A) i x : no_pad_fault (store a i x).
Proof. unfold store. by case_decide. Qed.

Lemma no_pad_fault_for_loop {St} count start
    (body : nat → St → outcome St) s :
  (∀ i s, no_pad_fault (body i s)) → no_pad_fault (for_loop count start body s).
Proof.
  intros Hb. revert start s. induction count as [|count IH]; intros start s.
  - done.
  - simpl. apply no_pad_fault_bind; [apply Hb|]. intros a. apply IH.
Qed.

Lemma no_pad_fault_pad n (b : buffer) ofs w pad :
  w < CUID_BASE36_RESULT_SIZE → no_pad_fault (cuid_base36_pad n b ofs w pad).
Proof. intros Hw H. apply cuid_base36_pad_fatal in H. lia. Qed.

(** Walks through a sequence of binds, loops, loads, stores and
    [cuid_base36_pad] calls at a constant width. *)
Ltac no_pad_fault_with known :=
  repeat first
    [ known
    | apply no_pad_fault_Done
    | apply no_pad_fault_load
    | apply no_pad_fault_store
    | apply no_pad_fault_pad; cbv; lia
    | apply no_pad_fault_for_loop; intros ? ?
    | apply no_pad_fault_bind;
      [|let a := fresh "a" in intros a; try destruct a as [? ?]] ].

Ltac no_pad_fault := no_pad_fault_with fail.

Lemma no_pad_fault_mwc_init r : no_pad_fault (mwc_init r).
Proof. unfold mwc_init. no_pad_fault. Qed.

Lemma no_pad_fault_mwc_next_random s : no_pad_fault (mwc_next_random s).
Proof.
  unfold mwc_next_random. apply no_pad_fault_bind; [apply no_pad_fault_load|].
  intros qv. case_decide; no_pad_fault.
Qed.

Lemma no_pad_fault_mwc_read_random s : no_pad_fault (mwc_read_random s).
Proof. apply no_pad_fault_load. Qed.

Lemma no_pad_fault_gen_value_string id :
  no_pad_fault (cuid_gen_value_string id).
Proof.
  unfold cuid_gen_value_string.
  no_pad_fault_with ltac:(apply no_pad_fault_mwc_read_random).
Qed.

Lemma no_pad_fault_fingerprint error_code values pid (result : buffer) ofs :
  no_pad_fault (cuid_get_fingerprint error_code values pid result ofs).
Proof. unfold cuid_get_fingerprint. case_decide; [done|]. no_pad_fault. Qed.

(** C7: [cuid_base36_pad] ends in its fatal branch exactly when the width is
    above 15, and no call of the assemblers, which pass the widths 6, 4 and
    (for the two halves of the fingerprint) 2, ends there. *)
Theorem pad_fatal_unreachable :
  (∀ n (b : buffer) ofs w pad,
     cuid_base36_pad n b ofs w pad = Stop PadTooWide ↔ 15 < w)
  ∧ (∀ src counter now error_code values pid calls (result : buffer),
       cuid src counter now error_code values pid calls result
       ≠ Stop PadTooWide)
  ∧ (∀ error_code values pid (result : buffer) ofs,
       cuid_get_fingerprint error_code values pid result ofs ≠ Stop PadTooWide)
  ∧ (∀ id, cuid_gen_value_string id ≠ Stop PadTooWide)
  ∧ (∀ id timestamp, cuid_init id timestamp ≠ Stop PadTooWide)
  ∧ (∀ id timestamp, cuid_next id timestamp ≠ Stop PadTooWide).
Proof.
  split.
  { intros n b ofs w pad. rewrite cuid_base36_pad_fatal.
    unfold CUID_BASE36_RESULT_SIZE. lia. }
  split.
  { intros src counter now error_code values pid calls result.
    change (no_pad_fault
      (cuid src counter now error_code values pid calls result)).
    unfold cuid, rand32.
    no_pad_fault_with ltac:(apply no_pad_fault_fingerprint). }
  split; [intros; apply no_pad_fault_fingerprint|].
  split; [intros; apply no_pad_fault_gen_value_string|].
  split.
  - intros id timestamp.
    change (no_pad_fault (cuid_init id timestamp)). unfold cuid_init.
    no_pad_fault_with
      ltac:(first [apply no_pad_fault_mwc_init
                  |apply no_pad_fault_gen_value_string]).
  - intros id timestamp.
    change (no_pad_fault (cuid_next id timestamp)). unfold cuid_next.
    no_pad_fault_with
      ltac:(first [apply no_pad_fault_mwc_next_random
                  |apply no_pad_fault_gen_value_string]).
Qed.

(** ** Default fingerprint *)

Lemma sum_loop (values : list Z) count start acc :
  start + count ≤ length values →
  for_loop count start (λ i hostname_number,
    v ← load values i;
    Done ((hostname_number + v) `mod` 2 ^ 64)%Z) acc
  = Done (fold_left (λ acc v, (acc + v) `mod` 2 ^ 64)%Z
            (take count (drop start values)) acc).
Proof.
  revert start acc. induction count as [|count IH]; intros start acc Hl.
  - done.
  - simpl.
    destruct (lookup_lt_is_Some_2 values start) as [v Hv]; [lia|].
    rewrite (load_Some _ _ _ Hv). run. rewrite IH by lia.
    by rewrite (drop_S _ _ _ Hv).
Qed.

Lemma sum_bound (l : list Z) acc :
  Forall u32 l → (0 ≤ acc)%Z →
  (acc + Z.of_nat (length l) * 2 ^ 32 < 2 ^ 64)%Z →
  (0 ≤ fold_left (λ acc v, (acc + v) `mod` 2 ^ 64) l acc
     ≤ acc + Z.of_nat (length l) * (2 ^ 32 - 1))%Z.
Proof.
  revert acc. induction l as [|v l IH]; intros acc Hl Ha Hb; simpl; [lia|].
  apply Forall_cons in Hl as [Hv Hl]. unfold u32 in Hv.
  simpl length in Hb. rewrite Z.mod_small by lia.
  specialize (IH (acc + v)%Z Hl). simpl length. lia.
Qed.

Lemma hostname_sum_bound (values : list Z) :
  Forall u32 values → (0 ≤ hostname_sum values < 36 ^ 8)%Z.
Proof.
  intros Hv. unfold hostname_sum.
  pose proof (sum_bound (take (CUID_HOSTNAME_LENGTH / 4) values) 0) as H.
  assert (length (take (CUID_HOSTNAME_LENGTH / 4) values) ≤ 64) as Hl.
  { rewrite length_take. change (CUID_HOSTNAME_LENGTH / 4) with 64. lia. }
  destruct H as [H1 H2]; [by apply Forall_take|lia|lia|]. lia.
Qed.

(** With room for its scratch digits the fingerprint function writes four
    characters and the terminator at [ofs] and keeps what precedes them. *)
Lemma cuid_get_fingerprint_take values pid (b : buffer) ofs :
  CUID_HOSTNAME_LENGTH / 4 ≤ length values →
  ofs + 2 `max` length (digits36 (hostname_sum values)) < length b →
  ofs + 2 + 2 `max` length (digits36 (pid `mod` 2 ^ 64)) < length b →
  ∃ b', cuid_get_fingerprint 0 values pid b ofs = Done (4, b')
        ∧ length b' = length b
        ∧ take (ofs + 4) b'
          = take ofs b ++ pad_text (hostname_sum values) 2 "0"
            ++ pad_text (pid `mod` 2 ^ 64) 2 "0"
        ∧ b' !! (ofs + 4) = Some NUL.
Proof.
  intros Hv H1 H2. unfold cuid_get_fingerprint.
  rewrite decide_False by (intros H; by apply H).
  rewrite sum_loop by (change (CUID_HOSTNAME_LENGTH / 4) with 64 in *; lia).
  run. rewrite drop_0. fold (hostname_sum values).
  assert (2 < CUID_BASE36_RESULT_SIZE) as Hw by (cbv; lia).
  destruct (cuid_base36_pad_take (hostname_sum values) b ofs 2 "0" Hw H1)
    as (b1 & -> & Hl1 & Ht1 & _). run.
  destruct (cuid_base36_pad_take (pid `mod` 2 ^ 64) b1 (ofs + 2) 2 "0" Hw)
    as (b2 & -> & Hl2 & Ht2 & Hn2); [lia|]. run.
  exists b2. split; [done|]. split; [lia|].
  rewrite !pad_text_eq by done.
  replace (ofs + 2 + 2) with (ofs + 4) in * by lia.
  split; [|done]. by rewrite Ht2, Ht1, <-(assoc_L (++)).
Qed.

(** Without that room it writes outside the array. *)
Lemma cuid_get_fingerprint_short values pid (b : buffer) ofs :
  CUID_HOSTNAME_LENGTH / 4 ≤ length values →
  length b ≤ ofs + 2 `max` length (digits36 (hostname_sum values))
  ∨ length b ≤ ofs + 2 + 2 `max` length (digits36 (pid `mod` 2 ^ 64)) →
  cuid_get_fingerprint 0 values pid b ofs = Stop OutOfBounds.
Proof.
  intros Hv H. unfold cuid_get_fingerprint.
  rewrite decide_False by (intros H'; by apply H').
  rewrite sum_loop by (change (CUID_HOSTNAME_LENGTH / 4) with 64 in *; lia).
  run. rewrite drop_0. fold (hostname_sum values).
  assert (2 < CUID_BASE36_RESULT_SIZE) as Hw by (cbv; lia).
  destruct (decide (length b
    ≤ ofs + 2 `max` length (digits36 (hostname_sum values)))) as [H1|H1].
  { by rewrite cuid_base36_pad_short. }
  destruct H as [H|H]; [lia|].
  destruct (cuid_base36_pad_take (hostname_sum values) b ofs 2 "0" Hw)
    as (b1 & -> & Hl1 & _); [lia|]. run.
  rewrite cuid_base36_pad_short; [done|done|lia].
Qed.

(** ** Quick mode *)

Section Quick.
Variable MWC_SYSTEM_RAND32 : nat → Z.

Lemma fingerprint_text_length values pid :
  length (fingerprint_text values pid) = 4.
Proof.
  unfold fingerprint_text. rewrite length_app, !pad_text_length; [done|..];
    cbv; lia.
Qed.

(** When every scratch write of [cuid] falls inside the array it is given,
    the array ends up holding the rendering of the collaborators' values and
    the terminator. *)
Lemma cuid_fits counter now values pid calls (result : buffer) :
  let counter' := ((counter + 1) `mod` 2 ^ 32)%Z in
  let r1 := draw MWC_SYSTEM_RAND32 calls in
  let r2 := draw MWC_SYSTEM_RAND32 (S calls) in
  CUID_HOSTNAME_LENGTH / 4 ≤ length values →
  CUID_SIZE ≤ length result →
  1 + 6 `max` length (digits36 now) < length result →
  7 + 4 `max` length (digits36 counter') < length result →
  11 + 2 `max` length (digits36 (hostname_sum values)) < length result →
  13 + 2 `max` length (digits36 (pid `mod` 2 ^ 64)) < length result →
  15 + 4 `max` length (digits36 r1) < length result →
  19 + 4 `max` length (digits36 r2) < length result →
  ∃ result',
    cuid MWC_SYSTEM_RAND32 counter now 0 values pid calls result
    = Done (23, result', counter', S (S calls))
    ∧ length result' = length result
    ∧ take 23 result'
      = rendering (pad_text now 6 "0") counter' (fingerprint_text values pid)
          r1 r2
    ∧ result' !! 23 = Some NUL.
Proof.
  intros counter' r1 r2 Hv Hr Fn Fc Fh Fp F1 F2.
  unfold CUID_SIZE in Hr. unfold cuid, rand32.
  fold (draw MWC_SYSTEM_RAND32 calls) (draw MWC_SYSTEM_RAND32 (S calls)).
  fold counter' r1 r2.
  assert (6 < CUID_BASE36_RESULT_SIZE ∧ 4 < CUID_BASE36_RESULT_SIZE)
    as [H6 H4] by (cbv; lia).
  rewrite store_lt by lia. run.
  destruct (cuid_base36_pad_take now (<[0:="c"%char]> result) 1 6 "0" H6)
    as (b1 & -> & L1 & T1 & _); [rewrite length_insert; lia|]. run.
  rewrite length_insert in L1.
  destruct (cuid_base36_pad_take counter' b1 (1 + 6) 4 "0" H4)
    as (b2 & -> & L2 & T2 & _); [simpl; lia|]. run.
  destruct (cuid_get_fingerprint_take values pid b2 (1 + 6 + 4))
    as (b3 & -> & L3 & T3 & _); [done|simpl; lia|simpl; lia|]. run.
  destruct (cuid_base36_pad_take r1 b3 (1 + 6 + 4 + 4) 4 "0" H4)
    as (b4 & -> & L4 & T4 & _); [simpl; lia|]. run.
  destruct (cuid_base36_pad_take r2 b4 (1 + 6 + 4 + 4 + 4) 4 "0" H4)
    as (b5 & -> & L5 & T5 & _); [simpl; lia|]. run.
  rewrite store_lt by (unfold CUID_SIZE; lia). run.
  eexists. split; [done|]. rewrite length_insert. split; [lia|].
  split; [|apply list_lookup_insert_eq; unfold CUID_SIZE; lia].
  rewrite take_insert_ge by (unfold CUID_SIZE; lia).
  change (1 + 6 + 4 + 4 + 4 + 4) with 23 in T5. rewrite T5, T4, T3, T2, T1.
  rewrite (take_S_insert result 0) by lia. rewrite take_0.
  rewrite <-!pad_text_eq by done. unfold rendering.
  rewrite (take_ge (fingerprint_text values pid))
    by (rewrite fingerprint_text_length; lia).
  unfold fingerprint_text. cbn [app]. by rewrite <-!(assoc_L (++)).
Qed.

(** Three characters of room behind the 24 are enough for that. *)
Lemma cuid_eq counter now values pid calls (result : buffer) :
  CUID_HOSTNAME_LENGTH / 4 ≤ length values →
  CUID_SIZE + 3 ≤ length result →
  ∃ result',
    cuid MWC_SYSTEM_RAND32 counter now 0 values pid calls result
    = Done (23, result', ((counter + 1) `mod` 2 ^ 32)%Z, S (S calls))
    ∧ length result' = length result
    ∧ take 23 result'
      = rendering (pad_text now 6 "0") ((counter + 1) `mod` 2 ^ 32)
          (fingerprint_text values pid)
          (draw MWC_SYSTEM_RAND32 calls) (draw MWC_SYSTEM_RAND32 (S calls))
    ∧ result' !! 23 = Some NUL.
Proof.
  intros Hv Hr. unfold CUID_SIZE in Hr.
  pose proof (digits36_length now) as Dn.
  pose proof (digits36_length ((counter + 1) `mod` 2 ^ 32)) as Dc.
  pose proof (digits36_length (hostname_sum values)) as Dh.
  pose proof (digits36_u64 (pid `mod` 2 ^ 64)
                (Z.mod_pos_bound pid (2 ^ 64) eq_refl)) as Dp.
  pose proof (digits36_u32 _ (draw_u32 MWC_SYSTEM_RAND32 calls)) as D1.
  pose proof (digits36_u32 _ (draw_u32 MWC_SYSTEM_RAND32 (S calls))) as D2.
  apply cuid_fits; unfold CUID_SIZE; try done; lia.
Qed.

(** On an array of exactly [CUID_SIZE] characters the scratch digits of the
    second random value are written outside it as soon as that value has
    more than four digits. *)
Lemma cuid_overflow counter now values pid calls (result : buffer) :
  CUID_HOSTNAME_LENGTH / 4 ≤ length values → Forall u32 values →
  (0 ≤ pid < 2 ^ 31)%Z →
  length result = CUID_SIZE →
  (36 ^ 4 ≤ draw MWC_SYSTEM_RAND32 (S calls))%Z →
  cuid MWC_SYSTEM_RAND32 counter now 0 values pid calls result
  = Stop OutOfBounds.
Proof.
  intros Hv Hu Hp Hr Hd. unfold CUID_SIZE in Hr. unfold cuid, rand32.
  fold (draw MWC_SYSTEM_RAND32 calls) (draw MWC_SYSTEM_RAND32 (S calls)).
  set (counter' := ((counter + 1) `mod` 2 ^ 32)%Z).
  assert (6 < CUID_BASE36_RESULT_SIZE ∧ 4 < CUID_BASE36_RESULT_SIZE)
    as [H6 H4] by (cbv; lia).
  pose proof (digits36_length now) as Dn.
  pose proof (digits36_length counter') as Dc.
  pose proof (digits36_length_le (hostname_sum values) 7
                (hostname_sum_bound values Hu)) as Dh.
  assert (length (digits36 (pid `mod` 2 ^ 64)) ≤ 6) as Dp.
  { apply digits36_length_le. rewrite Z.mod_small by lia. simpl. lia. }
  pose proof (digits36_u32 _ (draw_u32 MWC_SYSTEM_RAND32 calls)) as D1.
  pose proof (digits36_length_gt _ 4 ltac:(lia) Hd) as D2.
  rewrite store_lt by lia. run.
  destruct (cuid_base36_pad_take now (<[0:="c"%char]> result) 1 6 "0" H6)
    as (b1 & -> & L1 & T1 & _); [rewrite length_insert; lia|]. run.
  rewrite length_insert in L1.
  destruct (cuid_base36_pad_take counter' b1 (1 + 6) 4 "0" H4)
    as (b2 & -> & L2 & T2 & _); [simpl; lia|]. run.
  destruct (cuid_get_fingerprint_take values pid b2 (1 + 6 + 4))
    as (b3 & -> & L3 & T3 & _); [done|simpl; lia|simpl; lia|]. run.
  destruct (cuid_base36_pad_take (draw MWC_SYSTEM_RAND32 calls) b3
              (1 + 6 + 4 + 4) 4 "0" H4)
    as (b4 & -> & L4 & T4 & _); [simpl; lia|]. run.
  rewrite cuid_base36_pad_short; [done|done|simpl; lia].
Qed.

(** On any array, a call of [cuid] that returns has kept every write inside
    the array, and has left what [cuid_fits] says. *)
Lemma cuid_Done counter now values pid calls (result : buffer)
    n result' counter' calls' :
  CUID_HOSTNAME_LENGTH / 4 ≤ length values →
  cuid MWC_SYSTEM_RAND32 counter now 0 values pid calls result
  = Done (n, result', counter', calls') →
  n = 23
  ∧ counter' = ((counter + 1) `mod` 2 ^ 32)%Z
  ∧ calls' = S (S calls)
  ∧ length result' = length result
  ∧ take 23 result'
    = rendering (pad_text now 6 "0") ((counter + 1) `mod` 2 ^ 32)
        (fingerprint_text values pid)
        (draw MWC_SYSTEM_RAND32 calls) (draw MWC_SYSTEM_RAND32 (S calls))
  ∧ result' !! 23 = Some NUL.
Proof.
  intros Hv H.
  assert (CUID_SIZE ≤ length result
    ∧ 1 + 6 `max` length (digits36 now) < length result
    ∧ 7 + 4 `max` length (digits36 ((counter + 1) `mod` 2 ^ 32))
      < length result
    ∧ 11 + 2 `max` length (digits36 (hostname_sum values)) < length result
    ∧ 13 + 2 `max` length (digits36 (pid `mod` 2 ^ 64)) < length result
    ∧ 15 + 4 `max` length (digits36 (draw MWC_SYSTEM_RAND32 calls))
      < length result
    ∧ 19 + 4 `max` length (digits36 (draw MWC_SYSTEM_RAND32 (S calls)))
      < length result) as (Fr & Fn & Fc & Fh & Fp & F1 & F2).
  { revert H. unfold cuid, rand32.
    fold (draw MWC_SYSTEM_RAND32 calls) (draw MWC_SYSTEM_RAND32 (S calls)).
    set (counter1 := ((counter + 1) `mod` 2 ^ 32)%Z).
    assert (6 < CUID_BASE36_RESULT_SIZE ∧ 4 < CUID_BASE36_RESULT_SIZE)
      as [H6 H4] by (cbv; lia).
    destruct (decide (0 < length result)) as [L0|L0];
      [|by rewrite store_ge by lia].
    rewrite store_lt by done. run.
    destruct (decide (1 + 6 `max` length (digits36 now) < length result))
      as [Fn|Fn];
      [|by rewrite cuid_base36_pad_short by (rewrite ?length_insert; done || lia)].
    destruct (cuid_base36_pad_take now (<[0:="c"%char]> result) 1 6 "0" H6)
      as (b1 & -> & L1 & _); [rewrite length_insert; lia|]. run.
    rewrite length_insert in L1.
    destruct (decide (7 + 4 `max` length (digits36 counter1) < length result))
      as [Fc|Fc];
      [|by rewrite cuid_base36_pad_short by (done || simpl; lia)].
    destruct (cuid_base36_pad_take counter1 b1 (1 + 6) 4 "0" H4)
      as (b2 & -> & L2 & _); [simpl; lia|]. run.
    destruct (decide
      (11 + 2 `max` length (digits36 (hostname_sum values)) < length result
       ∧ 13 + 2 `max` length (digits36 (pid `mod` 2 ^ 64)) < length result))
      as [[Fh Fp]|Ff];
      [|by rewrite cuid_get_fingerprint_short by (done || simpl; lia)].
    destruct (cuid_get_fingerprint_take values pid b2 (1 + 6 + 4))
      as (b3 & -> & L3 & _); [done|simpl; lia|simpl; lia|]. run.
    destruct (decide
      (15 + 4 `max` length (digits36 (draw MWC_SYSTEM_RAND32 calls))
       < length result)) as [F1|F1];
      [|by rewrite cuid_base36_pad_short by (done || simpl; lia)].
    destruct (cuid_base36_pad_take (draw MWC_SYSTEM_RAND32 calls) b3
                (1 + 6 + 4 + 4) 4 "0" H4)
      as (b4 & -> & L4 & _); [simpl; lia|]. run.
    destruct (decide
      (19 + 4 `max` length (digits36 (draw MWC_SYSTEM_RAND32 (S calls)))
       < length result)) as [F2|F2];
      [|by rewrite cuid_base36_pad_short by (done || simpl; lia)].
    intros _. unfold CUID_SIZE. lia. }
  destruct (cuid_fits counter now values pid calls result Hv Fr Fn Fc Fh Fp F1 F2)
    as (r & E & Hl & Ht & H23).
  rewrite E in H. by injection H as <- <- <- <-.
Qed.

End Quick.

(** ** The two modes against each other *)

Lemma pure_rendering_eq (id : cuid_t) timestamp r1 r2 :
  cuid_wf id →
  mwc_read_random (cuid_rnd1 id) = Done r1 →
  mwc_read_random (cuid_rnd2 id) = Done r2 →
  ∃ id', pure_rendering id timestamp = Done id'
    ∧ take 23 (cuid_value id')
      = rendering (pad_text timestamp 6 "0")
          (cuid_read_counter (cuid_counter id)) (cuid_fingerprint id) r1 r2.
Proof.
  intros Hwf Hr1 Hr2. pose proof Hwf as [Hfp Hcs Hw1 Hw2 Hr1s Hr2s Hv Hts].
  unfold pure_rendering.
  destruct (pad_block timestamp (cuid_timestamp id) CUID_TIMESTAMP_LENGTH "0")
    as (ts' & -> & Hts' & Ht);
    [unfold CUID_BASE36_RESULT_SIZE, CUID_TIMESTAMP_LENGTH; lia|done|].
  run.
  match goal with |- ∃ _, cuid_gen_value_string ?x = _ ∧ _ =>
    set (id1 := x) end.
  assert (cuid_wf id1) as Hwf1 by (split; unfold id1; members; done).
  destruct (cuid_gen_value_string_eq id1 r1 r2 Hwf1 Hr1 Hr2)
    as (cs & r1s & r2s & -> & _).
  eexists. split; [done|]. unfold id1. members.
  unfold CUID_TIMESTAMP_LENGTH in Ht.
  rewrite Ht, <-pad_text_eq by (cbv; lia).
  apply take_app_length'. rewrite rendering_length; [done| |rewrite Hfp; cbv; lia].
  apply pad_text_length. cbv. lia.
Qed.

(** With room for the scratch digits of quick mode, the two modes render
    the same 23 characters from the same timestamp, counter, fingerprint
    bytes and random values. *)
Lemma cuid_matches_pure_rendering (MWC_SYSTEM_RAND32 : nat → Z) (id : cuid_t)
    counter now values pid calls (result : buffer) :
  cuid_wf id →
  cuid_read_counter (cuid_counter id) = ((counter + 1) `mod` 2 ^ 32)%Z →
  take 4 (cuid_fingerprint id) = fingerprint_text values pid →
  mwc_read_random (cuid_rnd1 id) = Done (draw MWC_SYSTEM_RAND32 calls) →
  mwc_read_random (cuid_rnd2 id) = Done (draw MWC_SYSTEM_RAND32 (S calls)) →
  CUID_HOSTNAME_LENGTH / 4 ≤ length values →
  CUID_SIZE + 3 ≤ length result →
  ∃ id' result' counter' calls',
    pure_rendering id now = Done id'
    ∧ cuid MWC_SYSTEM_RAND32 counter now 0 values pid calls result
      = Done (23, result', counter', calls')
    ∧ take 23 result' = take 23 (cuid_value id')
    ∧ length (take 23 result') = 23.
Proof.
  intros Hwf Hc Hfp Hr1 Hr2 Hv Hr.
  destruct (pure_rendering_eq id now _ _ Hwf Hr1 Hr2) as (id' & E & Hp).
  destruct (cuid_eq MWC_SYSTEM_RAND32 counter now values pid calls result Hv Hr)
    as (result' & Eq & Hl & Ht & _).
  exists id', result'. eexists _, _. split; [done|]. split; [done|].
  rewrite Ht, Hp, Hc. unfold rendering. rewrite Hfp.
  rewrite (take_ge (fingerprint_text values pid))
    by (rewrite fingerprint_text_length; lia).
  split; [done|]. cbn [length].
  rewrite !length_app, !pad_text_length, fingerprint_text_length by (cbv; lia).
  done.
Qed.

(** ** The scratch digits of quick mode and of the default fingerprint *)

Lemma flat_state_read q c : mwc_read_random (flat_state q c) = Done q.
Proof.
  unfold mwc_read_random, flat_state. simpl. apply load_Some.
  apply lookup_replicate_2. pose proof MWC_CYCLE_eq. lia.
Qed.

Lemma pure_example_wf : cuid_wf pure_example.
Proof.
  split; try done; apply flat_state_wf; unfold u32; lia.
Qed.

(** C10, at an array of [CUID_SIZE] characters and a second random value of
    [36 ^ 4]: [cuid_base36] writes the five digits ["10000"] at
    [result[19..23]] and their terminator at [result[24]], outside the array
    (with three more characters the same call returns 23 and terminates the
    string at index 23). *)
Theorem cuid_writes_past_result :
  cuid zero_then_10000 0 1700000000 0 localhost_values 4242 0 (fresh CUID_SIZE)
  = Stop OutOfBounds
  ∧ cuid_base36 1679616 (fresh CUID_SIZE) 19 = Stop OutOfBounds
  ∧ cuid zero_then_10000 0 1700000000 0 localhost_values 4242 0
      (fresh (CUID_SIZE + 3))
    = Done (23, chars "cs44we800014c9u00000000" ++ fresh 4, 1%Z, 2).
Proof. repeat split; vm_compute; reflexivity. Qed.

(** C6: from the same timestamp, the same counter value, the same four
    fingerprint bytes and the same two random values, quick mode and the
    rendering of pure mode ([cuid_gen_value_string] on a context with the
    timestamp stamped) leave the same 23 characters.  Pure mode always
    returns; [cuid] returns on every array with three characters of room
    behind the 24, and whenever it returns, on any array, its 23 characters
    are those of pure mode and the terminator follows them. *)
Theorem quick_mode_matches_pure_mode (MWC_SYSTEM_RAND32 : nat → Z)
    (id : cuid_t) counter now values pid calls (result : buffer) :
  cuid_wf id →
  cuid_read_counter (cuid_counter id) = ((counter + 1) `mod` 2 ^ 32)%Z →
  take 4 (cuid_fingerprint id) = fingerprint_text values pid →
  mwc_read_random (cuid_rnd1 id) = Done (draw MWC_SYSTEM_RAND32 calls) →
  mwc_read_random (cuid_rnd2 id) = Done (draw MWC_SYSTEM_RAND32 (S calls)) →
  CUID_HOSTNAME_LENGTH / 4 ≤ length values →
  ∃ id',
    pure_rendering id now = Done id'
    ∧ length (take 23 (cuid_value id')) = 23
    ∧ (CUID_SIZE + 3 ≤ length result →
       ∃ result' counter' calls',
         cuid MWC_SYSTEM_RAND32 counter now 0 values pid calls result
         = Done (23, result', counter', calls')
         ∧ take 23 result' = take 23 (cuid_value id'))
    ∧ (∀ n result' counter' calls',
         cuid MWC_SYSTEM_RAND32 counter now 0 values pid calls result
         = Done (n, result', counter', calls') →
         n = 23 ∧ take 23 result' = take 23 (cuid_value id')
         ∧ result' !! 23 = Some NUL).
Proof.
  intros Hwf Hc Hfp Hr1 Hr2 Hv.
  destruct (pure_rendering_eq id now _ _ Hwf Hr1 Hr2) as (id' & E & Hp).
  assert (rendering (pad_text now 6 "0") ((counter + 1) `mod` 2 ^ 32)
            (fingerprint_text values pid) (draw MWC_SYSTEM_RAND32 calls)
            (draw MWC_SYSTEM_RAND32 (S calls))
          = take 23 (cuid_value id')) as Hsame.
  { rewrite Hp, Hc. unfold rendering. rewrite Hfp.
    by rewrite (take_ge (fingerprint_text values pid))
      by (rewrite fingerprint_text_length; lia). }
  exists id'. split; [done|]. split.
  { rewrite <-Hsame. cbn [rendering length].
    rewrite !length_app, !pad_text_length, length_take,
      fingerprint_text_length by (cbv; lia).
    done. }
  split.
  - intros Hr.
    destruct (cuid_eq MWC_SYSTEM_RAND32 counter now values pid calls result
                Hv Hr) as (result' & Eq & _ & Ht & _).
    exists result'. eexists _, _. split; [done|]. by rewrite Ht.
  - intros n result' counter' calls' Eq.
    destruct (cuid_Done _ _ _ _ _ _ _ _ _ _ _ Hv Eq)
      as (-> & _ & _ & _ & Ht & H23).
    split; [done|]. split; [by rewrite Ht|done].
Qed.

Lemma quick_mode_matches_pure_mode_witness :
  ∃ id' result' counter' calls',
    pure_rendering pure_example 1700000000 = Done id'
    ∧ cuid zero_then_10000 0 1700000000 0 localhost_values 4242 0
        (fresh (CUID_SIZE + 3))
      = Done (23, result', counter', calls')
    ∧ take 23 result' = take 23 (cuid_value id').
Proof.
  destruct (quick_mode_matches_pure_mode zero_then_10000 pure_example 0
              1700000000 localhost_values 4242 0 (fresh (CUID_SIZE + 3)))
    as (id' & E & _ & Hroom & _).
  - apply pure_example_wf.
  - reflexivity.
  - vm_compute. reflexivity.
  - exact (flat_state_read 0 0).
  - exact (flat_state_read 1679616 0).
  - cbv. lia.
  - destruct Hroom as (result' & counter' & calls' & Eq & Ht);
      [cbv; lia|].
    exists id', result', counter', calls'.
    split; [exact E|]. split; [exact Eq|exact Ht].
Defined.

(** On an array of [CUID_FINGERPRINT_SIZE] characters the fingerprint
    function writes outside it as soon as the host sum has more than four
    digits or the process identifier more than two. *)
Lemma cuid_get_fingerprint_overflow values pid (result : buffer) :
  CUID_HOSTNAME_LENGTH / 4 ≤ length values →
  length result = CUID_FINGERPRINT_SIZE →
  (36 ^ 4 ≤ hostname_sum values ∨ 36 ^ 2 ≤ pid `mod` 2 ^ 64)%Z →
  cuid_get_fingerprint 0 values pid result 0 = Stop OutOfBounds.
Proof.
  intros Hv Hr H. unfold CUID_FINGERPRINT_SIZE in Hr.
  apply cuid_get_fingerprint_short; [done|]. rewrite Hr.
  destruct H as [H|H].
  - left. pose proof (digits36_length_gt _ 4 ltac:(lia) H). lia.
  - right. pose proof (digits36_length_gt _ 2 ltac:(lia) H). lia.
Qed.

(** C8, at an array of [CUID_FINGERPRINT_SIZE] characters, the host name
    ["localhost"] and the process identifier 4242: the seven digits of the
    host sum are written at [result[0..6]] and their terminator at
    [result[7]], outside the array (with nine characters the same call
    returns 4 and leaves ["4c"], ["9u"] and the terminator). *)
Theorem cuid_get_fingerprint_writes_past_result :
  cuid_get_fingerprint 0 localhost_values 4242 (fresh CUID_FINGERPRINT_SIZE) 0
  = Stop OutOfBounds
  ∧ cuid_base36 (hostname_sum localhost_values) (fresh CUID_FINGERPRINT_SIZE) 0
    = Stop OutOfBounds
  ∧ length (digits36 (hostname_sum localhost_values)) = 7
  ∧ cuid_get_fingerprint 0 localhost_values 4242 (fresh 9) 0
    = Done (4, chars "4c9u" ++ fresh 2 ++ chars "c" ++ fresh 2).
Proof. repeat split; vm_compute; reflexivity. Qed.

(** ** The plain encoding: digit count, leading digit, room *)

Lemma radix36_nonzero q : (0 < q < 36)%Z → radix36 q ≠ "0"%char.
Proof.
  intros Hq E. pose proof (digit_value_radix36 q) as H. rewrite E in H.
  rewrite Z.mod_small in H by lia. change (digit_value "0") with 0%Z in H. lia.
Qed.

(** The last digit the loop writes, the leading one of the text, is not
    ["0"] unless the number is 0. *)
Lemma digits_lsd_last room n :
  (0 < n < 36 ^ Z.of_nat (S room))%Z →
  ∃ q, (0 < q < 36)%Z ∧ last (digits_lsd room n) = Some (radix36 q).
Proof.
  revert n. induction room as [|room IH]; intros n Hn.
  - rewrite digits_lsd_0. exists n. split; [|done].
    change (36 ^ Z.of_nat 1)%Z with 36%Z in Hn. lia.
  - rewrite digits_lsd_S, base_36.
    rewrite (Nat2Z.inj_succ (S room)), Z.pow_succ_r in Hn by lia.
    case_decide as Hd.
    + destruct (IH (n `div` 36)%Z) as (q & Hq & E).
      { split; [done|]. apply Z.div_lt_upper_bound; lia. }
      exists q. split; [done|].
      pose proof (digits_lsd_length room (n `div` 36)) as Hl.
      destruct (digits_lsd room (n `div` 36)) as [|c l]; [simpl in Hl; lia|].
      by rewrite last_cons, E.
    + exists n. split; [|done].
      assert (n `div` 36 = 0)%Z as H0.
      { pose proof (Z.div_pos n 36). lia. }
      apply Z.div_small_iff in H0; lia.
Qed.

Lemma digits36_head n :
  (0 < n < 2 ^ 64)%Z → ∃ q, (0 < q < 36)%Z ∧ head (digits36 n) = Some (radix36 q).
Proof.
  intros Hn. unfold digits36. change (CUID_BASE36_RESULT_SIZE - 2) with 14.
  destruct (digits_lsd_last 14 n) as (q & Hq & E).
  { split; [lia|]. eapply Z.lt_trans; [apply Hn|done]. }
  exists q. split; [done|]. by rewrite head_reverse.
Qed.

(** The number of digits of a 64-bit number. *)
Lemma digits36_count n :
  (0 < n < 2 ^ 64)%Z →
  (36 ^ (Z.of_nat (length (digits36 n)) - 1) ≤ n
   < 36 ^ Z.of_nat (length (digits36 n)))%Z.
Proof.
  intros Hn. pose proof (digits36_u64 n) as H13.
  pose proof (digits36_length n) as H1.
  set (k := length (digits36 n)) in *. split.
  - destruct (decide (k = 1)) as [->|Hk]; [simpl; lia|].
    destruct (Z.le_gt_cases (36 ^ (Z.of_nat k - 1)) n) as [|Hlt]; [done|].
    pose proof (digits36_length_le n (k - 2)) as Hle.
    replace (Z.of_nat (S (k - 2))) with (Z.of_nat k - 1)%Z in Hle by lia.
    fold k in Hle. lia.
  - destruct (Z.le_gt_cases (36 ^ Z.of_nat k) n) as [Hge|]; [|lia].
    pose proof (digits36_length_gt n k) as Hgt. fold k in Hgt. lia.
Qed.

Lemma digits36_digits n : Forall (λ c, c ∈ cuid_radix36_table) (digits36 n).
Proof. unfold digits36. apply Forall_reverse, digits_lsd_digits. Qed.

(** X1: on an array with 14 characters of room from [ofs] on, [cuid_base36]
    of a 64-bit number returns; it writes between 1 and 13 digits of the
    table, which denote the number again, and the terminator behind them,
    and it leaves every other character of the array as it was. *)
Theorem cuid_base36_round_trip n (b : buffer) ofs :
  (0 ≤ n < 2 ^ 64)%Z → ofs + 14 ≤ length b →
  ∃ len b1,
    cuid_base36 n b ofs = Done (len, b1)
    ∧ 1 ≤ len ≤ 13
    ∧ base36_value (text len ofs b1) = n
    ∧ Forall (λ c, c ∈ cuid_radix36_table) (text len ofs b1)
    ∧ b1 !! (ofs + len) = Some NUL
    ∧ length b1 = length b
    ∧ take ofs b1 = take ofs b
    ∧ drop (ofs + len + 1) b1 = drop (ofs + len + 1) b.
Proof.
  intros Hn Hb. pose proof (digits36_u64 n Hn) as H13.
  pose proof (digits36_length n) as H1.
  eexists (length (digits36 n)), _. split; [apply cuid_base36_eq; lia|].
  set (ds := digits36 n) in *.
  assert (length (take ofs b) = ofs) as Ht by (rewrite length_take; lia).
  assert (text (length ds) ofs (take ofs b ++ ds
            ++ NUL :: drop (ofs + length ds + 1) b) = ds) as Htext.
  { rewrite <-Ht at 1. apply text_app_here. }
  split; [lia|]. rewrite Htext. split; [by apply digits36_value|].
  split; [apply digits36_digits|]. split.
  { rewrite lookup_app_r by lia. rewrite Ht, lookup_app_r by lia.
    by replace (ofs + length ds - ofs - length ds) with 0 by lia. }
  split.
  { rewrite !length_app, Ht. simpl. rewrite length_drop. lia. }
  split.
  { by rewrite take_app_le, take_take, Nat.min_id by lia. }
  rewrite drop_app_ge by lia. rewrite Ht, drop_app_ge by lia.
  by replace (ofs + length ds + 1 - ofs - length ds) with 1 by lia.
Qed.

Lemma cuid_base36_round_trip_witness :
  ∃ len b1, cuid_base36 12345 (fresh 14) 0 = Done (len, b1)
    ∧ base36_value (text len 0 b1) = 12345%Z.
Proof.
  destruct (cuid_base36_round_trip 12345 (fresh 14) 0) as (len & b1 & H);
    [lia|simpl; lia|].
  exists len, b1. tauto.
Defined.

Lemma cuid_base36_Done n (b : buffer) ofs len b1 :
  cuid_base36 n b ofs = Done (len, b1) →
  len = length (digits36 n)
  ∧ ofs + len < length b
  ∧ b1 = take ofs b ++ digits36 n ++ NUL :: drop (ofs + len + 1) b.
Proof.
  intros H. destruct (decide (ofs + length (digits36 n) < length b)) as [Hl|Hl].
  - rewrite cuid_base36_eq in H by done. by injection H as <- <-.
  - rewrite cuid_base36_short in H by lia. done.
Qed.

(** X2: the text [cuid_base36] writes for a 64-bit number is the shortest
    one: 0 is written as ["0"], and a positive number gets as many digits
    as its size takes, with a leading digit other than ["0"]. *)
Theorem cuid_base36_shortest n (b : buffer) ofs len b1 :
  (0 ≤ n < 2 ^ 64)%Z → cuid_base36 n b ofs = Done (len, b1) →
  (n = 0%Z → text len ofs b1 = ["0"%char])
  ∧ ((0 < n)%Z →
     (36 ^ (Z.of_nat len - 1) ≤ n < 36 ^ Z.of_nat len)%Z
     ∧ b1 !! ofs ≠ Some "0"%char).
Proof.
  intros Hn H. apply cuid_base36_Done in H as (-> & Hl & ->).
  assert (length (take ofs b) = ofs) as Ht by (rewrite length_take; lia).
  split.
  - intros ->. rewrite <-Ht at 1. by rewrite text_app_here.
  - intros Hp. split; [apply digits36_count; lia|].
    destruct (digits36_head n) as (q & Hq & E); [lia|].
    rewrite lookup_app_r by lia. rewrite Ht, Nat.sub_diag.
    destruct (digits36 n) as [|c l]; [done|]. simpl in *.
    injection E as ->. intros [= E]. by apply (radix36_nonzero q).
Qed.

Lemma cuid_base36_shortest_witness :
  (36 ^ (Z.of_nat 3 - 1) ≤ 12345 < 36 ^ Z.of_nat 3)%Z
  ∧ (chars "9ix" ++ fresh 13) !! 0 ≠ Some "0"%char.
Proof.
  apply (cuid_base36_shortest 12345 (fresh 16) 0 3 (chars "9ix" ++ fresh 13));
    [lia|reflexivity|lia].
Defined.

(** X3: [cuid_base36] writes at most 15 digits whatever the number is, and
    it needs exactly the digits and the terminator: with that much room
    from [ofs] on it returns, with less it writes outside the array. *)
Theorem cuid_base36_room n (b : buffer) ofs :
  ∃ len,
    1 ≤ len ≤ 15
    ∧ (∃ b0, cuid_base36 n (fresh CUID_BASE36_RESULT_SIZE) 0 = Done (len, b0))
    ∧ (ofs + len < length b →
       ∃ b1, cuid_base36 n b ofs = Done (len, b1) ∧ length b1 = length b)
    ∧ (length b ≤ ofs + len → cuid_base36 n b ofs = Stop OutOfBounds).
Proof.
  exists (length (digits36 n)). pose proof (digits36_length n) as H1.
  split; [done|]. split; [|split].
  - eexists. apply cuid_base36_eq. simpl. lia.
  - intros Hl. eexists. split; [by apply cuid_base36_eq|].
    rewrite !length_app, length_take. simpl. rewrite length_drop. lia.
  - apply cuid_base36_short.
Qed.

(** ** Padding with ["0"]: the low-order digits *)

Lemma radix36_mod n m : (n `mod` 36 = m `mod` 36)%Z → radix36 n = radix36 m.
Proof. unfold radix36. rewrite base_36. by intros ->. Qed.

Lemma low_digits_length w n : length (low_digits w n) = w.
Proof. revert n. induction w as [|w IH]; intros n; simpl; [done|]. by rewrite IH. Qed.

Lemma low_digits_zero w : low_digits w 0 = replicate w "0"%char.
Proof.
  induction w as [|w IH]; [done|]. cbn [low_digits replicate].
  change (0 `div` 36)%Z with 0%Z. by rewrite IH.
Qed.

Lemma split_digit (n : Z) (w : nat) :
  (n `mod` 36 ^ Z.of_nat (S w)
   = n `mod` 36 + 36 * ((n `div` 36) `mod` 36 ^ Z.of_nat w))%Z.
Proof.
  rewrite Nat2Z.inj_succ, Z.pow_succ_r by lia.
  apply Z.rem_mul_r; [lia|]. apply Z.pow_pos_nonneg; lia.
Qed.

Lemma low_digits_mod w n :
  low_digits w (n `mod` 36 ^ Z.of_nat w) = low_digits w n.
Proof.
  revert n. induction w as [|w IH]; intros n; [done|].
  cbn [low_digits]. rewrite split_digit.
  pose proof (Z.mod_pos_bound n 36 eq_refl) as Hr.
  set (r := (n `mod` 36)%Z) in *.
  set (q := ((n `div` 36) `mod` 36 ^ Z.of_nat w)%Z).
  assert ((r + 36 * q) `mod` 36 = r)%Z as Hm.
  { symmetry. apply (Z.mod_unique_pos _ 36 q r); lia. }
  assert ((r + 36 * q) `div` 36 = q)%Z as Hd.
  { symmetry. apply (Z.div_unique_pos _ 36 q r); lia. }
  rewrite Hd, (radix36_mod _ n) by (by rewrite Hm).
  unfold q. by rewrite IH.
Qed.

Lemma value_lsd_low_digits w n :
  value_lsd (low_digits w n) = (n `mod` 36 ^ Z.of_nat w)%Z.
Proof.
  revert n. induction w as [|w IH]; intros n.
  - simpl. by rewrite Z.mod_1_r.
  - cbn [low_digits value_lsd]. by rewrite digit_value_radix36, IH, split_digit.
Qed.

(** The digits of the loop, continued with zeros, are the low-order
    digits. *)
Lemma take_digits_lsd room n w k :
  (0 ≤ n < 36 ^ Z.of_nat (S room))%Z → w ≤ k →
  take w (digits_lsd room n ++ replicate k "0"%char) = low_digits w n.
Proof.
  revert n w k. induction room as [|room IH]; intros n w k Hn Hk.
  - rewrite digits_lsd_0. destruct w as [|w]; [done|]. simpl.
    change (36 ^ Z.of_nat 1)%Z with 36%Z in Hn.
    rewrite Z.div_small, low_digits_zero, take_replicate by lia.
    do 2 f_equal. lia.
  - rewrite digits_lsd_S, base_36. destruct w as [|w]; [done|]. simpl.
    rewrite (Nat2Z.inj_succ (S room)), Z.pow_succ_r in Hn by lia.
    f_equal. case_decide as Hd.
    + apply IH; [|lia]. split; [lia|]. apply Z.div_lt_upper_bound; lia.
    + assert (n `div` 36 = 0)%Z as ->.
      { pose proof (Z.div_pos n 36). lia. }
      simpl. rewrite low_digits_zero, take_replicate. f_equal. lia.
Qed.

Lemma padded_low_digits n w :
  (0 ≤ n < 2 ^ 64)%Z → padded n w "0" = reverse (low_digits w n).
Proof.
  intros Hn. rewrite <-(take_digits_lsd 14 n w w); [|lia|done].
  unfold padded, digits36. change (CUID_BASE36_RESULT_SIZE - 2) with 14.
  rewrite length_reverse. set (l := digits_lsd 14 n).
  case_decide as Hw.
  - rewrite take_app_ge by lia. rewrite take_replicate, reverse_app.
    rewrite reverse_replicate. do 2 f_equal. lia.
  - rewrite take_app_le by lia. rewrite drop_reverse. do 2 f_equal. lia.
Qed.

Lemma pad_text_low_digits n w :
  (0 ≤ n < 2 ^ 64)%Z → w < CUID_BASE36_RESULT_SIZE →
  pad_text n w "0" = reverse (low_digits w n).
Proof. intros Hn Hw. rewrite pad_text_eq by done. by apply padded_low_digits. Qed.

Lemma pad_text_value n w :
  (0 ≤ n < 2 ^ 64)%Z → w < CUID_BASE36_RESULT_SIZE →
  base36_value (pad_text n w "0") = (n `mod` 36 ^ Z.of_nat w)%Z.
Proof.
  intros Hn Hw.
  by rewrite pad_text_low_digits, base36_value_reverse, value_lsd_low_digits.
Qed.

Lemma pad_text_congruent n m w :
  (0 ≤ n < 2 ^ 64)%Z → (0 ≤ m < 2 ^ 64)%Z → w < CUID_BASE36_RESULT_SIZE →
  pad_text n w "0" = pad_text m w "0"
  ↔ (n `mod` 36 ^ Z.of_nat w = m `mod` 36 ^ Z.of_nat w)%Z.
Proof.
  intros Hn Hm Hw. split.
  - intros E. rewrite <-!pad_text_value by done. by rewrite E.
  - intros E. rewrite !pad_text_low_digits by done.
    by rewrite <-(low_digits_mod w n), E, low_digits_mod.
Qed.

(** X4: padded with ["0"] to a width below 16, a 64-bit number leaves its
    [w] low-order base-36 digits: the text denotes the number modulo
    [36 ^ w], whether the plain encoding was padded or cut. *)
Theorem cuid_base36_pad_low_digits n (b : buffer) ofs w :
  (0 ≤ n < 2 ^ 64)%Z → w < CUID_BASE36_RESULT_SIZE →
  ofs + CUID_BASE36_RESULT_SIZE ≤ length b →
  ∃ b2,
    cuid_base36_pad n b ofs w "0" = Done (w, b2)
    ∧ text w ofs b2 = reverse (low_digits w n)
    ∧ base36_value (text w ofs b2) = (n `mod` 36 ^ Z.of_nat w)%Z
    ∧ b2 !! (ofs + w) = Some NUL
    ∧ take ofs b2 = take ofs b.
Proof.
  intros Hn Hw Hb. pose proof (digits36_length n) as H1.
  destruct (cuid_base36_pad_text n b ofs w "0") as (b2 & H & _ & Hpre & Ht & H0);
    [done|unfold CUID_BASE36_RESULT_SIZE in *; lia|].
  exists b2. rewrite Ht, padded_low_digits by done.
  rewrite base36_value_reverse, value_lsd_low_digits. done.
Qed.

Lemma cuid_base36_pad_low_digits_witness :
  ∃ b2, cuid_base36_pad 1234567890 (fresh 16) 0 4 "0" = Done (4, b2)
    ∧ base36_value (text 4 0 b2) = (1234567890 `mod` 36 ^ Z.of_nat 4)%Z.
Proof.
  destruct (cuid_base36_pad_low_digits 1234567890 (fresh 16) 0 4)
    as (b2 & H & _ & Hv & _); [lia|cbv; lia|cbv; lia|].
  by exists b2.
Defined.

(** X5: two 64-bit numbers get the same ["0"]-padded text of width [w]
    exactly when they are congruent modulo [36 ^ w]. *)
Theorem cuid_base36_pad_collision n m (b b' : buffer) ofs ofs' w :
  (0 ≤ n < 2 ^ 64)%Z → (0 ≤ m < 2 ^ 64)%Z → w < CUID_BASE36_RESULT_SIZE →
  ofs + CUID_BASE36_RESULT_SIZE ≤ length b →
  ofs' + CUID_BASE36_RESULT_SIZE ≤ length b' →
  ∃ b2 b2',
    cuid_base36_pad n b ofs w "0" = Done (w, b2)
    ∧ cuid_base36_pad m b' ofs' w "0" = Done (w, b2')
    ∧ (text w ofs b2 = text w ofs' b2'
       ↔ (n `mod` 36 ^ Z.of_nat w = m `mod` 36 ^ Z.of_nat w)%Z).
Proof.
  intros Hn Hm Hw Hb Hb'.
  pose proof (digits36_length n) as H1. pose proof (digits36_length m) as H2.
  destruct (cuid_base36_pad_text n b ofs w "0") as (b2 & H & _ & _ & Ht & _);
    [done|unfold CUID_BASE36_RESULT_SIZE in *; lia|].
  destruct (cuid_base36_pad_text m b' ofs' w "0") as (b2' & H' & _ & _ & Ht' & _);
    [done|unfold CUID_BASE36_RESULT_SIZE in *; lia|].
  exists b2, b2'. split; [done|]. split; [done|].
  rewrite Ht, Ht', <-!pad_text_eq by done. by apply pad_text_congruent.
Qed.

Lemma cuid_base36_pad_collision_witness :
  ∃ b2 b2',
    cuid_base36_pad 5 (fresh 16) 0 4 "0" = Done (4, b2)
    ∧ cuid_base36_pad (5 + 36 ^ 4) (fresh 16) 0 4 "0" = Done (4, b2')
    ∧ (text 4 0 b2 = text 4 0 b2'
       ↔ (5 `mod` 36 ^ Z.of_nat 4 = (5 + 36 ^ 4) `mod` 36 ^ Z.of_nat 4)%Z).
Proof.
  apply (cuid_base36_pad_collision 5 (5 + 36 ^ 4) (fresh 16) (fresh 16) 0 0 4);
    [lia|lia|cbv; lia|cbv; lia|cbv; lia].
Defined.

(** ** Padding with ["0"]: the order of the texts *)

Lemma low_digits_snoc w n :
  low_digits (S w) n = low_digits w n ++ [radix36 (n `div` 36 ^ Z.of_nat w)].
Proof.
  revert n. induction w as [|w IH]; intros n.
  - simpl. by rewrite Z.div_1_r.
  - change (low_digits (S (S w)) n)
      with (radix36 n :: low_digits (S w) (n `div` 36)).
    rewrite IH. cbn [low_digits app]. do 3 f_equal.
    rewrite Nat2Z.inj_succ, Z.pow_succ_r by lia.
    rewrite Z.div_div; [done|lia|]. apply Z.pow_pos_nonneg; lia.
Qed.

Lemma radix36_code_step k :
  k < 35 →
  nat_of_ascii (default NUL (cuid_radix36_table !! k))
  < nat_of_ascii (default NUL (cuid_radix36_table !! S k)).
Proof. intros Hk. do 35 (destruct k as [|k]; [vm_compute; lia|]). lia. Qed.

Lemma radix36_code_lt a b :
  a < b → b < 36 →
  nat_of_ascii (default NUL (cuid_radix36_table !! a))
  < nat_of_ascii (default NUL (cuid_radix36_table !! b)).
Proof.
  induction b as [|b IH]; intros Hab Hb; [lia|].
  pose proof (radix36_code_step b). destruct (decide (a = b)) as [->|]; [lia|].
  etrans; [apply IH|]; lia.
Qed.

(** The characters of the table are in the order of the digits. *)
Lemma radix36_lt a b :
  (0 ≤ a < b)%Z → (b < 36)%Z →
  nat_of_ascii (radix36 a) < nat_of_ascii (radix36 b).
Proof.
  intros Ha Hb. unfold radix36. rewrite base_36, !Z.mod_small by lia.
  apply radix36_code_lt; lia.
Qed.

Lemma lex_lt_low_digits w n m :
  (0 ≤ n < m)%Z → (m < 36 ^ Z.of_nat w)%Z →
  lex_lt (reverse (low_digits w n)) (reverse (low_digits w m)).
Proof.
  revert n m. induction w as [|w IH]; intros n m Hn Hm.
  - change (36 ^ Z.of_nat 0)%Z with 1%Z in Hm. lia.
  - rewrite !low_digits_snoc, !reverse_snoc. cbn [lex_lt].
    rewrite Nat2Z.inj_succ, Z.pow_succ_r in Hm by lia.
    assert (0 < 36 ^ Z.of_nat w)%Z as HP by (apply Z.pow_pos_nonneg; lia).
    set (P := (36 ^ Z.of_nat w)%Z) in *.
    pose proof (Z.div_mod n P) as En. pose proof (Z.div_mod m P) as Em.
    pose proof (Z.mod_pos_bound n P HP) as Rn.
    pose proof (Z.mod_pos_bound m P HP) as Rm.
    assert (0 ≤ n `div` P)%Z by (apply Z.div_pos; lia).
    assert (n `div` P ≤ m `div` P)%Z by (apply Z.div_le_mono; lia).
    assert (m `div` P < 36)%Z by (apply Z.div_lt_upper_bound; lia).
    destruct (decide (n `div` P = m `div` P)%Z) as [E|E].
    + right. split; [by rewrite E|].
      rewrite <-(low_digits_mod w n), <-(low_digits_mod w m). fold P.
      apply IH; [|lia]. rewrite E in En. lia.
    + left. apply radix36_lt; lia.
Qed.

(** X6: for numbers below [36 ^ w], the ["0"]-padded texts of width [w]
    are in the order of the numbers: the text of the smaller number comes
    first in the order of [strcmp]. *)
Theorem cuid_base36_pad_sorts n m (b b' : buffer) ofs ofs' w :
  (0 ≤ n < m)%Z → (m < 36 ^ Z.of_nat w)%Z → (m < 2 ^ 64)%Z →
  w < CUID_BASE36_RESULT_SIZE →
  ofs + CUID_BASE36_RESULT_SIZE ≤ length b →
  ofs' + CUID_BASE36_RESULT_SIZE ≤ length b' →
  ∃ b2 b2',
    cuid_base36_pad n b ofs w "0" = Done (w, b2)
    ∧ cuid_base36_pad m b' ofs' w "0" = Done (w, b2')
    ∧ lex_lt (text w ofs b2) (text w ofs' b2').
Proof.
  intros Hn Hm Hm64 Hw Hb Hb'.
  pose proof (digits36_length n) as H1. pose proof (digits36_length m) as H2.
  destruct (cuid_base36_pad_text n b ofs w "0") as (b2 & H & _ & _ & Ht & _);
    [done|unfold CUID_BASE36_RESULT_SIZE in *; lia|].
  destruct (cuid_base36_pad_text m b' ofs' w "0") as (b2' & H' & _ & _ & Ht' & _);
    [done|unfold CUID_BASE36_RESULT_SIZE in *; lia|].
  exists b2, b2'. split; [done|]. split; [done|].
  rewrite Ht, Ht', !padded_low_digits by lia. by apply lex_lt_low_digits.
Qed.

Lemma cuid_base36_pad_sorts_witness :
  ∃ b2 b2',
    cuid_base36_pad 35 (fresh 16) 0 6 "0" = Done (6, b2)
    ∧ cuid_base36_pad 36 (fresh 16) 0 6 "0" = Done (6, b2')
    ∧ lex_lt (text 6 0 b2) (text 6 0 b2').
Proof.
  apply (cuid_base36_pad_sorts 35 36 (fresh 16) (fresh 16) 0 0 6);
    [lia|lia|lia|cbv; lia|cbv; lia|cbv; lia].
Defined.

(** ** The counter *)

(** X7: the counter counts modulo [2 ^ 32]: after [k + 1] increments it
    reads the value it had plus [k + 1] modulo [2 ^ 32], and counted from
    [cuid_init_counter] it reads [k mod 2 ^ 32] after [k] increments, so it
    is back at 0 after [2 ^ 32] of them. *)
Theorem cuid_counter_wraps (c : cuid_counter_t) (k : nat) :
  cuid_read_counter (Nat.iter (S k) cuid_inc_counter c)
  = ((cuid_read_counter c + Z.of_nat (S k)) `mod` 2 ^ 32)%Z
  ∧ cuid_read_counter (Nat.iter k cuid_inc_counter (cuid_init_counter c))
    = (Z.of_nat k `mod` 2 ^ 32)%Z.
Proof.
  assert (∀ c k, cuid_read_counter (Nat.iter (S k) cuid_inc_counter c)
                 = ((cuid_read_counter c + Z.of_nat (S k)) `mod` 2 ^ 32)%Z)
    as Hiter.
  { clear. intros c k. induction k as [|k IH]; [done|].
    change (Nat.iter (S (S k)) cuid_inc_counter c)
      with (cuid_inc_counter (Nat.iter (S k) cuid_inc_counter c)).
    unfold cuid_inc_counter at 1. unfold cuid_read_counter in *.
    cbn [value]. rewrite IH, Z.add_mod_idemp_l by lia. f_equal. lia. }
  split; [apply Hiter|].
  destruct k as [|k]; [done|]. by rewrite Hiter.
Qed.

(** ** One step of the generator *)

Lemma mwc_equation (qv c : Z) :
  u32 qv → u32 c →
  let t := (18782 * qv + c)%Z in
  let carry' := Z.shiftr t 32 in
  let x := ((t `mod` 2 ^ 32 + carry') `mod` 2 ^ 32)%Z in
  let xc := if decide (x < carry')%Z then ((x + 1)%Z, (carry' + 1)%Z)
            else (x, carry') in
  (0 ≤ xc.1 < 2 ^ 32)%Z ∧ (xc.2 * (2 ^ 32 - 1) + xc.1 = t)%Z.
Proof.
  intros Hq Hc. destruct (step_bounds qv c Hq Hc) as (_ & Ht & Hcar & Hx).
  cbv zeta in *. revert Hcar Hx. rewrite Z.shiftr_div_pow2 by lia.
  set (t := (18782 * qv + c)%Z) in *. intros Hcar Hx.
  pose proof (Z.div_mod t (2 ^ 32)) as Hdm.
  pose proof (Z.mod_pos_bound t (2 ^ 32)) as Hlo.
  set (hi := (t `div` 2 ^ 32)%Z) in *. set (lo := (t `mod` 2 ^ 32)%Z) in *.
  destruct (decide (lo + hi < 2 ^ 32)%Z) as [Hs|Hs].
  - rewrite (Z.mod_small (lo + hi)) by lia.
    rewrite decide_False by lia. simpl. lia.
  - assert ((lo + hi) `mod` 2 ^ 32 = lo + hi - 2 ^ 32)%Z as ->.
    { symmetry. apply (Z.mod_unique_pos _ _ 1); lia. }
    rewrite decide_True by lia. simpl. lia.
Qed.

(** X8: a step satisfies the multiply-with-carry equation in base
    [2 ^ 32 - 1]: with [x] the number whose complement [0xFFFFFFFE - x] the
    step stores and returns, [carry' * (2 ^ 32 - 1) + x] is
    [18782 * Q[cursor'] + carry]. *)
Theorem mwc_next_random_equation (s s' : mwc_random_t) :
  mwc_wf s → mwc_next_random s = Done s' →
  ∃ qv x,
    mwc_q s !! Z.to_nat (mwc_current_cycle s') = Some qv
    ∧ (0 ≤ x < 2 ^ 32)%Z
    ∧ mwc_read_random s' = Done ((0xFFFFFFFE - x) `mod` 2 ^ 32)%Z
    ∧ (mwc_carry s' * (2 ^ 32 - 1) + x = 18782 * qv + mwc_carry s)%Z.
Proof.
  intros Hwf H. rewrite mwc_next_random_eq in H by done. injection H as <-.
  pose proof (advance_spec_read s Hwf) as Hread.
  destruct Hwf as [Hql _ Hq _ Hc _ Hcy]. rewrite MWC_CYCLE_eq in Hcy.
  revert Hread. unfold advance_spec, advance_word.
  set (cursor' := ((mwc_current_cycle s + 1) `mod` 4096)%Z).
  assert (0 ≤ cursor' < 4096)%Z as Hcur by (apply Z.mod_pos_bound; lia).
  assert (Z.to_nat cursor' < length (mwc_q s)) as Hin.
  { rewrite Hql. pose proof MWC_CYCLE_eq. lia. }
  destruct (lookup_u32 _ _ Hq Hin) as (qv & Hqv & Hu). rewrite Hqv.
  simpl default. pose proof (mwc_equation qv (mwc_carry s) Hu Hc) as He.
  cbv zeta in He. revert He. case_decide; cbn [fst snd]; intros [Hx He] Hread.
  - exists qv, ((((18782 * qv + mwc_carry s) `mod` 2 ^ 32
                 + Z.shiftr (18782 * qv + mwc_carry s) 32) `mod` 2 ^ 32) + 1)%Z.
    cbn [mwc_current_cycle mwc_carry]. done.
  - exists qv, (((18782 * qv + mwc_carry s) `mod` 2 ^ 32
                + Z.shiftr (18782 * qv + mwc_carry s) 32) `mod` 2 ^ 32)%Z.
    cbn [mwc_current_cycle mwc_carry]. done.
Qed.

Lemma mwc_next_random_equation_witness :
  ∃ qv x,
    mwc_q (flat_state 7 3) !! Z.to_nat (mwc_current_cycle (advance_spec (flat_state 7 3)))
    = Some qv
    ∧ (0 ≤ x < 2 ^ 32)%Z
    ∧ mwc_read_random (advance_spec (flat_state 7 3))
      = Done ((0xFFFFFFFE - x) `mod` 2 ^ 32)%Z
    ∧ (mwc_carry (advance_spec (flat_state 7 3)) * (2 ^ 32 - 1) + x
       = 18782 * qv + mwc_carry (flat_state 7 3))%Z.
Proof.
  apply (mwc_next_random_equation (flat_state 7 3)).
  - apply flat_state_wf; unfold u32; lia.
  - apply mwc_next_random_eq, flat_state_wf; unfold u32; lia.
Defined.

(** ** Several steps of the generator *)

Lemma advance_spec_frame (s : mwc_random_t) i :
  i ≠ Z.to_nat (mwc_current_cycle (advance_spec s)) →
  mwc_q (advance_spec s) !! i = mwc_q s !! i.
Proof.
  unfold advance_spec. case_decide; cbn [mwc_q mwc_current_cycle];
    intros Hi; by apply list_lookup_insert_ne.
Qed.

Lemma advance_spec_cursor (s : mwc_random_t) :
  mwc_current_cycle (advance_spec s) = ((mwc_current_cycle s + 1) `mod` 4096)%Z.
Proof. unfold advance_spec. by case_decide. Qed.

Lemma advance_spec_snapshot (s : mwc_random_t) :
  mwc_initial_q (advance_spec s) = mwc_initial_q s
  ∧ mwc_initial_carry (advance_spec s) = mwc_initial_carry s.
Proof. unfold advance_spec. by case_decide. Qed.

(** X9: [N] steps move the cursor by [N] modulo 4096, so it is back where
    it was after 4096 steps; they rewrite only the table words the cursor
    has passed and never the recorded snapshot. *)
Theorem mwc_next_random_cursor N (s s' : mwc_random_t) :
  mwc_wf s → advance N s = Done s' →
  mwc_current_cycle s' = ((mwc_current_cycle s + Z.of_nat N) `mod` 4096)%Z
  ∧ (∀ i, (∀ j, 1 ≤ j ≤ N →
             i ≠ Z.to_nat ((mwc_current_cycle s + Z.of_nat j) `mod` 4096)%Z) →
          mwc_q s' !! i = mwc_q s !! i)
  ∧ mwc_initial_q s' = mwc_initial_q s
  ∧ mwc_initial_carry s' = mwc_initial_carry s.
Proof.
  revert s. induction N as [|N IH]; intros s Hwf H.
  - injection H as <-. rewrite Z.add_0_r, Z.mod_small; [done|].
    pose proof (wf_cycle s Hwf). pose proof MWC_CYCLE_eq. lia.
  - simpl in H. rewrite mwc_next_random_eq in H by done. run.
    destruct (IH _ (advance_spec_wf s Hwf) H) as (Hc & Hf & Hq & Hic).
    destruct (advance_spec_snapshot s) as [Hq1 Hic1].
    rewrite advance_spec_cursor in Hc, Hf.
    split; [|split; [|by rewrite Hq, Hic]].
    + rewrite Hc, Z.add_mod_idemp_l by lia. f_equal. lia.
    + intros i Hi. rewrite Hf.
      * apply advance_spec_frame. rewrite advance_spec_cursor.
        apply (Hi 1). lia.
      * intros j Hj. rewrite Z.add_mod_idemp_l by lia.
        replace (mwc_current_cycle s + 1 + Z.of_nat j)%Z
          with (mwc_current_cycle s + Z.of_nat (S j))%Z by lia.
        apply Hi. lia.
Qed.

Lemma mwc_next_random_cursor_witness :
  ∃ s', advance 2 (flat_state 7 3) = Done s'
    ∧ mwc_current_cycle s'
      = ((mwc_current_cycle (flat_state 7 3) + Z.of_nat 2) `mod` 4096)%Z.
Proof.
  assert (mwc_wf (flat_state 7 3)) as Hwf
    by (apply flat_state_wf; unfold u32; lia).
  destruct (advance_wf 2 _ Hwf) as (s' & H & _). exists s'. split; [done|].
  by destruct (mwc_next_random_cursor 2 _ s' Hwf H) as (Hc & _).
Defined.

(** ** The draws of a creation *)

Section Draws.
Variable MWC_SYSTEM_RAND32 : nat → Z.

(** The rejection loop returns the first draw below [MWC_C_MAX]. *)
Lemma mwc_initial_c_first fuel calls c calls' :
  mwc_initial_c MWC_SYSTEM_RAND32 fuel calls = Done (c, calls')
  ↔ ∃ k, k < fuel
      ∧ (∀ j, j < k → (MWC_C_MAX ≤ draw MWC_SYSTEM_RAND32 (calls + j))%Z)
      ∧ (draw MWC_SYSTEM_RAND32 (calls + k) < MWC_C_MAX)%Z
      ∧ c = draw MWC_SYSTEM_RAND32 (calls + k)
      ∧ calls' = S (calls + k).
Proof.
  revert calls. induction fuel as [|fuel IH]; intros calls.
  - simpl. split; [done|]. intros (k & Hk & _). lia.
  - simpl. case_decide as Hc.
    + rewrite IH. split.
      * intros (k & Hk & Hrej & Hacc & -> & ->). exists (S k).
        replace (calls + S k) with (S calls + k) by lia.
        split; [lia|]. split; [|done]. intros [|j] Hj.
        -- by rewrite Nat.add_0_r.
        -- replace (calls + S j) with (S calls + j) by lia. apply Hrej. lia.
      * intros (k & Hk & Hrej & Hacc & -> & ->). destruct k as [|k].
        { rewrite Nat.add_0_r in Hacc. lia. }
        exists k. replace (calls + S k) with (S calls + k) in * by lia.
        split; [lia|]. split; [|done]. intros j Hj.
        replace (S calls + j) with (calls + S j) by lia. apply Hrej. lia.
    + split.
      * intros [= <- <-]. exists 0. rewrite Nat.add_0_r.
        split; [lia|]. split; [intros; lia|]. split; [lia|done].
      * intros (k & Hk & Hrej & Hacc & -> & ->). destruct k as [|k].
        { by rewrite Nat.add_0_r. }
        specialize (Hrej 0). rewrite Nat.add_0_r in Hrej. lia.
Qed.

Lemma mwc_create_first fuel calls s calls' :
  mwc_create MWC_SYSTEM_RAND32 fuel calls = Done (s, calls')
  ↔ ∃ k, k < fuel
      ∧ (∀ j, j < k → (MWC_C_MAX ≤ draw MWC_SYSTEM_RAND32 (calls + j))%Z)
      ∧ (draw MWC_SYSTEM_RAND32 (calls + k) < MWC_C_MAX)%Z
      ∧ s = mk_mwc (draw MWC_SYSTEM_RAND32 <$> seq (S (calls + k)) MWC_CYCLE)
              (draw MWC_SYSTEM_RAND32 (calls + k)) (Z.of_nat MWC_CYCLE - 1)
              (draw MWC_SYSTEM_RAND32 (calls + k))
              (draw MWC_SYSTEM_RAND32 <$> seq (S (calls + k)) MWC_CYCLE)
      ∧ calls' = S (calls + k) + MWC_CYCLE.
Proof.
  assert (∀ c k0,
    for_loop MWC_CYCLE 0 (λ i '(st, calls),
      let '(v, calls) := rand32 MWC_SYSTEM_RAND32 calls in
      q ← store (mwc_q st) i v;
      x ← load q i;
      iq ← store (mwc_initial_q st) i x;
      Done (set_mwc_initial_q (set_mwc_q st q) iq, calls))
      (mk_mwc (replicate MWC_CYCLE 0%Z) c (Z.of_nat MWC_CYCLE - 1) c
         (replicate MWC_CYCLE 0%Z), k0)
    = Done (mk_mwc (draw MWC_SYSTEM_RAND32 <$> seq k0 MWC_CYCLE) c
              (Z.of_nat MWC_CYCLE - 1) c
              (draw MWC_SYSTEM_RAND32 <$> seq k0 MWC_CYCLE), k0 + MWC_CYCLE))
    as Hfill.
  { intros c k0. rewrite fill_table_loop
      by (cbn [mwc_q mwc_initial_q]; rewrite length_replicate; lia).
    cbn [mwc_q mwc_initial_q mwc_carry mwc_current_cycle mwc_initial_carry].
    unfold fill. rewrite take_0.
    rewrite drop_ge by (rewrite length_replicate; lia).
    by rewrite app_nil_r. }
  unfold mwc_create. split.
  - intros H. apply bind_Done in H as ([c k0] & Hc & H).
    rewrite Hfill in H. injection H as <- <-.
    apply mwc_initial_c_first in Hc as (k & Hk & Hrej & Hacc & -> & ->).
    by exists k.
  - intros (k & Hk & Hrej & Hacc & -> & ->).
    assert (mwc_initial_c MWC_SYSTEM_RAND32 fuel calls
            = Done (draw MWC_SYSTEM_RAND32 (calls + k), S (calls + k))) as ->.
    { apply mwc_initial_c_first. by exists k. }
    run. by rewrite Hfill.
Qed.

End Draws.



(** X11: a generator that [mwc_create] returns has the first acceptable
    draw as its carry and as its recorded carry, the 4096 draws after it as
    its table and as its snapshot, and the cursor on the last word, so that
    a read before any step gives the last value drawn; the creation has
    made 4096 calls after the accepted one. *)
Theorem mwc_create_draws (MWC_SYSTEM_RAND32 : nat → Z) fuel calls s calls' :
  mwc_create MWC_SYSTEM_RAND32 fuel calls = Done (s, calls') →
  ∃ k,
    (∀ j, j < k → (MWC_C_MAX ≤ draw MWC_SYSTEM_RAND32 (calls + j))%Z)
    ∧ mwc_carry s = draw MWC_SYSTEM_RAND32 (calls + k)
    ∧ (0 ≤ mwc_carry s < MWC_C_MAX)%Z
    ∧ mwc_initial_carry s = mwc_carry s
    ∧ length (mwc_q s) = MWC_CYCLE
    ∧ (∀ i, i < MWC_CYCLE →
         mwc_q s !! i = Some (draw MWC_SYSTEM_RAND32 (calls + k + 1 + i)))
    ∧ mwc_initial_q s = mwc_q s
    ∧ mwc_current_cycle s = 4095%Z
    ∧ mwc_read_random s
      = Done (draw MWC_SYSTEM_RAND32 (calls + k + MWC_CYCLE))
    ∧ calls' = calls + k + 1 + MWC_CYCLE.
Proof.
  intros H. apply mwc_create_first in H as (k & Hk & Hrej & Hacc & -> & ->).
  exists k. cbn [mwc_carry mwc_initial_carry mwc_q mwc_initial_q
                 mwc_current_cycle].
  pose proof (draw_u32 MWC_SYSTEM_RAND32 (calls + k)) as Hu. unfold u32 in Hu.
  assert (∀ i, i < MWC_CYCLE →
    (draw MWC_SYSTEM_RAND32 <$> seq (S (calls + k)) MWC_CYCLE) !! i
    = Some (draw MWC_SYSTEM_RAND32 (calls + k + 1 + i))) as Hq.
  { intros i Hi. rewrite list_lookup_fmap, lookup_seq_lt by done. simpl.
    do 2 f_equal. lia. }
  pose proof MWC_CYCLE_eq as HM.
  split; [done|]. split; [done|]. split; [lia|]. split; [done|].
  split; [by rewrite length_fmap, length_seq|]. split; [done|].
  split; [done|]. split; [lia|]. split; [|lia].
  unfold mwc_read_random. cbn [mwc_q mwc_current_cycle].
  apply load_Some. rewrite Hq by lia. do 2 f_equal. lia.
Qed.

Lemma mwc_create_draws_witness :
  ∃ s calls', mwc_create (λ _, 5%Z) 1 0 = Done (s, calls')
    ∧ mwc_current_cycle s = 4095%Z.
Proof.
  destruct (mwc_create_done (λ _, 5%Z) 1 0 0) as (s & calls' & H);
    [lia|reflexivity|].
  exists s, calls'. split; [done|].
  destruct (mwc_create_draws _ _ _ _ _ H) as (k & Hk). tauto.
Defined.

(** ** Pure API: creation, reading and advancing without a reset *)



(** X13: [cuid_create] reads five bytes of the fingerprint array whatever it
    holds: on an array of fewer than five bytes it reads outside it, once
    the two generators are created. *)
Theorem cuid_create_short_fingerprint (MWC_SYSTEM_RAND32 : nat → Z) fuel calls
    (fingerprint : buffer) :
  (∀ c, ∃ k, k < fuel ∧ (draw MWC_SYSTEM_RAND32 (c + k) < MWC_C_MAX)%Z) →
  length fingerprint < CUID_FINGERPRINT_SIZE →
  cuid_create MWC_SYSTEM_RAND32 fuel calls fingerprint = Stop OutOfBounds.
Proof.
  intros Hsrc Hfp. unfold cuid_create.
  destruct (Hsrc calls) as (k1 & Hk1 & Hd1).
  destruct (mwc_create_done _ fuel calls k1 Hk1 Hd1) as (s1 & c1 & ->). run.
  destruct (Hsrc c1) as (k2 & Hk2 & Hd2).
  destruct (mwc_create_done _ fuel c1 k2 Hk2 Hd2) as (s2 & c2 & ->). run.
  unfold CUID_FINGERPRINT_SIZE in *.
  destruct fingerprint as [|c0 [|c1' [|c2' [|c3 [|c4 rest]]]]];
    simpl in Hfp; try lia; reflexivity.
Qed.

Lemma cuid_create_short_fingerprint_witness :
  cuid_create (λ _, 5%Z) 1 0 (chars "fing") = Stop OutOfBounds.
Proof.
  apply cuid_create_short_fingerprint.
  - intros c. exists 0. split; [lia|reflexivity].
  - simpl. unfold CUID_FINGERPRINT_SIZE. lia.
Defined.

Lemma cuid_read_short (id : cuid_t) (destination : buffer) :
  length (cuid_value id) = CUID_SIZE → length destination < CUID_SIZE →
  cuid_read id destination = Stop OutOfBounds.
Proof.
  intros Hv Hd. unfold cuid_read.
  apply (for_loop_ascending_short 0 (λ i, default NUL (cuid_value id !! i)));
    [|unfold CUID_SIZE; lia|lia].
  intros i d' Hi _ _.
  destruct (lookup_lt_is_Some_2 (cuid_value id) i) as [y Hy]; [lia|].
  by rewrite (load_Some _ _ _ Hy), Hy.
Qed.

(** X14: [cuid_read] copies the 24 characters of the value and nothing
    else: the destination keeps what it held from index 24 on, a second read
    into it changes nothing, and a destination of fewer than 24 characters
    is written outside its bounds. *)
Theorem cuid_read_copies (id : cuid_t) (destination : buffer) :
  length (cuid_value id) = CUID_SIZE →
  (length destination < CUID_SIZE →
   cuid_read id destination = Stop OutOfBounds)
  ∧ (CUID_SIZE ≤ length destination →
     ∃ out, cuid_read id destination = Done out
       ∧ take CUID_SIZE out = cuid_value id
       ∧ drop CUID_SIZE out = drop CUID_SIZE destination
       ∧ length out = length destination
       ∧ cuid_read id out = Done out).
Proof.
  intros Hv. split; [by apply cuid_read_short|]. intros Hd.
  exists (cuid_value id ++ drop CUID_SIZE destination).
  split; [by apply cuid_read_eq|].
  assert (drop CUID_SIZE (cuid_value id ++ drop CUID_SIZE destination)
          = drop CUID_SIZE destination) as Hdrop.
  { rewrite <-Hv at 1. by rewrite drop_app_length. }
  split; [rewrite <-Hv at 1; by rewrite take_app_length|].
  split; [done|]. split.
  { rewrite length_app, length_drop. lia. }
  rewrite cuid_read_eq; [by rewrite Hdrop|done|].
  rewrite length_app, length_drop. lia.
Qed.

Lemma cuid_read_copies_witness :
  cuid_read pure_example (fresh 23) = Stop OutOfBounds.
Proof.
  apply (cuid_read_copies pure_example (fresh 23)); [reflexivity|].
  simpl. unfold CUID_SIZE. lia.
Defined.

(** [cuid_next] on a context whose value holds anything. *)
Lemma cuid_next_any (id : cuid_t) timestamp :
  cuid_wf id →
  ∃ id' r1 r2,
    cuid_next id timestamp = Done id'
    ∧ cuid_wf id'
    ∧ cuid_rnd1 id' = advance_spec (cuid_rnd1 id)
    ∧ cuid_rnd2 id' = advance_spec (cuid_rnd2 id)
    ∧ mwc_read_random (cuid_rnd1 id') = Done r1
    ∧ mwc_read_random (cuid_rnd2 id') = Done r2
    ∧ cuid_counter id' = cuid_inc_counter (cuid_counter id)
    ∧ cuid_fingerprint id' = cuid_fingerprint id
    ∧ cuid_value id'
      = rendering (pad_text timestamp 6 "0")
          (cuid_read_counter (cuid_inc_counter (cuid_counter id)))
          (cuid_fingerprint id) r1 r2
        ++ drop 23 (cuid_value id).
Proof.
  intros Hwf. pose proof Hwf as [Hfp Hcs Hw1 Hw2 Hr1s Hr2s Hv Hts].
  unfold cuid_next.
  rewrite !mwc_next_random_eq by done. run.
  destruct (pad_block timestamp (cuid_timestamp id) CUID_TIMESTAMP_LENGTH "0")
    as (ts' & -> & Hts' & Ht);
    [unfold CUID_BASE36_RESULT_SIZE, CUID_TIMESTAMP_LENGTH; lia|done|].
  run.
  pose proof (advance_spec_wf _ Hw1) as Hi1.
  pose proof (advance_spec_wf _ Hw2) as Hi2.
  destruct (mwc_read_random_wf _ Hi1) as (r1 & Hr1 & _).
  destruct (mwc_read_random_wf _ Hi2) as (r2 & Hr2 & _).
  match goal with |- ∃ _ _ _, cuid_gen_value_string ?x = _ ∧ _ =>
    set (id1 := x) end.
  assert (cuid_wf id1) as Hwf1.
  { split; unfold id1; members; done. }
  destruct (cuid_gen_value_string_eq id1 r1 r2 Hwf1 Hr1 Hr2)
    as (cs & r1s & r2s & -> & Hl1 & Hl2 & Hl3).
  unfold id1. members. eexists _, r1, r2. split; [done|]. members.
  split.
  { split; members; try done.
    rewrite length_app, rendering_length, length_drop;
      [unfold CUID_SIZE in *; lia| |rewrite Hfp; cbv; lia].
    unfold CUID_TIMESTAMP_LENGTH in Ht. by rewrite Ht, padded_length. }
  repeat (split; [done|]).
  unfold CUID_TIMESTAMP_LENGTH in *. rewrite Ht.
  by rewrite pad_text_eq by (unfold CUID_BASE36_RESULT_SIZE; lia).
Qed.

Lemma rendering_length' t counter (fp : buffer) r1 r2 :
  length fp = CUID_BASE36_RESULT_SIZE →
  length (rendering (pad_text t 6 "0") counter fp r1 r2) = 23.
Proof.
  intros Hfp. apply rendering_length; [|rewrite Hfp; cbv; lia].
  apply pad_text_length. cbv. lia.
Qed.

(** X15: [cuid_next] rewrites the 23 characters of the value and never
    writes its last byte, which stays what it was; the terminator of the
    string is the zero [cuid_create] or [cuid_init] left there. *)
Theorem cuid_next_keeps_last_byte (id : cuid_t) timestamp :
  cuid_wf id →
  ∃ id' r1 r2,
    cuid_next id timestamp = Done id'
    ∧ mwc_read_random (cuid_rnd1 id') = Done r1
    ∧ mwc_read_random (cuid_rnd2 id') = Done r2
    ∧ take 23 (cuid_value id')
      = rendering (pad_text timestamp 6 "0")
          (cuid_read_counter (cuid_inc_counter (cuid_counter id)))
          (cuid_fingerprint id) r1 r2
    ∧ cuid_value id' !! 23 = cuid_value id !! 23
    ∧ length (cuid_value id') = CUID_SIZE.
Proof.
  intros Hwf.
  destruct (cuid_next_any id timestamp Hwf)
    as (id' & r1 & r2 & E & Hwf' & _ & _ & Hr1 & Hr2 & _ & _ & Hv).
  exists id', r1, r2. repeat (split; [done|]).
  pose proof (rendering_length' timestamp
    (cuid_read_counter (cuid_inc_counter (cuid_counter id)))
    (cuid_fingerprint id) r1 r2 (wf_fingerprint id Hwf)) as Hl.
  rewrite Hv. split; [|split].
  - rewrite <-Hl at 1. by rewrite take_app_length.
  - rewrite lookup_app_r by lia. rewrite Hl, Nat.sub_diag, lookup_drop.
    by rewrite Nat.add_0_r.
  - rewrite <-Hv. apply Hwf'.
Qed.

Lemma cuid_next_keeps_last_byte_witness :
  ∃ id', cuid_next pure_example 5 = Done id'
    ∧ cuid_value id' !! 23 = cuid_value pure_example !! 23.
Proof.
  destruct (cuid_next_keeps_last_byte pure_example 5 pure_example_wf)
    as (id' & r1 & r2 & H & _ & _ & _ & H23 & _).
  exists id'. split; [exact H|exact H23].
Defined.

(** ** Pure API: a reset starts the same sequence again *)









(** ** Pure API: what the blocks denote *)

(** X17: in the identifier read out after [cuid_create], [cuid_init] and
    [n] calls of [cuid_next], the counter block denotes [n] modulo
    [2 ^ 32] modulo [36 ^ 4], so it shows ["0000"] again after 1679616
    calls, and the timestamp block denotes the last timestamp modulo
    [36 ^ 6]. *)
Theorem cuid_blocks_denote (MWC_SYSTEM_RAND32 : nat → Z) fuel calls
    (fingerprint : buffer) id calls' t0 timestamps (destination : buffer) :
  cuid_create MWC_SYSTEM_RAND32 fuel calls fingerprint = Done (id, calls') →
  CUID_SIZE ≤ length destination →
  (0 ≤ List.last timestamps t0 < 2 ^ 64)%Z →
  ∃ id1 id' out,
    cuid_init id t0 = Done id1
    ∧ cuid_nexts id1 timestamps = Done id'
    ∧ cuid_read id' destination = Done out
    ∧ base36_value (text 4 7 out)
      = ((Z.of_nat (length timestamps) `mod` 2 ^ 32) `mod` 36 ^ 4)%Z
    ∧ base36_value (text 6 1 out) = (List.last timestamps t0 `mod` 36 ^ 6)%Z.
Proof.
  intros Hc Hd Ht.
  destruct (cuid_pure_read _ _ _ _ _ _ t0 timestamps destination Hc Hd)
    as (id1 & id' & r1 & r2 & E1 & E' & R1 & R2 & Hn & Hread).
  apply cuid_create_eq in Hc as (_ & Hlen & _).
  rewrite rendering_app in Hread.
  exists id1, id'. eexists. do 3 (split; [done|]).
  assert (6 < CUID_BASE36_RESULT_SIZE ∧ 4 < CUID_BASE36_RESULT_SIZE)
    as [H6 H4] by (cbv; lia).
  destruct (blocks_layout (pad_text (List.last timestamps t0) 6 "0")
    (pad_text (cuid_read_counter (cuid_counter id')) 4 "0")
    (take 4 fingerprint) (pad_text r1 4 "0") (pad_text r2 4 "0")
    (drop CUID_SIZE destination))
    as (_ & L1 & L2 & _);
    rewrite ?pad_text_length by done; try done.
  { rewrite length_take. unfold CUID_FINGERPRINT_SIZE in Hlen. lia. }
  cbn [app] in *. rewrite L1, L2, Hn, !pad_text_value; [done|lia|done| |done].
  pose proof (Z.mod_pos_bound (Z.of_nat (length timestamps)) (2 ^ 32)). lia.
Qed.

Lemma cuid_blocks_denote_witness :
  ∃ id calls' id1 id' out,
    cuid_create (λ _, 5%Z) 1 0 (chars "fing" ++ [NUL]) = Done (id, calls')
    ∧ cuid_init id 123456789 = Done id1
    ∧ cuid_nexts id1 [223456789%Z] = Done id'
    ∧ cuid_read id' (fresh CUID_SIZE) = Done out
    ∧ base36_value (text 6 1 out) = (223456789 `mod` 36 ^ 6)%Z.
Proof.
  destruct (cuid_create_done (λ _, 5%Z) 1 0 (chars "fing" ++ [NUL]))
    as (id & calls' & H).
  { intros c. exists 0. split; [lia|reflexivity]. }
  { simpl. unfold CUID_FINGERPRINT_SIZE. lia. }
  destruct (cuid_blocks_denote _ _ _ _ _ _ 123456789%Z [223456789%Z]
              (fresh CUID_SIZE) H)
    as (id1 & id' & out & E1 & E' & Er & _ & Hv);
    [simpl; unfold CUID_SIZE; lia|simpl; lia|].
  exists id, calls', id1, id', out.
  split; [exact H|]. split; [exact E1|]. split; [exact E'|].
  split; [exact Er|exact Hv].
Defined.

(** ** Pure API: the order of the identifiers *)

Lemma lex_lt_app (a b x y : buffer) : lex_lt a b → lex_lt (a ++ x) (b ++ y).
Proof.
  revert b. induction a as [|c a IH]; intros [|d b]; simpl; try done.
  intros [Hlt|[-> Hr]]; [by left|]. right. split; [done|]. by apply IH.
Qed.

Lemma rendering_lex_lt t t' c c' (fp fp' : buffer) r1 r2 r1' r2'
    (rest rest' : buffer) :
  (0 ≤ t < t')%Z → (t' < 36 ^ 6)%Z →
  lex_lt (rendering (pad_text t 6 "0") c fp r1 r2 ++ rest)
         (rendering (pad_text t' 6 "0") c' fp' r1' r2' ++ rest').
Proof.
  intros Ht Ht'. unfold rendering. cbn [app lex_lt]. right. split; [done|].
  rewrite <-!(assoc_L (++)). apply lex_lt_app.
  assert (6 < CUID_BASE36_RESULT_SIZE) as H6 by (cbv; lia).
  rewrite (pad_text_low_digits t), (pad_text_low_digits t') by (done || lia).
  by apply lex_lt_low_digits.
Qed.

(** X18: identifiers sort by their timestamps: of two identifiers made by
    [cuid_init] or [cuid_next], on the same context or on two, the one with
    the smaller timestamp comes first in the order of [strcmp], as long as
    the timestamps are below [36 ^ 6]. *)
Theorem cuid_sorts_by_timestamp (a b a' b' : cuid_t) t t' :
  cuid_wf a → cuid_wf b → (0 ≤ t < t')%Z → (t' < 36 ^ 6)%Z →
  cuid_init a t = Done a' ∨ cuid_next a t = Done a' →
  cuid_init b t' = Done b' ∨ cuid_next b t' = Done b' →
  lex_lt (cuid_value a') (cuid_value b').
Proof.
  intros Ha Hb Ht Ht' Ea Eb.
  assert (∀ (x x' : cuid_t) s, cuid_wf x →
    cuid_init x s = Done x' ∨ cuid_next x s = Done x' →
    ∃ c r1 r2 rest,
      cuid_value x'
      = rendering (pad_text s 6 "0") c (cuid_fingerprint x) r1 r2 ++ rest)
    as Hshape.
  { intros x x' s Hx [E|E].
    - destruct (cuid_init_eq x s Hx)
        as (x1 & r1 & r2 & E1 & _ & _ & _ & _ & _ & _ & _ & Hv).
      rewrite E in E1. injection E1 as <-. by eexists _, r1, r2, _.
    - destruct (cuid_next_any x s Hx)
        as (x1 & r1 & r2 & E1 & _ & _ & _ & _ & _ & _ & _ & Hv).
      rewrite E in E1. injection E1 as <-. by eexists _, r1, r2, _. }
  destruct (Hshape a a' t Ha Ea) as (c & r1 & r2 & rest & ->).
  destruct (Hshape b b' t' Hb Eb) as (c' & r1' & r2' & rest' & ->).
  by apply rendering_lex_lt.
Qed.

Lemma cuid_sorts_by_timestamp_witness :
  ∃ a' b', cuid_init pure_example 1700000000 = Done a'
    ∧ cuid_next a' 1700000001 = Done b'
    ∧ lex_lt (cuid_value a') (cuid_value b').
Proof.
  destruct (cuid_init_rendered pure_example 1700000000 pure_example_wf)
    as (a' & Ea & Ha' & Hr & _).
  destruct (cuid_next_rendered a' 1700000000 1700000001 Ha' Hr)
    as (b' & Eb & _).
  exists a', b'. split; [done|]. split; [done|].
  apply (cuid_sorts_by_timestamp pure_example a' a' b' 1700000000 1700000001);
    [apply pure_example_wf|done|lia|lia|by left|by right].
Defined.

(** ** Quick mode with room for its scratch digits *)

Lemma terminated_split (b : buffer) n :
  b !! n = Some NUL → b = take n b ++ [NUL] ++ drop (S n) b.
Proof.
  intros H. rewrite <-(take_drop n b) at 1. f_equal.
  by rewrite (drop_S _ _ _ H).
Qed.

Lemma text_add n m ofs (b : buffer) :
  text (n + m) ofs b = text n ofs b ++ text m (ofs + n) b.
Proof.
  unfold text. rewrite <-(take_drop n (take (n + m) (drop ofs b))). f_equal.
  - rewrite take_take. f_equal. lia.
  - by rewrite <-take_drop_commute, drop_drop.
Qed.

Lemma text_length n ofs (b : buffer) :
  ofs + n ≤ length b → length (text n ofs b) = n.
Proof. intros H. unfold text. rewrite length_take, length_drop. lia. Qed.

(** The blocks of quick mode at their offsets. *)
Lemma cuid_quick_blocks (MWC_SYSTEM_RAND32 : nat → Z) counter now values pid
    calls (result : buffer) :
  CUID_HOSTNAME_LENGTH / 4 ≤ length values →
  CUID_SIZE + 3 ≤ length result →
  ∃ result',
    cuid MWC_SYSTEM_RAND32 counter now 0 values pid calls result
    = Done (23, result', ((counter + 1) `mod` 2 ^ 32)%Z, S (S calls))
    ∧ length result' = length result
    ∧ result' !! 0 = Some "c"%char
    ∧ text 6 1 result' = pad_text now 6 "0"
    ∧ text 4 7 result' = pad_text ((counter + 1) `mod` 2 ^ 32) 4 "0"
    ∧ text 2 11 result' = pad_text (hostname_sum values) 2 "0"
    ∧ text 2 13 result' = pad_text (pid `mod` 2 ^ 64) 2 "0"
    ∧ text 4 15 result' = pad_text (draw MWC_SYSTEM_RAND32 calls) 4 "0"
    ∧ text 4 19 result' = pad_text (draw MWC_SYSTEM_RAND32 (S calls)) 4 "0"
    ∧ result' !! 23 = Some NUL.
Proof.
  intros Hv Hr.
  destruct (cuid_eq MWC_SYSTEM_RAND32 counter now values pid calls result Hv Hr)
    as (result' & E & Hl & Ht & H23).
  exists result'. split; [done|]. split; [done|].
  pose proof (terminated_split result' 23 H23) as Hs. rewrite Ht in Hs.
  rewrite rendering_app in Hs.
  assert (6 < CUID_BASE36_RESULT_SIZE ∧ 4 < CUID_BASE36_RESULT_SIZE
          ∧ 2 < CUID_BASE36_RESULT_SIZE) as (H6 & H4 & H2) by (cbv; lia).
  pose proof (fingerprint_text_length values pid) as HF.
  rewrite (take_ge (fingerprint_text values pid)) in Hs by lia.
  destruct (blocks_layout (pad_text now 6 "0")
    (pad_text ((counter + 1) `mod` 2 ^ 32) 4 "0")
    (fingerprint_text values pid)
    (pad_text (draw MWC_SYSTEM_RAND32 calls) 4 "0")
    (pad_text (draw MWC_SYSTEM_RAND32 (S calls)) 4 "0")
    (drop 24 result'))
    as (L0 & L1 & L2 & L3 & L4 & L5 & L6 & _);
    rewrite ?pad_text_length by done; try done.
  cbn [app] in *. rewrite <-Hs in L0, L1, L2, L3, L4, L5.
  repeat (split; [done|]).
  change (text 4 11 result') with (text (2 + 2) 11 result') in L3.
  rewrite (text_add 2 2 11 result') in L3. unfold fingerprint_text in L3.
  change (11 + 2) with 13 in L3.
  apply app_inj_1 in L3 as [-> ->]; [done|].
  rewrite text_length, pad_text_length by (done || unfold CUID_SIZE in Hr; lia).
  done.
Qed.

(** X19: on an array with three characters of room behind the 24, [cuid]
    returns 23, the counter it has incremented and two more calls of the
    source; the array holds ['c'], the timestamp, the incremented counter,
    the two halves of the default fingerprint and the two values drawn, each
    padded, at the fixed offsets, and the terminator at 23, whatever it held
    before; its 23 characters are digits of the table, so none of them is
    the terminator. *)
Theorem cuid_quick_layout (MWC_SYSTEM_RAND32 : nat → Z) counter now values pid
    calls (result : buffer) :
  CUID_HOSTNAME_LENGTH / 4 ≤ length values →
  CUID_SIZE + 3 ≤ length result →
  ∃ result',
    cuid MWC_SYSTEM_RAND32 counter now 0 values pid calls result
    = Done (23, result', ((counter + 1) `mod` 2 ^ 32)%Z, S (S calls))
    ∧ length result' = length result
    ∧ result' !! 0 = Some "c"%char
    ∧ text 6 1 result' = pad_text now 6 "0"
    ∧ text 4 7 result' = pad_text ((counter + 1) `mod` 2 ^ 32) 4 "0"
    ∧ text 2 11 result' = pad_text (hostname_sum values) 2 "0"
    ∧ text 2 13 result' = pad_text (pid `mod` 2 ^ 64) 2 "0"
    ∧ text 4 15 result' = pad_text (draw MWC_SYSTEM_RAND32 calls) 4 "0"
    ∧ text 4 19 result' = pad_text (draw MWC_SYSTEM_RAND32 (S calls)) 4 "0"
    ∧ result' !! 23 = Some NUL
    ∧ Forall (λ c, c ∈ cuid_radix36_table ∧ c ≠ NUL) (take 23 result').
Proof.
  intros Hv Hr.
  destruct (cuid_quick_blocks MWC_SYSTEM_RAND32 counter now values pid calls
              result Hv Hr)
    as (result' & E & Hl & B0 & B1 & B2 & B3 & B4 & B5 & B6 & B7).
  exists result'. repeat (split; [done|]).
  destruct (cuid_eq MWC_SYSTEM_RAND32 counter now values pid calls result Hv Hr)
    as (result2 & E2 & _ & Ht & _).
  rewrite E in E2. injection E2 as <-. rewrite Ht.
  eapply Forall_impl; [|intros c Hc; split; [exact Hc|];
                        by apply radix36_table_visible].
  unfold rendering, fingerprint_text. constructor.
  { by apply (list_elem_of_lookup_2 _ 12). }
  rewrite !Forall_app.
  repeat split; try (apply pad_text_digits; cbv; lia).
  apply Forall_take, Forall_app. split; apply pad_text_digits; cbv; lia.
Qed.

(** X20: on an array of exactly [CUID_SIZE] characters, with 32-bit host
    words and a process identifier below [2 ^ 31], [cuid] returns exactly
    when the second value drawn is below [36 ^ 4]; otherwise it writes
    outside the array. *)
Theorem cuid_on_cuid_size (MWC_SYSTEM_RAND32 : nat → Z) counter now values pid
    calls (result : buffer) :
  CUID_HOSTNAME_LENGTH / 4 ≤ length values → Forall u32 values →
  (0 ≤ pid < 2 ^ 31)%Z →
  length result = CUID_SIZE →
  ((draw MWC_SYSTEM_RAND32 (S calls) < 36 ^ 4)%Z →
   ∃ result',
     cuid MWC_SYSTEM_RAND32 counter now 0 values pid calls result
     = Done (23, result', ((counter + 1) `mod` 2 ^ 32)%Z, S (S calls))
     ∧ length result' = CUID_SIZE ∧ result' !! 23 = Some NUL)
  ∧ ((36 ^ 4 ≤ draw MWC_SYSTEM_RAND32 (S calls))%Z →
     cuid MWC_SYSTEM_RAND32 counter now 0 values pid calls result
     = Stop OutOfBounds).
Proof.
  intros Hv Hu Hp Hr. split; [|by apply cuid_overflow].
  intros Hd. unfold CUID_SIZE in *.
  pose proof (digits36_length now) as Dn.
  pose proof (digits36_u32 ((counter + 1) `mod` 2 ^ 32)
                (Z.mod_pos_bound _ (2 ^ 32) eq_refl)) as Dc.
  pose proof (digits36_length_le (hostname_sum values) 7
                (hostname_sum_bound values Hu)) as Dh.
  assert (length (digits36 (pid `mod` 2 ^ 64)) ≤ 6) as Dp.
  { apply digits36_length_le. rewrite Z.mod_small by lia. simpl. lia. }
  pose proof (digits36_u32 _ (draw_u32 MWC_SYSTEM_RAND32 calls)) as D1.
  assert (length (digits36 (draw MWC_SYSTEM_RAND32 (S calls))) ≤ 4) as D2.
  { apply digits36_length_le.
    pose proof (draw_u32 MWC_SYSTEM_RAND32 (S calls)) as Hu2.
    unfold u32 in Hu2. simpl. lia. }
  destruct (cuid_fits MWC_SYSTEM_RAND32 counter now values pid calls result)
    as (result' & E & Hl & _ & H23); unfold CUID_SIZE; try done; try lia.
  exists result'. split; [done|]. split; [lia|done].
Qed.

Lemma cuid_on_cuid_size_witness :
  cuid zero_then_10000 7 1700000000 0 localhost_values 4242 0 (fresh CUID_SIZE)
  = Stop OutOfBounds.
Proof.
  apply (cuid_on_cuid_size zero_then_10000 7 1700000000 localhost_values 4242 0
           (fresh CUID_SIZE)); [cbv; lia| |lia|reflexivity|cbv; discriminate].
  unfold localhost_values, u32. repeat (constructor; [lia|]). constructor.
Defined.

(** X21: two calls of [cuid] one after the other, each with room for its
    scratch digits: the second renders the counter of the first plus one
    and the next two values of the source. *)
Theorem cuid_twice (MWC_SYSTEM_RAND32 : nat → Z) counter now now' values pid
    calls (result result2 : buffer) :
  CUID_HOSTNAME_LENGTH / 4 ≤ length values →
  CUID_SIZE + 3 ≤ length result → CUID_SIZE + 3 ≤ length result2 →
  ∃ result' counter' calls' result2',
    cuid MWC_SYSTEM_RAND32 counter now 0 values pid calls result
    = Done (23, result', counter', calls')
    ∧ cuid MWC_SYSTEM_RAND32 counter' now' 0 values pid calls' result2
      = Done (23, result2', ((counter + 2) `mod` 2 ^ 32)%Z, calls + 4)
    ∧ text 4 7 result' = pad_text ((counter + 1) `mod` 2 ^ 32) 4 "0"
    ∧ text 4 7 result2' = pad_text ((counter + 2) `mod` 2 ^ 32) 4 "0"
    ∧ text 4 15 result2' = pad_text (draw MWC_SYSTEM_RAND32 (calls + 2)) 4 "0"
    ∧ text 4 19 result2' = pad_text (draw MWC_SYSTEM_RAND32 (calls + 3)) 4 "0"
    ∧ text 4 11 result2' = text 4 11 result'.
Proof.
  intros Hv Hr Hr2.
  destruct (cuid_quick_blocks MWC_SYSTEM_RAND32 counter now values pid calls
              result Hv Hr)
    as (r1 & E1 & _ & _ & _ & C1 & Fh1 & Fp1 & _ & _ & _).
  destruct (cuid_quick_blocks MWC_SYSTEM_RAND32 ((counter + 1) `mod` 2 ^ 32)
              now' values pid (S (S calls)) result2 Hv Hr2)
    as (r2 & E2 & _ & _ & _ & C2 & Fh2 & Fp2 & R1 & R2 & _).
  assert ((((counter + 1) `mod` 2 ^ 32 + 1) `mod` 2 ^ 32
           = (counter + 2) `mod` 2 ^ 32)%Z) as Hc.
  { rewrite Z.add_mod_idemp_l by lia. f_equal. lia. }
  rewrite Hc in *.
  replace (S (S (S (S calls)))) with (calls + 4) in E2 by lia.
  replace (S (S calls)) with (calls + 2) in R1 by lia.
  replace (S (S (S calls))) with (calls + 3) in R2 by lia.
  exists r1, ((counter + 1) `mod` 2 ^ 32)%Z, (S (S calls)), r2.
  repeat (split; [done|]).
  change (text 4 11 r2) with (text (2 + 2) 11 r2).
  change (text 4 11 r1) with (text (2 + 2) 11 r1).
  rewrite !(text_add 2 2 11). change (11 + 2) with 13.
  by rewrite Fh1, Fp1, Fh2, Fp2.
Qed.

Lemma cuid_twice_witness :
  ∃ result' counter' calls' result2',
    cuid zero_then_10000 0 1700000000 0 localhost_values 4242 0 (fresh 27)
    = Done (23, result', counter', calls')
    ∧ cuid zero_then_10000 counter' 1700000001 0 localhost_values 4242 calls'
        (fresh 27)
      = Done (23, result2', ((0 + 2) `mod` 2 ^ 32)%Z, 0 + 4).
Proof.
  destruct (cuid_twice zero_then_10000 0 1700000000 1700000001
              localhost_values 4242 0 (fresh 27) (fresh 27))
    as (r1 & c1 & k1 & r2 & E1 & E2 & _); [cbv; lia|cbv; lia|cbv; lia|].
  exists r1, c1, k1, r2. split; [exact E1|exact E2].
Defined.

Lemma cuid_quick_layout_witness :
  ∃ result',
    cuid zero_then_10000 0 1700000000 0 localhost_values 4242 0 (fresh 27)
    = Done (23, result', ((0 + 1) `mod` 2 ^ 32)%Z, 2)
    ∧ result' !! 23 = Some NUL.
Proof.
  destruct (cuid_quick_layout zero_then_10000 0 1700000000 localhost_values
              4242 0 (fresh 27))
    as (r1 & E1 & _ & _ & _ & _ & _ & _ & _ & _ & H23 & _);
    [cbv; lia|cbv; lia|].
  exists r1. split; [exact E1|exact H23].
Defined.



(** ** The default fingerprint with room for its scratch digits *)

(** The 64-bit accumulator of the host name never wraps. *)
Lemma hostname_sum_plain_from (l : list Z) acc :
  Forall u32 l → (0 ≤ acc)%Z →
  (acc + Z.of_nat (length l) * 2 ^ 32 < 2 ^ 64)%Z →
  fold_left (λ acc v, (acc + v) `mod` 2 ^ 64)%Z l acc
  = (acc + foldr Z.add 0 l)%Z.
Proof.
  revert acc. induction l as [|v l IH]; intros acc Hl Ha Hb; simpl; [lia|].
  apply Forall_cons in Hl as [Hv Hl]. unfold u32 in Hv.
  simpl length in Hb. rewrite Z.mod_small by lia.
  rewrite IH; [lia|done|lia|lia].
Qed.

Lemma hostname_sum_plain (values : list Z) :
  Forall u32 values →
  hostname_sum values = foldr Z.add 0%Z (take (CUID_HOSTNAME_LENGTH / 4) values).
Proof.
  intros Hv. unfold hostname_sum. rewrite hostname_sum_plain_from; [lia| |lia|].
  - by apply Forall_take.
  - rewrite length_take. change (CUID_HOSTNAME_LENGTH / 4) with 64. lia.
Qed.

Lemma cuid_get_fingerprint_text values pid (b : buffer) ofs :
  CUID_HOSTNAME_LENGTH / 4 ≤ length values → Forall u32 values →
  (0 ≤ pid < 2 ^ 64)%Z → ofs + CUID_BASE36_RESULT_SIZE ≤ length b →
  ∃ b',
    cuid_get_fingerprint 0 values pid b ofs = Done (4, b')
    ∧ length b' = length b
    ∧ take ofs b' = take ofs b
    ∧ text 2 ofs b' = pad_text (hostname_sum values) 2 "0"
    ∧ text 2 (ofs + 2) b' = pad_text pid 2 "0"
    ∧ b' !! (ofs + 4) = Some NUL.
Proof.
  intros Hv Hu Hp Hb. unfold CUID_BASE36_RESULT_SIZE in Hb.
  pose proof (digits36_length_le (hostname_sum values) 7
                (hostname_sum_bound values Hu)) as Dh.
  pose proof (digits36_u64 pid Hp) as Dp.
  destruct (cuid_get_fingerprint_take values pid b ofs Hv)
    as (b' & E & Hl & Ht & H0); rewrite ?Z.mod_small by lia; try lia.
  rewrite Z.mod_small in Ht by lia.
  exists b'. split; [done|]. split; [done|].
  assert (2 < CUID_BASE36_RESULT_SIZE) as H2 by (cbv; lia).
  pose proof (pad_text_length (hostname_sum values) 2 "0" H2) as Lh.
  pose proof (pad_text_length pid 2 "0" H2) as Lp.
  assert (length (take ofs b) = ofs) as Lt by (rewrite length_take; lia).
  pose proof (take_drop (ofs + 4) b') as Hs. rewrite Ht in Hs.
  split; [|split; [|split; [|done]]].
  - apply (f_equal (take ofs)) in Ht. rewrite take_take in Ht.
    rewrite take_app_length' in Ht by done.
    by replace (ofs `min` (ofs + 4)) with ofs in Ht by lia.
  - rewrite <-Hs, <-!(assoc_L (++)). rewrite <-Lt at 1. rewrite <-Lh at 1.
    apply text_app_here.
  - rewrite <-Hs. rewrite (assoc_L (++) (take ofs b)), <-(assoc_L (++) (_ ++ _)).
    replace (ofs + 2)
      with (length (take ofs b ++ pad_text (hostname_sum values) 2 "0"))
      by (rewrite length_app; lia).
    rewrite <-Lp at 1. apply text_app_here.
Qed.

(** X23: with 16 characters of room from [ofs] on, 32-bit host words and a
    64-bit process identifier, [cuid_get_fingerprint] returns 4 and leaves
    four digits and the terminator: two that denote the plain sum of the
    first 64 host words modulo 1296 (the 64-bit accumulator never wraps) and
    two that denote the process identifier modulo 1296. *)
Theorem cuid_get_fingerprint_denotes values pid (b : buffer) ofs :
  CUID_HOSTNAME_LENGTH / 4 ≤ length values → Forall u32 values →
  (0 ≤ pid < 2 ^ 64)%Z → ofs + CUID_BASE36_RESULT_SIZE ≤ length b →
  ∃ b',
    cuid_get_fingerprint 0 values pid b ofs = Done (4, b')
    ∧ take ofs b' = take ofs b
    ∧ base36_value (text 2 ofs b')
      = (foldr Z.add 0 (take (CUID_HOSTNAME_LENGTH / 4) values) `mod` 36 ^ 2)%Z
    ∧ base36_value (text 2 (ofs + 2) b') = (pid `mod` 36 ^ 2)%Z
    ∧ b' !! (ofs + 4) = Some NUL.
Proof.
  intros Hv Hu Hp Hb.
  destruct (cuid_get_fingerprint_text values pid b ofs Hv Hu Hp Hb)
    as (b' & E & _ & Ht & Hh & Hpid & H0).
  exists b'. split; [done|]. split; [done|].
  assert (2 < CUID_BASE36_RESULT_SIZE) as H2 by (cbv; lia).
  pose proof (hostname_sum_bound values Hu) as Hs.
  rewrite Hh, Hpid, !pad_text_value, <-hostname_sum_plain by (done || lia).
  done.
Qed.

Lemma cuid_get_fingerprint_denotes_witness :
  ∃ b',
    cuid_get_fingerprint 0 localhost_values 4242 (fresh 16) 0 = Done (4, b')
    ∧ base36_value (text 2 (0 + 2) b') = (4242 `mod` 36 ^ 2)%Z.
Proof.
  destruct (cuid_get_fingerprint_denotes localhost_values 4242 (fresh 16) 0)
    as (b' & E & _ & _ & Hp & _); [cbv; lia| |lia|cbv; lia|].
  { unfold localhost_values, u32. repeat (constructor; [lia|]). constructor. }
  exists b'. split; [exact E|exact Hp].
Defined.

(** X24: the default fingerprint tells two hosts apart only by the sums of
    their name words modulo 1296, and two processes only by their
    identifiers modulo 1296: two calls leave the same four characters
    exactly when both are congruent. *)
Theorem cuid_get_fingerprint_collision values values' pid pid'
    (b b' : buffer) ofs ofs' :
  CUID_HOSTNAME_LENGTH / 4 ≤ length values → Forall u32 values →
  CUID_HOSTNAME_LENGTH / 4 ≤ length values' → Forall u32 values' →
  (0 ≤ pid < 2 ^ 64)%Z → (0 ≤ pid' < 2 ^ 64)%Z →
  ofs + CUID_BASE36_RESULT_SIZE ≤ length b →
  ofs' + CUID_BASE36_RESULT_SIZE ≤ length b' →
  ∃ b1 b1',
    cuid_get_fingerprint 0 values pid b ofs = Done (4, b1)
    ∧ cuid_get_fingerprint 0 values' pid' b' ofs' = Done (4, b1')
    ∧ (text 4 ofs b1 = text 4 ofs' b1'
       ↔ (hostname_sum values `mod` 36 ^ 2
          = hostname_sum values' `mod` 36 ^ 2)%Z
         ∧ (pid `mod` 36 ^ 2 = pid' `mod` 36 ^ 2)%Z).
Proof.
  intros Hv Hu Hv' Hu' Hp Hp' Hb Hb'.
  destruct (cuid_get_fingerprint_text values pid b ofs Hv Hu Hp Hb)
    as (b1 & E & _ & _ & Hh & Hpid & _).
  destruct (cuid_get_fingerprint_text values' pid' b' ofs' Hv' Hu' Hp' Hb')
    as (b1' & E' & _ & _ & Hh' & Hpid' & _).
  exists b1, b1'. split; [done|]. split; [done|].
  assert (2 < CUID_BASE36_RESULT_SIZE) as H2 by (cbv; lia).
  pose proof (hostname_sum_bound values Hu) as Hs.
  pose proof (hostname_sum_bound values' Hu') as Hs'.
  change (text 4 ofs b1) with (text (2 + 2) ofs b1).
  change (text 4 ofs' b1') with (text (2 + 2) ofs' b1').
  rewrite !text_add, Hh, Hpid, Hh', Hpid'.
  change (Z.of_nat 2) with 2%Z in *.
  rewrite <-(pad_text_congruent (hostname_sum values) (hostname_sum values') 2)
    by (done || lia).
  rewrite <-(pad_text_congruent pid pid' 2) by done.
  split.
  - intros H. apply app_inj_1 in H; [done|].
    by rewrite !pad_text_length.
  - by intros [-> ->].
Qed.

Lemma cuid_get_fingerprint_collision_witness :
  ∃ b1 b1',
    cuid_get_fingerprint 0 localhost_values 4242 (fresh 16) 0 = Done (4, b1)
    ∧ cuid_get_fingerprint 0 localhost_values (4242 + 1296) (fresh 16) 0
      = Done (4, b1')
    ∧ (text 4 0 b1 = text 4 0 b1'
       ↔ (hostname_sum localhost_values `mod` 36 ^ 2
          = hostname_sum localhost_values `mod` 36 ^ 2)%Z
         ∧ (4242 `mod` 36 ^ 2 = (4242 + 1296) `mod` 36 ^ 2)%Z).
Proof.
  assert (Forall u32 localhost_values) as Hu.
  { unfold localhost_values, u32. repeat (constructor; [lia|]). constructor. }
  apply (cuid_get_fingerprint_collision localhost_values localhost_values 4242
           (4242 + 1296) (fresh 16) (fresh 16) 0 0);
    [cbv; lia|exact Hu|cbv; lia|exact Hu|lia|lia|cbv; lia|cbv; lia].
Defined.
